(** * Two-hand note partitioning: a model of [separate.py]

    The development embeds the two engines of [separate.py]
    ([assign_notes_to_hands], the greedy pass, and
    [dynamic_programming_assign_hands] with its helper [calculate_cost])
    and states the properties of the specification over them.

    Conventions of the embedding:
    - a note is the tuple [(pitch, start, end, velocity)] the engines build,
      read by position ([n[0]] ... [n[3]]) exactly where the source does;
    - pitches, velocities and the two configuration parameters are Python
      integers ([Z]); [%] is Python's floored remainder, which is [Z.modulo]
      for the positive modulus 12;
    - times are finite floats.  The engines only compare them (with each
      other, and with a velocity in line 41); a comparison of finite floats
      is the comparison of their values, so a time is its value, a
      rational ([Q]);
    - costs are read twice.  The first reading takes the cost formulas at
      their word: a cost is an exact rational and [float('inf')] a separate
      constructor; it is used for what the formulas compute (values are
      stated with [==]) and for the departures from the specification.  The
      second reading, the module [Binary64], is what Python runs: [int]s of
      any size, binary64 floats with their rounding, and the exceptions
      [OverflowError], [KeyError] and [IndexError]; every statement about
      what an engine returns for all inputs, or about the branch a
      comparison of costs takes, is made over it;
    - [dp] (a [defaultdict]) and [final_hand_assignments] are finite maps;
      [hand_assignment] is iterated with [.items()], so it is kept as a
      list in insertion order;
    - in the first reading a raised [KeyError]/[IndexError] is [None] in
      the option monad. *)

From Stdlib Require Import ZArith QArith Qabs List Permutation Sorted Lia Lqa Bool SpecFloat.
From stdpp Require Import gmap strings.
Import ListNotations.
Local Open Scope Z_scope.

(** ** Data model *)

Module PrettyMIDI.

Record Note := { velocity : Z; pitch : Z; start : Q; end_ : Q }.

Record Instrument := { notes : list Note }.

Record PrettyMIDI := { instruments : list Instrument }.

End PrettyMIDI.

(** The tuple [(note.pitch, note.start, note.end, note.velocity)]. *)
Definition note : Type := Z * Q * Q * Z.

Definition n0 (n : note) : Z := let '(a, _, _, _) := n in a.
Definition n1 (n : note) : Q := let '(_, b, _, _) := n in b.
Definition n2 (n : note) : Q := let '(_, _, c, _) := n in c.
Definition n3 (n : note) : Z := let '(_, _, _, d) := n in d.

(** ['left'] and ['right']. *)
Inductive hand_label := Left | Right.

#[global] Instance hand_label_eq_dec : EqDecision hand_label.
Proof. solve_decision. Defined.

(** ** Preprocessing (lines 22-29 and 108-113) *)

Definition note_tuple (n : PrettyMIDI.Note) : note :=
  (PrettyMIDI.pitch n, PrettyMIDI.start n, PrettyMIDI.end_ n, PrettyMIDI.velocity n).

Definition extract_notes (midi_data : PrettyMIDI.PrettyMIDI) : list note :=
  flat_map (fun instrument => map note_tuple (PrettyMIDI.notes instrument))
           (PrettyMIDI.instruments midi_data).

(** Tuple order on the sort key [(x[1], x[0])]. *)
Definition key_lt (x y : note) : bool :=
  match (n1 x ?= n1 y)%Q with
  | Lt => true
  | Eq => n0 x <? n0 y
  | Gt => false
  end.

(** [list.sort] is stable; the result of a stable sort is determined by the
    key order, so a stable insertion sort computes the same list. *)
Fixpoint insert_note (x : note) (l : list note) : list note :=
  match l with
  | [] => [x]
  | y :: l' => if key_lt y x then y :: insert_note x l' else x :: y :: l'
  end.

Definition sort_notes (l : list note) : list note := fold_right insert_note [] l.

(** ** Shared pieces of the hand state *)

Definition py_min (l : list Z) (d : Z) : Z :=
  match l with [] => d | x :: xs => fold_left Z.min xs x end.

Definition py_max (l : list Z) (d : Z) : Z :=
  match l with [] => d | x :: xs => fold_left Z.max xs x end.

(** [{p % 12 for p in pitches}] *)
Definition pitch_classes (pitches : list Z) : gset Z :=
  list_to_set (map (fun p => p mod 12) pitches).

Definition nonempty {A} (l : list A) : bool :=
  match l with [] => false | _ => true end.

Definition len {A} (l : list A) : Z := Z.of_nat (length l).

Record hand_state := {
  fingers_used : Z;
  spread : Z;
  min_pitch : Z;
  max_pitch : Z
}.

Definition make_state (current_pitches : list Z) (pitch : Z) : hand_state :=
  let finger_positions := pitch_classes current_pitches in
  let min_pitch := py_min current_pitches pitch in
  let max_pitch := py_max current_pitches pitch in
  {| fingers_used := Z.of_nat (size finger_positions);
     spread := if nonempty current_pitches then max_pitch - min_pitch else 0;
     min_pitch := min_pitch;
     max_pitch := max_pitch |}.

Definition register_cost (hand : hand_label) (pitch : Z) : Q :=
  match hand with
  | Left => if 60 <=? pitch then 0.8%Q else 0%Q
  | Right => if pitch <? 60 then 0.8%Q else 0%Q
  end.

(** ** The greedy engine, [assign_notes_to_hands] *)

Record greedy_state := {
  left_hand : list note;
  right_hand : list note;
  active_left : list note;    (* active_notes['left'] *)
  active_right : list note    (* active_notes['right'] *)
}.

(** Line 41: [[n for n in active_notes[hand] if n[3] > start]]. *)
Definition prune (active : list note) (start : Q) : list note :=
  List.filter (fun n => if Qlt_le_dec start (inject_Z (n3 n)) then true else false) active.

(** Lines 59-74, the body of the second loop.  [current_pitches] is the
    variable of that name in scope there: the first loop assigned it last
    for ['right'], and the second loop reads it for both hands. *)
Definition greedy_cost (hand : hand_label) (state : hand_state) (current_pitches : list Z)
    (pitch max_fingers allowed_spread : Z) : Q :=
  let new_min := if nonempty current_pitches then Z.min (min_pitch state) pitch else pitch in
  let new_max := if nonempty current_pitches then Z.max (max_pitch state) pitch else pitch in
  let new_span := new_max - new_min in
  let span_cost := Z.max 0 (new_span - allowed_spread) ^ 2 in
  let finger_cost :=
    if (max_fingers <=? fingers_used state)
       && negb (bool_decide (pitch mod 12 ∈ pitch_classes current_pitches))
    then 2.0%Q else 0%Q in
  let density_cost := (0.2 * inject_Z (len current_pitches))%Q in
  (inject_Z span_cost + finger_cost + register_cost hand pitch + density_cost)%Q.

(** Lines 38-74 for one note: the pruned active lists and [costs]. *)
Record greedy_view := {
  pruned_left : list note;
  pruned_right : list note;
  cost_left : Q;
  cost_right : Q
}.

Definition greedy_costs (st : greedy_state) (n : note) (max_fingers allowed_spread : Z)
    : greedy_view :=
  let '(pitch, start, _, _) := n in
  (* first loop, hand = 'left' *)
  let al := prune (active_left st) start in
  let pitches_left := map n0 al in
  let state_left := make_state pitches_left pitch in
  (* first loop, hand = 'right' *)
  let ar := prune (active_right st) start in
  let pitches_right := map n0 ar in
  let state_right := make_state pitches_right pitch in
  let current_pitches := pitches_right in
  (* second loop *)
  {| pruned_left := al;
     pruned_right := ar;
     cost_left := greedy_cost Left state_left current_pitches pitch max_fingers allowed_spread;
     cost_right := greedy_cost Right state_right current_pitches pitch max_fingers allowed_spread |}.

(** Lines 77-90: the hysteresis rule. *)
Definition greedy_choice (cl cr : Q) (n_left n_right : nat) : hand_label :=
  if Qlt_le_dec cl (cr * 0.9) then Left
  else if Qlt_le_dec cr (cl * 0.9) then Right
  else if (n_right <? n_left)%nat then Right
  else Left.

Definition greedy_decide (st : greedy_state) (n : note) (max_fingers allowed_spread : Z) : hand_label :=
  let v := greedy_costs st n max_fingers allowed_spread in
  greedy_choice (cost_left v) (cost_right v) (length (left_hand st)) (length (right_hand st)).

Definition greedy_step (max_fingers allowed_spread : Z) (st : greedy_state) (n : note)
    : greedy_state :=
  let v := greedy_costs st n max_fingers allowed_spread in
  match greedy_decide st n max_fingers allowed_spread with
  | Left =>
      {| left_hand := left_hand st ++ [n];
         right_hand := right_hand st;
         active_left := pruned_left v ++ [n];
         active_right := pruned_right v |}
  | Right =>
      {| left_hand := left_hand st;
         right_hand := right_hand st ++ [n];
         active_left := pruned_left v;
         active_right := pruned_right v ++ [n] |}
  end.

Definition greedy_init : greedy_state :=
  {| left_hand := []; right_hand := []; active_left := []; active_right := [] |}.

Definition greedy_run (max_fingers allowed_spread : Z) (notes : list note) : greedy_state :=
  fold_left (greedy_step max_fingers allowed_spread) notes greedy_init.

Definition assign_notes_to_hands (midi_data : PrettyMIDI.PrettyMIDI)
    (max_fingers allowed_spread : Z) : list note * list note :=
  let notes := sort_notes (extract_notes midi_data) in
  let st := greedy_run max_fingers allowed_spread notes in
  (left_hand st, right_hand st).

(** ** Python dictionaries in insertion order *)

Section PyDict.
Context {K V : Type} `{EqDecision K}.

(** [d[k] = v]: an existing key keeps its position. *)
Fixpoint dict_set (k : K) (v : V) (d : list (K * V)) : list (K * V) :=
  match d with
  | [] => [(k, v)]
  | (k', v') :: d' =>
      if decide (k' = k) then (k', v) :: d' else (k', v') :: dict_set k v d'
  end.

(** [d[k]], [None] standing for [KeyError]. *)
Fixpoint dict_get (k : K) (d : list (K * V)) : option V :=
  match d with
  | [] => None
  | (k', v') :: d' => if decide (k' = k) then Some v' else dict_get k d'
  end.

End PyDict.

(** ** The cost function of the DP engine, [calculate_cost] *)

(** Lines 184-196: the loop over [current_assignments.items()] that builds
    [assigned_hand_notes]; [active_notes_pitch] is its list of pitches. *)
Fixpoint assigned_hand_notes (start : Q) (hand : hand_label)
    (items : list (nat * hand_label * hand_label)) (previous_notes : list note) : list note :=
  match items with
  | [] => []
  | (n_idx, hand_assigned, _) :: items' =>
      let rest := assigned_hand_notes start hand items' previous_notes in
      if (length previous_notes <=? n_idx)%nat then rest
      else if decide (hand_assigned = hand) then
        match previous_notes !! n_idx with
        | Some assigned_note =>
            if Qlt_le_dec start (n2 assigned_note) then assigned_note :: rest else rest
        | None => rest
        end
      else rest
  end.

Definition calculate_cost (n : note) (hand : hand_label)
    (current_assignments : list (nat * hand_label * hand_label)) (previous_notes : list note)
    (max_fingers allowed_spread : Z) : Q :=
  let '(pitch, start, _, _) := n in
  let active_notes_pitch :=
    map n0 (assigned_hand_notes start hand current_assignments previous_notes) in
  let current_pitches := active_notes_pitch in
  let finger_positions := pitch_classes current_pitches in
  let state := make_state current_pitches pitch in
  let new_min := if nonempty current_pitches then Z.min (min_pitch state) pitch else pitch in
  let new_max := if nonempty current_pitches then Z.max (max_pitch state) pitch else pitch in
  let new_span := new_max - new_min in
  let span_cost := Z.max 0 (new_span - allowed_spread) ^ 2 in
  let finger_cost :=
    if (max_fingers <=? fingers_used state)
       && negb (bool_decide (pitch mod 12 ∈
                  (set_map (fun p => p mod 12) finger_positions : gset Z)))
    then 2.0%Q else 0%Q in
  let density_cost := (0.2 * inject_Z (len current_pitches))%Q in
  (inject_Z span_cost + finger_cost + register_cost hand pitch + density_cost)%Q.

(** ** The DP engine, [dynamic_programming_assign_hands] *)

(** A table entry: a float, possibly [float('inf')]. *)
Inductive ecost := Finite (c : Q) | Infinity.

Definition ecost_add (a : ecost) (c : Q) : ecost :=
  match a with Finite x => Finite (x + c) | Infinity => Infinity end.

Definition ecost_ltb (a b : ecost) : bool :=
  match a, b with
  | Finite x, Finite y => if Qlt_le_dec x y then true else false
  | Finite _, Infinity => true
  | Infinity, _ => false
  end.

Definition ecost_leb (a b : ecost) : bool :=
  match a, b with
  | Finite x, Finite y => if Qlt_le_dec y x then false else true
  | _, Infinity => true
  | Infinity, Finite _ => false
  end.

(** A row [{'left': ..., 'right': ...}] of [dp]. *)
Record dp_row := { left_cost : ecost; right_cost : ecost }.

Definition row_get (r : dp_row) (h : hand_label) : ecost :=
  match h with Left => left_cost r | Right => right_cost r end.

Definition row_set (r : dp_row) (h : hand_label) (v : ecost) : dp_row :=
  match h with
  | Left => {| left_cost := v; right_cost := right_cost r |}
  | Right => {| left_cost := left_cost r; right_cost := v |}
  end.

Definition default_row : dp_row := {| left_cost := Infinity; right_cost := Infinity |}.

(** [dp[i]] on the [defaultdict]: a missing row is created on access. *)
Definition defaultdict_get (dp : gmap Z dp_row) (i : Z) : dp_row * gmap Z dp_row :=
  match dp !! i with
  | Some r => (r, dp)
  | None => (default_row, <[i := default_row]> dp)
  end.

Record dp_state := {
  dp : gmap Z dp_row;
  hand_assignment : list (nat * hand_label * hand_label)
}.

(** Lines 133-140, one iteration of the loop over [prev_hand]. *)
Definition relax (i : nat) (hand : hand_label) (cost_to_assign_hand : Q)
    (st : dp_state) (prev_hand : hand_label) : dp_state :=
  let '(prev_row, dp1) := defaultdict_get (dp st) (Z.of_nat i - 1) in
  let prev_cost := row_get prev_row prev_hand in
  let current_total_cost := ecost_add prev_cost cost_to_assign_hand in
  let '(row_i, dp2) := defaultdict_get dp1 (Z.of_nat i) in
  if ecost_ltb current_total_cost (row_get row_i hand) then
    {| dp := <[Z.of_nat i := row_set row_i hand current_total_cost]> dp2;
       hand_assignment := dict_set (i, hand) prev_hand (hand_assignment st) |}
  else
    {| dp := dp2; hand_assignment := hand_assignment st |}.

(** Lines 129-140, one iteration of the loop over [hand]. *)
Definition dp_hand_step (notes : list note) (max_fingers allowed_spread : Z)
    (i : nat) (current_note : note) (st : dp_state) (hand : hand_label) : dp_state :=
  let cost_to_assign_hand :=
    calculate_cost current_note hand (hand_assignment st) (firstn i notes)
                   max_fingers allowed_spread in
  fold_left (relax i hand cost_to_assign_hand) [Left; Right] st.

(** Lines 126-140, one iteration of the loop over [i]. *)
Definition dp_note_step (notes : list note) (max_fingers allowed_spread : Z)
    (ost : option dp_state) (i : nat) : option dp_state :=
  st ← ost;
  current_note ← notes !! i;
  Some (fold_left (dp_hand_step notes max_fingers allowed_spread i current_note)
                  [Left; Right] st).

Definition dp_init : dp_state :=
  {| dp := <[(-1) := {| left_cost := Finite 0; right_cost := Finite 0 |}]> ∅;
     hand_assignment := [] |}.

Definition dp_fill (notes : list note) (max_fingers allowed_spread : Z) : option dp_state :=
  fold_left (dp_note_step notes max_fingers allowed_spread)
            (seq 0 (length notes)) (Some dp_init).

(** Lines 144-147. *)
Definition pick_final_hand (st : dp_state) (n_notes : nat) : hand_label * gmap Z dp_row :=
  let '(r1, dp1) := defaultdict_get (dp st) (Z.of_nat n_notes - 1) in
  let '(r2, dp2) := defaultdict_get dp1 (Z.of_nat n_notes - 1) in
  (if ecost_leb (row_get r1 Left) (row_get r2 Right) then Left else Right, dp2).

(** Line 149 (the value is computed and not used by the source). *)
Definition final_cost (st : dp_state) (n_notes : nat) : ecost :=
  let r := default default_row (dp st !! (Z.of_nat n_notes - 1)) in
  if ecost_leb (row_get r Left) (row_get r Right) then row_get r Left else row_get r Right.

(** Lines 152-154, one iteration of the backward loop. *)
Definition backtrack_step (hand_assignment : list (nat * hand_label * hand_label))
    (acc : option (hand_label * gmap nat hand_label)) (i : nat) : option (hand_label * gmap nat hand_label) :=
  '(final_hand, final_hand_assignments) ← acc;
  final_hand' ← dict_get (S i, final_hand) hand_assignment;
  Some (final_hand', <[i := final_hand']> final_hand_assignments).

(** Lines 143-154: [range(n_notes - 2, -1, -1)] is [n_notes-2, ..., 0]. *)
Definition backtrack (st : dp_state) (n_notes : nat) : option (gmap nat hand_label) :=
  let final_hand := fst (pick_final_hand st n_notes) in
  snd <$> fold_left (backtrack_step (hand_assignment st))
                    (rev (seq 0 (n_notes - 1)))
                    (Some (final_hand, <[(n_notes - 1)%nat := final_hand]> ∅)).

(** Lines 156-163. *)
Definition collect_step (notes : list note) (final_hand_assignments : gmap nat hand_label)
    (acc : option (list note * list note)) (i : nat) : option (list note * list note) :=
  '(left_hand_notes, right_hand_notes) ← acc;
  n ← notes !! i;
  h ← final_hand_assignments !! i;
  Some (match h with
        | Left => (left_hand_notes ++ [n], right_hand_notes)
        | Right => (left_hand_notes, right_hand_notes ++ [n])
        end).

Definition collect (notes : list note) (final_hand_assignments : gmap nat hand_label)
    : option (list note * list note) :=
  fold_left (collect_step notes final_hand_assignments) (seq 0 (length notes)) (Some ([], [])).

(** What one call leaves behind: the tables it built, if it built any, and
    the pair it returns. *)
Record dp_outcome := {
  tables : option dp_state;
  returned : list note * list note
}.

Definition dp_engine (notes : list note) (max_fingers allowed_spread : Z) : option dp_outcome :=
  let n_notes := length notes in
  if (n_notes =? 0)%nat then Some {| tables := None; returned := ([], []) |}
  else
    st ← dp_fill notes max_fingers allowed_spread;
    final_hand_assignments ← backtrack st n_notes;
    out ← collect notes final_hand_assignments;
    Some {| tables := Some st; returned := out |}.

Definition dynamic_programming_assign_hands (midi_data : PrettyMIDI.PrettyMIDI)
    (max_fingers allowed_spread : Z) : option (list note * list note) :=
  returned <$> dp_engine (sort_notes (extract_notes midi_data)) max_fingers allowed_spread.

(** ** Instrumentation used to state the properties *)

(** The sum of the costs the greedy pass computed for the hands it chose. *)
Definition greedy_cost_step (max_fingers allowed_spread : Z)
    (acc : greedy_state * Q) (n : note) : greedy_state * Q :=
  let '(st, total) := acc in
  let v := greedy_costs st n max_fingers allowed_spread in
  (greedy_step max_fingers allowed_spread st n,
   (total + match greedy_decide st n max_fingers allowed_spread with
            | Left => cost_left v
            | Right => cost_right v
            end)%Q).

Definition greedy_total_cost (max_fingers allowed_spread : Z) (notes : list note) : Q :=
  snd (fold_left (greedy_cost_step max_fingers allowed_spread) notes (greedy_init, 0%Q)).

(** The hands the greedy pass chose, in processing order. *)
Definition greedy_label_step (max_fingers allowed_spread : Z)
    (acc : greedy_state * list hand_label) (n : note) : greedy_state * list hand_label :=
  let '(st, labels) := acc in
  (greedy_step max_fingers allowed_spread st n,
   labels ++ [greedy_decide st n max_fingers allowed_spread]).

Definition greedy_labels (max_fingers allowed_spread : Z) (notes : list note)
    : list hand_label :=
  snd (fold_left (greedy_label_step max_fingers allowed_spread) notes (greedy_init, [])).

(** The cost of a complete labelling under [calculate_cost], each note
    priced against the labels of the notes before it. *)
Definition history_of (labels : list hand_label) : list (nat * hand_label * hand_label) :=
  imap (fun j h => (j, h, h)) labels.

Definition labelling_cost (notes : list note) (labels : list hand_label)
    (max_fingers allowed_spread : Z) : Q :=
  fold_left
    (fun total i =>
       match notes !! i, labels !! i with
       | Some n, Some h =>
           (total + calculate_cost n h (history_of (firstn i labels)) (firstn i notes)
                                   max_fingers allowed_spread)%Q
       | _, _ => total
       end)
    (seq 0 (length notes)) 0%Q.

(** The cost model in the words of the specification, over the pitches of
    a hand's active set. *)
Definition spec_cost (hand : hand_label) (active_pitches : list Z)
    (pitch max_fingers allowed_spread : Z) : Q :=
  let new_span :=
    match active_pitches with
    | [] => 0
    | _ => fold_right Z.max pitch active_pitches - fold_right Z.min pitch active_pitches
    end in
  let span_cost := Z.max 0 (new_span - allowed_spread) ^ 2 in
  let classes := pitch_classes active_pitches in
  let finger_cost :=
    if (max_fingers <=? Z.of_nat (size classes)) && negb (bool_decide (pitch mod 12 ∈ classes))
    then 2.0%Q else 0%Q in
  let register_cost :=
    match hand with
    | Left => if 60 <=? pitch then 0.8%Q else 0%Q
    | Right => if pitch <? 60 then 0.8%Q else 0%Q
    end in
  let density_cost := (0.2 * inject_Z (len active_pitches))%Q in
  (inject_Z span_cost + finger_cost + register_cost + density_cost)%Q.

Definition malformed (n : note) : Prop :=
  (n2 n <= n1 n)%Q \/ n0 n < 0 \/ 127 < n0 n.

Definition mk_note (pitch : Z) (start end_ : Q) (velocity : Z) : PrettyMIDI.Note :=
  {| PrettyMIDI.velocity := velocity; PrettyMIDI.pitch := pitch;
     PrettyMIDI.start := start; PrettyMIDI.end_ := end_ |}.

(** A file with a single track. *)
Definition one_track (l : list PrettyMIDI.Note) : PrettyMIDI.PrettyMIDI :=
  {| PrettyMIDI.instruments := [ {| PrettyMIDI.notes := l |} ] |}.

(** The keys [(0, 'left'), (0, 'right'), (1, 'left'), ...] of the first
    [k] notes, in the order the DP loop inserts them. *)
Definition keys_upto (k : nat) : list (nat * hand_label) :=
  flat_map (fun j => [(j, Left); (j, Right)]) (seq 0 k).

(** Note [i] when its final label is [hand]. *)
Definition label_pick (hand : hand_label) (notes : list note)
    (final_hand_assignments : gmap nat hand_label) (i : nat) : list note :=
  match notes !! i, final_hand_assignments !! i with
  | Some n, Some h => if decide (h = hand) then [n] else []
  | _, _ => []
  end.

(** The notes whose final label is [hand], in index order. *)
Definition notes_labelled (hand : hand_label) (notes : list note)
    (final_hand_assignments : gmap nat hand_label) : list note :=
  flat_map (label_pick hand notes final_hand_assignments) (seq 0 (length notes)).

(** The notes of [l] still sounding at [start]: those with [end > start]. *)
Definition sounding (start : Q) (l : list note) : list note :=
  List.filter (fun n => if Qlt_le_dec start (n2 n) then true else false) l.

(** A two-note file used to instantiate the statements: an E above middle C
    held for two seconds, and a low E entering after one second. *)
Definition two_note_demo : PrettyMIDI.PrettyMIDI :=
  one_track [mk_note 64 0 2 100; mk_note 40 1 3 100].

(** A middle C that has ended before a high G sharp starts. *)
Definition stale_note_demo : PrettyMIDI.PrettyMIDI :=
  one_track [mk_note 60 0 0.5 100; mk_note 80 1 1.5 100].

(** A held E with velocity 0 and a second note entering while it sounds. *)
Definition silent_note_demo : PrettyMIDI.PrettyMIDI :=
  one_track [mk_note 64 0 10 0; mk_note 66 1 2 100].

(** Two overlapping notes above middle C. *)
Definition overlap_demo : PrettyMIDI.PrettyMIDI :=
  one_track [mk_note 64 0 2 100; mk_note 66 1 3 100].

(** One note that ends before it starts, with a pitch outside 0..127. *)
Definition malformed_demo : PrettyMIDI.PrettyMIDI :=
  one_track [mk_note 200 1 0 64].

(** The order of the sort keys: [x] may stand before [y]. *)
Definition key_le (x y : note) : Prop := key_lt y x = false.

(** Notes with the sort key of [k]. *)
Definition same_key (k x : note) : bool :=
  Qeq_bool (n1 x) (n1 k) && (n0 x =? n0 k).

(** A note without its end time: what is left of [(pitch, start, end,
    velocity)] when [n[2]] is dropped. *)
Definition without_end (n : note) : Z * Q * Z := (n0 n, n1 n, n3 n).

(** Two greedy states that agree on everything but end times. *)
Definition same_but_ends (st st' : greedy_state) : Prop :=
  map without_end (left_hand st) = map without_end (left_hand st')
  /\ map without_end (right_hand st) = map without_end (right_hand st')
  /\ map without_end (active_left st) = map without_end (active_left st')
  /\ map without_end (active_right st) = map without_end (active_right st').

(** ** The script at the end of [separate.py] (lines 225-248 and 250-270)

    The script turns each hand back into [Note] objects on an instrument of
    its own, program 0, and appends the two instruments to a fresh
    [PrettyMIDI]; loading ['test.mid'] and writing the result are file
    operations and stay outside.  The engines read nothing of an instrument
    but its notes, so an output track is an engine-side instrument together
    with the two attributes the script sets. *)

Module Output.

Record Track := {
  program : Z;
  name : string;
  instrument : PrettyMIDI.Instrument
}.

End Output.

(** [Note(velocity=velocity, pitch=pitch, start=start, end=end)] for
    [pitch, start, end, velocity] unpacked from a tuple. *)
Definition to_note (t : note) : PrettyMIDI.Note :=
  let '(pitch, start, end_, velocity) := t in
  {| PrettyMIDI.velocity := velocity; PrettyMIDI.pitch := pitch;
     PrettyMIDI.start := start; PrettyMIDI.end_ := end_ |}.

(** Lines 228-245 (and 253-267 with the DP names). *)
Definition split_tracks (left_name right_name : string)
    (hands : list note * list note) : list Output.Track :=
  let '(left_hand, right_hand) := hands in
  let left_instr :=
    {| Output.program := 0; Output.name := left_name;
       Output.instrument := {| PrettyMIDI.notes := map to_note left_hand |} |} in
  let right_instr :=
    {| Output.program := 0; Output.name := right_name;
       Output.instrument := {| PrettyMIDI.notes := map to_note right_hand |} |} in
  [] ++ [left_instr] ++ [right_instr].

(** Lines 225-245. *)
Definition split_midi (midi_data : PrettyMIDI.PrettyMIDI) : list Output.Track :=
  split_tracks "Left Hand" "Right Hand" (assign_notes_to_hands midi_data 5 8).

(** Lines 250-267. *)
Definition split_midi_dp (midi_data : PrettyMIDI.PrettyMIDI) : option (list Output.Track) :=
  split_tracks "Left Hand DP" "Right Hand DP"
    <$> dynamic_programming_assign_hands midi_data 5 8.

(** The written tracks as the engines would read them back. *)
Definition as_midi_data (tracks : list Output.Track) : PrettyMIDI.PrettyMIDI :=
  {| PrettyMIDI.instruments := map Output.instrument tracks |}.

(** ** [melody.py]: grouping pitch frames into notes

    [extract_melody] asks [librosa.pyin] for a pitch estimate per frame
    ([f0], in Hz, with [voiced_flag]) and [librosa.times_like] for the frame
    times, and then groups the frames into notes (lines 18-50).  The two
    library calls are outside the repository: the grouping is modelled as a
    function of the three arrays.  [librosa.hz_to_midi] followed by
    [int(round(...))] is a parameter, [midi_of_hz].  A melody note is the
    tuple [(start_time, end_time, midi_pitch)].

    [current_note] and [current_start] are assigned together wherever they
    are assigned (lines 19-20, 27-28, 35-36, 43-44), so the pair is one
    optional value here.  An unvoiced frame's [f0] is never read. *)

Module Melody.

Definition melody_note : Type := Q * Q * Z.

Record seg_state := {
  notes : list melody_note;
  current : option (Q * Q)     (* (current_note, current_start) *)
}.

(** [zip(times, f0, voiced_flag)] stops with the shortest of the three. *)
Fixpoint zip3 (times f0 : list Q) (voiced_flag : list bool) : list (Q * Q * bool) :=
  match times, f0, voiced_flag with
  | t :: times', p :: f0', v :: voiced_flag' => (t, p, v) :: zip3 times' f0' voiced_flag'
  | _, _, _ => []
  end.

Definition m_start (n : melody_note) : Q := fst (fst n).
Definition m_end (n : melody_note) : Q := snd (fst n).
Definition m_pitch (n : melody_note) : Z := snd n.

Section Grouping.
Variable midi_of_hz : Q -> Z.

(** Lines 23-44, the body of the loop. *)
Definition frame_step (st : seg_state) (frame : Q * Q * bool) : seg_state :=
  let '(time, pitch, voiced) := frame in
  if voiced then
    match current st with
    | None => {| notes := notes st; current := Some (pitch, time) |}
    | Some (current_note, current_start) =>
        if Qlt_le_dec 1.0 (Qabs (pitch - current_note)) then
          {| notes := notes st ++ [(current_start, time, midi_of_hz current_note)];
             current := Some (pitch, time) |}
        else st
    end
  else
    match current st with
    | Some (current_note, current_start) =>
        {| notes := notes st ++ [(current_start, time, midi_of_hz current_note)];
           current := None |}
    | None => st
    end.

Definition seg_init : seg_state := {| notes := []; current := None |}.

(** Lines 18-50; [None] stands for the [IndexError] of [times[-1]]. *)
Definition extract_melody (times f0 : list Q) (voiced_flag : list bool)
    : option (list melody_note) :=
  let st := fold_left frame_step (zip3 times f0 voiced_flag) seg_init in
  match current st with
  | Some (current_note, current_start) =>
      end_time ← last times;
      Some (notes st ++ [(current_start, end_time, midi_of_hz current_note)])
  | None => Some (notes st)
  end.

(** A note that starts at the time of a voiced frame and takes its pitch
    from the estimate of that frame. *)
Definition from_voiced_frame (frames : list (Q * Q * bool)) (n : melody_note) : Prop :=
  exists t f, In (t, f, true) frames /\ m_start n = t /\ m_pitch n = midi_of_hz f.

(** What the loop keeps true of its state after the frames [done]. *)
Definition provenance (st : seg_state) (done : list (Q * Q * bool)) : Prop :=
  (length (notes st) + (match current st with Some _ => 1 | None => 0 end)
   <= length (List.filter (fun frame => snd frame) done))%nat
  /\ Forall (from_voiced_frame done) (notes st)
  /\ (forall cn cs, current st = Some (cn, cs) -> In (cs, cn, true) done).

End Grouping.

(** Lines 56-71 of [create_midi]: the instrument it fills.  The program
    number comes from [pretty_midi.instrument_name_to_program] and is a
    parameter; an [Instrument] made without a name has the empty name. *)
Definition create_midi (piano_program : Z) (melody_notes : list melody_note) : Output.Track :=
  {| Output.program := piano_program;
     Output.name := "";
     Output.instrument :=
       {| PrettyMIDI.notes :=
            flat_map (fun '(start, end_, pitch) =>
                        if Qlt_le_dec (end_ - start) 0.05 then []
                        else [ {| PrettyMIDI.velocity := 100; PrettyMIDI.pitch := pitch;
                                  PrettyMIDI.start := start; PrettyMIDI.end_ := end_ |} ])
                     melody_notes |} |}.

(** The frames the loop sees that are voiced. *)
Definition voiced_frames (times f0 : list Q) (voiced_flag : list bool) : list (Q * Q * bool) :=
  List.filter (fun frame => snd frame) (zip3 times f0 voiced_flag).

(** Notes that follow one another in time without overlapping. *)
Definition in_sequence (l : list melody_note) : Prop :=
  Forall (fun n => (m_start n <= m_end n)%Q) l
  /\ StronglySorted (fun a b => (m_end a <= m_start b)%Q) l.

Definition frame_time (frame : Q * Q * bool) : Q := fst (fst frame).

(** What the loop keeps true of its state when the frames up to time [b]
    are done and the frame times never decrease: the notes closed so far are
    in sequence and end no later than the open note starts (than [b], when
    no note is open), and an open note started at a frame time, not after
    [b]. *)
Definition timeline (times : list Q) (st : seg_state) (b : Q) : Prop :=
  in_sequence (notes st)
  /\ Forall (fun n => (m_end n <= match current st with
                                  | Some (_, current_start) => current_start
                                  | None => b
                                  end)%Q) (notes st)
  /\ (forall cn cs, current st = Some (cn, cs) -> (cs <= b)%Q /\ In cs times).

End Melody.

(** ** [download.py]: the folder name made from a URL

    A Python string is a sequence of Unicode code points ([N]).  The two
    regular expressions of [slugify_url] are written out as the scans they
    denote: [re.search(r"v=([^&]+)", url)] finds the leftmost ['v'], ['=']
    followed by at least one character other than ['&'] and captures the
    longest run of such characters; [re.sub(r'[^a-zA-Z0-9_-]', '_', slug)]
    replaces every character outside the class.  [str.strip] removes the
    characters for which [str.isspace] holds; that predicate belongs to
    Python and is a parameter. *)

Module Download.

Definition of_string (s : string) : list N :=
  map Ascii.N_of_ascii (String.list_ascii_of_string s).

(** The longest prefix without ['&'] (code point 38): what [[^&]+] takes. *)
Fixpoint until_amp (s : list N) : list N :=
  match s with
  | [] => []
  | c :: s' => if (c =? 38)%N then [] else c :: until_amp s'
  end.

(** The match of [v=([^&]+)] that starts at the head of [s], if any:
    ['v'] is 118 and ['='] is 61. *)
Definition match_v_here (s : list N) : option (list N) :=
  match s with
  | c :: c' :: rest =>
      if (c =? 118)%N && (c' =? 61)%N then
        match until_amp rest with
        | [] => None
        | g => Some g
        end
      else None
  | _ => None
  end.

(** [re.search(r"v=([^&]+)", url)], giving [match.group(1)]. *)
Fixpoint search_v (s : list N) : option (list N) :=
  match s with
  | [] => None
  | c :: s' =>
      match match_v_here (c :: s') with
      | Some g => Some g
      | None => search_v s'
      end
  end.

(** [s.split(sep)] for a one-character separator: never an empty list. *)
Fixpoint split (sep : N) (s : list N) : list (list N) :=
  match s with
  | [] => [[]]
  | c :: s' =>
      if (c =? sep)%N then [] :: split sep s'
      else match split sep s' with
           | piece :: pieces => (c :: piece) :: pieces
           | [] => [[c]]
           end
  end.

(** The class [[a-zA-Z0-9_-]]. *)
Definition allowed (c : N) : bool :=
  ((97 <=? c) && (c <=? 122) || (65 <=? c) && (c <=? 90) || (48 <=? c) && (c <=? 57)
   || (c =? 95) || (c =? 45))%N.

(** [re.sub(r'[^a-zA-Z0-9_-]', '_', slug)]: ['_'] is 95. *)
Definition sanitize (slug : list N) : list N :=
  map (fun c => if allowed c then c else 95%N) slug.

Section Slug.
Variable isspace : N -> bool.

Fixpoint lstrip (s : list N) : list N :=
  match s with
  | [] => []
  | c :: s' => if isspace c then lstrip s' else s
  end.

(** [s.strip()]. *)
Definition strip (s : list N) : list N := rev (lstrip (rev (lstrip s))).

(** Lines 6-13 of [download.py]; ['/'] is 47, and [[-1]] of a split is its
    last piece. *)
Definition slugify_url (url : list N) : list N :=
  let slug :=
    match search_v url with
    | Some group1 => group1
    | None => List.last (split 47 (strip url)) []
    end in
  sanitize slug.

End Slug.

(** [str.isspace] on one code point, as Python defines it for [str]: the
    white-space characters of Unicode.  Used to instantiate the parameter. *)
Definition py_isspace (c : N) : bool :=
  ((9 <=? c) && (c <=? 13) || (28 <=? c) && (c <=? 32) || (c =? 133) || (c =? 160)
   || (c =? 5760) || (8192 <=? c) && (c <=? 8202) || (c =? 8232) || (c =? 8233)
   || (c =? 8239) || (c =? 8287) || (c =? 12288))%N.

(** The two characters ['v'], ['='] next to each other somewhere in [s]. *)
Fixpoint has_v_eq (s : list N) : bool :=
  match s with
  | c :: (c' :: _) as s' => ((c =? 118)%N && (c' =? 61)%N) || has_v_eq s'
  | _ => false
  end.

End Download.

(** * The engines in binary64 arithmetic

    The costs of [separate.py] are Python numbers: [int]s of any size and
    binary64 [float]s.  The embedding above reads them as exact rationals,
    which is what the cost formulas say; what an engine returns on a given
    file is decided by the rounded values and by the exceptions Python
    raises, and that is what this part models.

    - A [float] is a [spec_float] of the Standard Library, with [SFadd],
      [SFmul] and [SFcompare] at precision 53 and maximal exponent 1024
      (round to nearest, ties to even).
    - [int + float] and [int * float] convert the [int] first; the
      conversion rounds to nearest-even and raises [OverflowError] when the
      result would not be finite.  [float + float] and [float * float] do
      not raise: they overflow to [inf].
    - Comparisons between an [int] and a [float] are exact.
    - A failing dictionary or list access raises [KeyError] or
      [IndexError].

    Times are only compared with one another and with velocities, never
    computed with, so they stay rationals. *)

Module Binary64.

Definition prec : Z := 53.
Definition emax : Z := 1024.

Definition float : Type := spec_float.

Definition add : float -> float -> float := SFadd prec emax.
Definition mul : float -> float -> float := SFmul prec emax.

(** [float('inf')] *)
Definition inf : float := S754_infinity false.

(** The literals [2.0], [0.8], [0.2] and [0.9]: the binary64 numbers
    nearest to them, [mantissa * 2 ^ exponent]. *)
Definition f2_0 : float := S754_finite false 4503599627370496 (-51).
Definition f0_8 : float := S754_finite false 7205759403792794 (-53).
Definition f0_2 : float := S754_finite false 7205759403792794 (-55).
Definition f0_9 : float := S754_finite false 8106479329266893 (-53).

Inductive exn := OverflowError | KeyError | IndexError.

Inductive result (A : Type) := Ok (a : A) | Raise (e : exn).
Arguments Ok {A} a.
Arguments Raise {A} e.

#[global] Instance result_ret : MRet result := fun A a => Ok a.
#[global] Instance result_bind : MBind result :=
  fun A B f m => match m with Ok a => f a | Raise e => Raise e end.
#[global] Instance result_fmap : FMap result :=
  fun A B f m => match m with Ok a => Ok (f a) | Raise e => Raise e end.

(** [float(z)] for an [int]: "int too large to convert to float" when the
    nearest binary64 number is not finite. *)
Definition float_of_int (z : Z) : result float :=
  match binary_normalize prec emax z 0 false with
  | S754_infinity _ => Raise OverflowError
  | f => Ok f
  end.

Inductive number := Int (z : Z) | Float (f : float).

Definition to_float (x : number) : result float :=
  match x with
  | Int z => float_of_int z
  | Float f => Ok f
  end.

(** [x + y] *)
Definition num_add (x y : number) : result number :=
  match x, y with
  | Int a, Int b => Ok (Int (a + b))
  | _, _ => a ← to_float x; b ← to_float y; Ok (Float (add a b))
  end.

(** [x * y] *)
Definition num_mul (x y : number) : result number :=
  match x, y with
  | Int a, Int b => Ok (Int (a * b))
  | _, _ => a ← to_float x; b ← to_float y; Ok (Float (mul a b))
  end.

(** An [int] against a [float], compared as real numbers. *)
Definition int_float_compare (z : Z) (f : float) : option comparison :=
  match f with
  | S754_nan => None
  | S754_infinity s => Some (if s then Gt else Lt)
  | S754_zero _ => Some (z ?= 0)
  | S754_finite s m e =>
      let v := cond_Zopp s (Z.pos m) in
      Some (if 0 <=? e then z ?= v * 2 ^ e else z * 2 ^ (- e) ?= v)
  end.

Definition num_compare (x y : number) : option comparison :=
  match x, y with
  | Int a, Int b => Some (a ?= b)
  | Float a, Float b => SFcompare a b
  | Int a, Float b => int_float_compare a b
  | Float a, Int b => CompOpp <$> int_float_compare b a
  end.

(** [x < y] and [x <= y]; both are false when a NaN is involved. *)
Definition num_ltb (x y : number) : bool :=
  match num_compare x y with Some Lt => true | _ => false end.

Definition num_leb (x y : number) : bool :=
  match num_compare x y with Some Lt | Some Eq => true | _ => false end.

(** ** The cost terms *)

Definition register_cost (hand : hand_label) (pitch : Z) : number :=
  match hand with
  | Left => if 60 <=? pitch then Float f0_8 else Int 0
  | Right => if pitch <? 60 then Float f0_8 else Int 0
  end.

(** [span_cost + finger_cost + register_cost + density_cost], added from
    the left. *)
Definition total_cost (span_cost : Z) (finger_cost register_cost density_cost : number)
    : result number :=
  s ← num_add (Int span_cost) finger_cost;
  s ← num_add s register_cost;
  num_add s density_cost.

(** ** The greedy engine, [assign_notes_to_hands] *)

(** Lines 59-74; [current_pitches] as in the exact reading. *)
Definition greedy_cost (hand : hand_label) (state : hand_state) (current_pitches : list Z)
    (pitch max_fingers allowed_spread : Z) : result number :=
  let new_min := if nonempty current_pitches then Z.min (min_pitch state) pitch else pitch in
  let new_max := if nonempty current_pitches then Z.max (max_pitch state) pitch else pitch in
  let new_span := new_max - new_min in
  let span_cost := Z.max 0 (new_span - allowed_spread) ^ 2 in
  let finger_cost :=
    if (max_fingers <=? fingers_used state)
       && negb (bool_decide (pitch mod 12 ∈ pitch_classes current_pitches))
    then Float f2_0 else Int 0 in
  density_cost ← num_mul (Float f0_2) (Int (len current_pitches));
  total_cost span_cost finger_cost (register_cost hand pitch) density_cost.

Record greedy_view := {
  pruned_left : list note;
  pruned_right : list note;
  cost_left : number;
  cost_right : number
}.

(** Lines 38-74 for one note. *)
Definition greedy_costs (st : greedy_state) (n : note) (max_fingers allowed_spread : Z)
    : result greedy_view :=
  let '(pitch, start, _, _) := n in
  let al := prune (active_left st) start in
  let pitches_left := map n0 al in
  let state_left := make_state pitches_left pitch in
  let ar := prune (active_right st) start in
  let pitches_right := map n0 ar in
  let state_right := make_state pitches_right pitch in
  let current_pitches := pitches_right in
  cl ← greedy_cost Left state_left current_pitches pitch max_fingers allowed_spread;
  cr ← greedy_cost Right state_right current_pitches pitch max_fingers allowed_spread;
  Ok {| pruned_left := al; pruned_right := ar; cost_left := cl; cost_right := cr |}.

(** Lines 77-90.  The second product is only computed when the first test
    fails. *)
Definition greedy_choice (cl cr : number) (n_left n_right : nat) : result hand_label :=
  t ← num_mul cr (Float f0_9);
  if num_ltb cl t then Ok Left
  else
    t' ← num_mul cl (Float f0_9);
    if num_ltb cr t' then Ok Right
    else if (n_right <? n_left)%nat then Ok Right
    else Ok Left.

Definition greedy_place (st : greedy_state) (v : greedy_view) (n : note) (h : hand_label)
    : greedy_state :=
  match h with
  | Left =>
      {| left_hand := left_hand st ++ [n];
         right_hand := right_hand st;
         active_left := pruned_left v ++ [n];
         active_right := pruned_right v |}
  | Right =>
      {| left_hand := left_hand st;
         right_hand := right_hand st ++ [n];
         active_left := pruned_left v;
         active_right := pruned_right v ++ [n] |}
  end.

Definition greedy_step (max_fingers allowed_spread : Z) (st : greedy_state) (n : note)
    : result greedy_state :=
  v ← greedy_costs st n max_fingers allowed_spread;
  h ← greedy_choice (cost_left v) (cost_right v)
                    (length (left_hand st)) (length (right_hand st));
  Ok (greedy_place st v n h).

(** The loop of line 35: an exception ends it. *)
Definition greedy_run (max_fingers allowed_spread : Z) (notes : list note)
    : result greedy_state :=
  fold_left (fun acc n => st ← acc; greedy_step max_fingers allowed_spread st n)
            notes (Ok greedy_init).

Definition assign_notes_to_hands (midi_data : PrettyMIDI.PrettyMIDI)
    (max_fingers allowed_spread : Z) : result (list note * list note) :=
  let notes := sort_notes (extract_notes midi_data) in
  st ← greedy_run max_fingers allowed_spread notes;
  Ok (left_hand st, right_hand st).

(** ** The cost function of the DP engine, [calculate_cost] *)

Definition calculate_cost (n : note) (hand : hand_label)
    (current_assignments : list (nat * hand_label * hand_label)) (previous_notes : list note)
    (max_fingers allowed_spread : Z) : result number :=
  let '(pitch, start, _, _) := n in
  let active_notes_pitch :=
    map n0 (assigned_hand_notes start hand current_assignments previous_notes) in
  let current_pitches := active_notes_pitch in
  let finger_positions := pitch_classes current_pitches in
  let state := make_state current_pitches pitch in
  let new_min := if nonempty current_pitches then Z.min (min_pitch state) pitch else pitch in
  let new_max := if nonempty current_pitches then Z.max (max_pitch state) pitch else pitch in
  let new_span := new_max - new_min in
  let span_cost := Z.max 0 (new_span - allowed_spread) ^ 2 in
  let finger_cost :=
    if (max_fingers <=? fingers_used state)
       && negb (bool_decide (pitch mod 12 ∈
                  (set_map (fun p => p mod 12) finger_positions : gset Z)))
    then Float f2_0 else Int 0 in
  density_cost ← num_mul (Float f0_2) (Int (len current_pitches));
  total_cost span_cost finger_cost (register_cost hand pitch) density_cost.

(** ** The DP engine, [dynamic_programming_assign_hands] *)

Record dp_row := { left_cost : number; right_cost : number }.

Definition row_get (r : dp_row) (h : hand_label) : number :=
  match h with Left => left_cost r | Right => right_cost r end.

Definition row_set (r : dp_row) (h : hand_label) (v : number) : dp_row :=
  match h with
  | Left => {| left_cost := v; right_cost := right_cost r |}
  | Right => {| left_cost := left_cost r; right_cost := v |}
  end.

Definition default_row : dp_row := {| left_cost := Float inf; right_cost := Float inf |}.

Definition defaultdict_get (dp : gmap Z dp_row) (i : Z) : dp_row * gmap Z dp_row :=
  match dp !! i with
  | Some r => (r, dp)
  | None => (default_row, <[i := default_row]> dp)
  end.

Record dp_state := {
  dp : gmap Z dp_row;
  hand_assignment : list (nat * hand_label * hand_label)
}.

(** Lines 133-140, one iteration of the loop over [prev_hand]. *)
Definition relax (i : nat) (hand : hand_label) (cost_to_assign_hand : number)
    (st : dp_state) (prev_hand : hand_label) : result dp_state :=
  let '(prev_row, dp1) := defaultdict_get (dp st) (Z.of_nat i - 1) in
  let prev_cost := row_get prev_row prev_hand in
  current_total_cost ← num_add prev_cost cost_to_assign_hand;
  let '(row_i, dp2) := defaultdict_get dp1 (Z.of_nat i) in
  if num_ltb current_total_cost (row_get row_i hand) then
    Ok {| dp := <[Z.of_nat i := row_set row_i hand current_total_cost]> dp2;
          hand_assignment := dict_set (i, hand) prev_hand (hand_assignment st) |}
  else
    Ok {| dp := dp2; hand_assignment := hand_assignment st |}.

(** Lines 129-140, one iteration of the loop over [hand]. *)
Definition dp_hand_step (notes : list note) (max_fingers allowed_spread : Z)
    (i : nat) (current_note : note) (st : dp_state) (hand : hand_label) : result dp_state :=
  cost_to_assign_hand ←
    calculate_cost current_note hand (hand_assignment st) (firstn i notes)
                   max_fingers allowed_spread;
  st ← relax i hand cost_to_assign_hand st Left;
  relax i hand cost_to_assign_hand st Right.

(** Lines 126-140, one iteration of the loop over [i]. *)
Definition dp_note_step (notes : list note) (max_fingers allowed_spread : Z)
    (acc : result dp_state) (i : nat) : result dp_state :=
  st ← acc;
  current_note ← from_option Ok (Raise IndexError) (notes !! i);
  st ← dp_hand_step notes max_fingers allowed_spread i current_note st Left;
  dp_hand_step notes max_fingers allowed_spread i current_note st Right.

Definition dp_init : dp_state :=
  {| dp := <[(-1) := {| left_cost := Int 0; right_cost := Int 0 |}]> ∅;
     hand_assignment := [] |}.

Definition dp_fill (notes : list note) (max_fingers allowed_spread : Z) : result dp_state :=
  fold_left (dp_note_step notes max_fingers allowed_spread)
            (seq 0 (length notes)) (Ok dp_init).

(** Lines 144-147. *)
Definition pick_final_hand (st : dp_state) (n_notes : nat) : hand_label :=
  let '(r1, dp1) := defaultdict_get (dp st) (Z.of_nat n_notes - 1) in
  let '(r2, _) := defaultdict_get dp1 (Z.of_nat n_notes - 1) in
  if num_leb (row_get r1 Left) (row_get r2 Right) then Left else Right.

(** Lines 152-154, one iteration of the backward loop. *)
Definition backtrack_step (hand_assignment : list (nat * hand_label * hand_label))
    (acc : result (hand_label * gmap nat hand_label)) (i : nat)
    : result (hand_label * gmap nat hand_label) :=
  '(final_hand, final_hand_assignments) ← acc;
  final_hand' ← from_option Ok (Raise KeyError) (dict_get (S i, final_hand) hand_assignment);
  Ok (final_hand', <[i := final_hand']> final_hand_assignments).

(** Lines 143-154. *)
Definition backtrack (st : dp_state) (n_notes : nat) : result (gmap nat hand_label) :=
  let final_hand := pick_final_hand st n_notes in
  snd <$> fold_left (backtrack_step (hand_assignment st))
                    (rev (seq 0 (n_notes - 1)))
                    (Ok (final_hand, <[(n_notes - 1)%nat := final_hand]> ∅)).

(** Lines 156-163. *)
Definition collect_step (notes : list note) (final_hand_assignments : gmap nat hand_label)
    (acc : result (list note * list note)) (i : nat) : result (list note * list note) :=
  '(left_hand_notes, right_hand_notes) ← acc;
  n ← from_option Ok (Raise IndexError) (notes !! i);
  h ← from_option Ok (Raise KeyError) (final_hand_assignments !! i);
  Ok (match h with
      | Left => (left_hand_notes ++ [n], right_hand_notes)
      | Right => (left_hand_notes, right_hand_notes ++ [n])
      end).

Definition collect (notes : list note) (final_hand_assignments : gmap nat hand_label)
    : result (list note * list note) :=
  fold_left (collect_step notes final_hand_assignments) (seq 0 (length notes)) (Ok ([], [])).

Record dp_outcome := {
  tables : option dp_state;
  returned : list note * list note
}.

Definition dp_engine (notes : list note) (max_fingers allowed_spread : Z) : result dp_outcome :=
  let n_notes := length notes in
  if (n_notes =? 0)%nat then Ok {| tables := None; returned := ([], []) |}
  else
    st ← dp_fill notes max_fingers allowed_spread;
    final_hand_assignments ← backtrack st n_notes;
    out ← collect notes final_hand_assignments;
    Ok {| tables := Some st; returned := out |}.

Definition dynamic_programming_assign_hands (midi_data : PrettyMIDI.PrettyMIDI)
    (max_fingers allowed_spread : Z) : result (list note * list note) :=
  returned <$> dp_engine (sort_notes (extract_notes midi_data)) max_fingers allowed_spread.

End Binary64.


(** ** Instrumentation for the binary64 engines *)

Module Binary64Spec.
Import Binary64.

(** What [binary_round_aux] builds from a rounded mantissa [m] at exponent
    [e]: zero, a finite number or, beyond the largest exponent, infinity. *)
Definition fin (s : bool) (m e : Z) : float :=
  match m with
  | Z0 => S754_zero s
  | Z.pos p => if e <=? emax - prec then S754_finite s p e else S754_infinity s
  | Z.neg _ => S754_nan
  end.

(** The same after the renormalisation of a mantissa that the rounding
    carried into a 54th bit. *)
Definition pack (s : bool) (m e : Z) : float :=
  if m <? 2 ^ 53 then fin s m e else fin s (2 ^ 52) (e + 1).

(** Not a NaN and not negative. *)
Definition nonneg (x : float) : Prop :=
  match x with
  | S754_zero _ => True
  | S754_infinity s => s = false
  | S754_finite s _ _ => s = false
  | S754_nan => False
  end.

(** [SFcompare] on such numbers is the lexicographic order of these keys:
    zero, then the finite numbers by exponent and mantissa, then infinity. *)
Definition fkey (x : float) : Z * Z * Z :=
  match x with
  | S754_zero _ => (0, 0, 0)
  | S754_finite _ m e => (1, e, Z.pos m)
  | S754_infinity _ => (2, 0, 0)
  | S754_nan => (3, 0, 0)
  end.

Definition lex3 (a b : Z * Z * Z) : comparison :=
  let '(a1, a2, a3) := a in
  let '(b1, b2, b3) := b in
  match a1 ?= b1 with
  | Eq => match a2 ?= b2 with Eq => a3 ?= b3 | c => c end
  | c => c
  end.

(** The floats the engines compute with: zero, [inf], or a positive finite
    number in canonical form. *)
Definition good (x : float) : Prop :=
  match x with
  | S754_zero _ => True
  | S754_infinity s => s = false
  | S754_finite s m e => s = false /\ bounded prec emax m e = true
  | S754_nan => False
  end.

Definition num_good (x : number) : Prop :=
  match x with
  | Int z => 0 <= z
  | Float f => good f
  end.

(** [x] is a finite float with [0 <= x <= N]. *)
Definition bounded_by (x : float) (N : Z) : Prop :=
  match x with
  | S754_zero _ => True
  | S754_finite false m e => e <= 0 /\ Z.pos m <= N * 2 ^ (- e)
  | _ => False
  end.

Definition num_bounded_by (x : number) (N : Z) : Prop :=
  match x with
  | Int z => 0 <= z <= N
  | Float f => bounded_by f N
  end.

(** Inputs on which the cost arithmetic stays among the integers that
    binary64 represents exactly: every pitch and the allowed spread lie
    within [P] of zero, and the costs of all the notes together stay below
    [2 ^ 53].  For a MIDI file, [P = 127] admits some ninety million
    notes. *)
Definition in_range (P : Z) (notes : list note) (allowed_spread : Z) : Prop :=
  Forall (fun n => - P <= n0 n <= P) notes
  /\ - P <= allowed_spread <= P
  /\ len notes * (9 * P ^ 2 + 3 + len notes) < 2 ^ 53.

Definition zero_row : dp_row := {| left_cost := Int 0; right_cost := Int 0 |}.

(** The predecessor the two [prev_hand] iterations leave behind when the
    two candidate totals are [tl] (from the left) and [tr]: the right one
    only when it is strictly smaller. *)
Definition chosen_prev (tl tr : number) : hand_label :=
  if num_ltb tr tl then Right else Left.

Definition pick_total (tl tr : number) (p : hand_label) : number :=
  match p with Left => tl | Right => tr end.

(** The recurrence at index [i], read off the tables: for either hand the
    note is priced once ([c]), the two candidates are the entries of the
    row before plus that cost, the stored predecessor is [chosen_prev] of
    them and the entry is the candidate it names. *)
Definition dp_entry_ok (notes : list note) (max_fingers allowed_spread : Z)
    (st : dp_state) (i : nat) : Prop :=
  exists cur a b r,
    notes !! i = Some cur
    /\ dp st !! (Z.of_nat i - 1) = Some {| left_cost := a; right_cost := b |}
    /\ dp st !! Z.of_nat i = Some r
    /\ forall hand, exists c tl tr,
         calculate_cost cur hand (hand_assignment st) (take i notes)
                        max_fingers allowed_spread = Ok c
         /\ num_add a c = Ok tl /\ num_add b c = Ok tr
         /\ (exists x y, tl = Float x /\ tr = Float y /\ nonneg x /\ nonneg y)
         /\ dict_get (i, hand) (hand_assignment st) = Some (chosen_prev tl tr)
         /\ row_get r hand = pick_total tl tr (chosen_prev tl tr).

(** The state of the tables after the first [k] notes, when no total has
    left the range: every entry of the last row is at most [k * C]. *)
Record dp_invariant (notes : list note) (max_fingers allowed_spread : Z) (C : Z)
    (k : nat) (st : dp_state) : Prop := {
  inv_base : dp st !! (-1) = Some zero_row;
  inv_later : forall j, (k <= j)%nat -> dp st !! Z.of_nat j = None;
  inv_keys : map fst (hand_assignment st) = keys_upto k;
  inv_entries : forall i, (i < k)%nat -> dp_entry_ok notes max_fingers allowed_spread st i;
  inv_bound : forall r, dp st !! (Z.of_nat k - 1) = Some r ->
              forall h, num_bounded_by (row_get r h) (Z.of_nat k * C)
}.

(** ** Statements about the finished DP tables *)




(** What the greedy engine does with one note, given the two costs it
    computed: the costs are floats [cl] and [cr], the step returns, and
    - the note is appended to the left list when [cl < cr * 0.9];
    - to the right list when [cr < cl * 0.9];
    - otherwise to the list that is shorter, the left one when they are
      equally long;
    - whatever notes follow, a run that goes on from there only appends to
      the two lists. *)
Definition decision_rule_at (max_fingers allowed_spread : Z) (st : greedy_state) (n : note)
    (v : greedy_view) : Prop :=
  exists (cl cr : float) (st' : greedy_state),
    cost_left v = Float cl /\ cost_right v = Float cr
    /\ greedy_step max_fingers allowed_spread st n = Ok st'
    /\ let to_left :=
         left_hand st' = left_hand st ++ [n] /\ right_hand st' = right_hand st in
       let to_right :=
         left_hand st' = left_hand st /\ right_hand st' = right_hand st ++ [n] in
       let below (x y : float) := SFltb x (mul y f0_9) = true in
       (below cl cr -> to_left)
       /\ (below cr cl -> to_right)
       /\ (~ below cl cr -> ~ below cr cl ->
           ((length (left_hand st) < length (right_hand st))%nat -> to_left)
           /\ ((length (right_hand st) < length (left_hand st))%nat -> to_right)
           /\ (length (left_hand st) = length (right_hand st) -> to_left))
       /\ (forall later final,
             fold_left (fun acc n => st ← acc; greedy_step max_fingers allowed_spread st n)
                       later (Ok st') = Ok final ->
             exists l r, left_hand final = left_hand st' ++ l
                         /\ right_hand final = right_hand st' ++ r).




End Binary64Spec.

(** * Properties *)

(** ** Preprocessing *)

Lemma insert_note_perm x l : Permutation (insert_note x l) (x :: l).
Proof.
  induction l as [|y l IH]; simpl; [reflexivity|].
  destruct (key_lt y x); [|reflexivity].
  rewrite IH. apply perm_swap.
Qed.

Lemma sort_notes_perm l : Permutation (sort_notes l) l.
Proof.
  induction l as [|x l IH]; simpl; [reflexivity|].
  rewrite insert_note_perm. now constructor.
Qed.

Lemma sort_notes_length l : length (sort_notes l) = length l.
Proof. apply Permutation_length, sort_notes_perm. Qed.

(** ** Arithmetic of the cost terms *)

Lemma inject_Z_nonneg z : 0 <= z -> (0 <= inject_Z z)%Q.
Proof. intros H. change 0%Q with (inject_Z 0). now rewrite <- Zle_Qle. Qed.


Lemma density_cost_nonneg {A} (l : list A) : (0 <= 0.2 * inject_Z (len l))%Q.
Proof.
  assert (0 <= inject_Z (len l))%Q by (apply inject_Z_nonneg; unfold len; lia).
  lra.
Qed.

(** ** The greedy pass *)

Lemma greedy_step_cases max_fingers allowed_spread st n :
  let st' := greedy_step max_fingers allowed_spread st n in
  (greedy_decide st n max_fingers allowed_spread = Left
   /\ left_hand st' = left_hand st ++ [n] /\ right_hand st' = right_hand st)
  \/ (greedy_decide st n max_fingers allowed_spread = Right
      /\ left_hand st' = left_hand st /\ right_hand st' = right_hand st ++ [n]).
Proof.
  unfold greedy_step.
  destruct (greedy_decide st n max_fingers allowed_spread); simpl; auto.
Qed.

Lemma greedy_fold_perm max_fingers allowed_spread notes st :
  let final := fold_left (greedy_step max_fingers allowed_spread) notes st in
  Permutation (left_hand final ++ right_hand final)
              ((left_hand st ++ right_hand st) ++ notes).
Proof.
  revert st. induction notes as [|n notes IH]; intros st; simpl.
  - now rewrite app_nil_r.
  - rewrite IH.
    destruct (greedy_step_cases max_fingers allowed_spread st n)
      as [(_ & El & Er)|(_ & El & Er)]; rewrite El, Er.
    + rewrite <- !app_assoc. apply Permutation_app_head.
      simpl. apply Permutation_middle.
    + rewrite <- !app_assoc. reflexivity.
Qed.

(** ** Insertion-ordered dictionaries *)

Section PyDictFacts.
Context {K V : Type} `{EqDecision K}.
Implicit Types (d e : list (K * V)) (k : K) (v : V).

Lemma dict_get_app k d e :
  dict_get k (d ++ e) = match dict_get k d with Some v => Some v | None => dict_get k e end.
Proof.
  induction d as [|[k' v'] d IH]; simpl; [reflexivity|].
  destruct (decide (k' = k)); [reflexivity|apply IH].
Qed.

Lemma dict_get_None_keys k d : dict_get k d = None <-> ~ In k (map fst d).
Proof.
  induction d as [|[k' v'] d IH]; simpl; [tauto|].
  destruct (decide (k' = k)) as [->|Hne]; [split; [discriminate|tauto]|].
  rewrite IH. tauto.
Qed.

Lemma dict_set_fresh k v d : dict_get k d = None -> dict_set k v d = d ++ [(k, v)].
Proof.
  induction d as [|[k' v'] d IH]; simpl; [reflexivity|].
  destruct (decide (k' = k)); [discriminate|].
  intros H. now rewrite IH.
Qed.

Lemma dict_set_last k v v' d :
  dict_get k d = None -> dict_set k v' (d ++ [(k, v)]) = d ++ [(k, v')].
Proof.
  induction d as [|[k0 v0] d IH]; simpl.
  - intros _. destruct (decide (k = k)); [reflexivity|congruence].
  - destruct (decide (k0 = k)); [discriminate|].
    intros H. now rewrite IH.
Qed.

End PyDictFacts.

(** ** Which earlier notes [calculate_cost] counts *)

Lemma assigned_hand_notes_app start hand d e previous_notes :
  assigned_hand_notes start hand (d ++ e) previous_notes
  = assigned_hand_notes start hand d previous_notes
    ++ assigned_hand_notes start hand e previous_notes.
Proof.
  induction d as [|[[j h] p] d IH]; simpl; [reflexivity|].
  rewrite IH.
  destruct (length previous_notes <=? j)%nat; [reflexivity|].
  destruct (decide (h = hand)); [|reflexivity].
  destruct (previous_notes !! j) as [x|]; [|reflexivity].
  destruct (Qlt_le_dec start (n2 x)); reflexivity.
Qed.

Lemma assigned_hand_notes_skip start hand e previous_notes :
  Forall (fun item => (length previous_notes <= fst (fst item))%nat) e ->
  assigned_hand_notes start hand e previous_notes = [].
Proof.
  induction 1 as [|[[j h] p] e Hj _ IH]; simpl in *; [reflexivity|].
  destruct (Nat.leb_spec (length previous_notes) j); [exact IH|lia].
Qed.

Lemma sounding_app start l1 l2 : sounding start (l1 ++ l2) = sounding start l1 ++ sounding start l2.
Proof. unfold sounding. apply List.filter_app. Qed.

(** When both keys of every index are present, the notes counted for
    either hand are all the earlier notes that are still sounding. *)
Lemma assigned_hand_notes_segment start hand previous_notes m : forall s items,
  map fst items = flat_map (fun j => [(j, Left); (j, Right)]) (seq s m) ->
  assigned_hand_notes start hand items previous_notes
  = sounding start (take m (drop s previous_notes)).
Proof.
  induction m as [|m IH]; intros s items Hkeys; simpl in Hkeys.
  - destruct items; [|discriminate]. reflexivity.
  - destruct items as [|[[j1 h1] p1] [|[[j2 h2] p2] items]]; try discriminate.
    simpl in Hkeys. injection Hkeys as -> -> -> -> Hrest.
    simpl. rewrite (IH _ _ Hrest).
    destruct (Nat.leb_spec (length previous_notes) s) as [Hle|Hlt].
    + rewrite (drop_ge previous_notes s) by exact Hle.
      rewrite (drop_ge previous_notes (S s)) by lia. now rewrite !take_nil.
    + destruct (lookup_lt_is_Some_2 previous_notes s Hlt) as [x Hx].
      rewrite Hx, (drop_S _ _ _ Hx). simpl.
      destruct hand; simpl; destruct (Qlt_le_dec start (n2 x)); reflexivity.
Qed.

Lemma assigned_hand_notes_all start hand items previous_notes k :
  map fst items = keys_upto k -> (length previous_notes <= k)%nat ->
  assigned_hand_notes start hand items previous_notes = sounding start previous_notes.
Proof.
  intros Hkeys Hlen.
  rewrite (assigned_hand_notes_segment start hand previous_notes k 0 items Hkeys).
  rewrite drop_0, take_ge by exact Hlen. reflexivity.
Qed.

Lemma keys_upto_S k : keys_upto (S k) = keys_upto k ++ [(k, Left); (k, Right)].
Proof.
  unfold keys_upto. rewrite seq_S, flat_map_app. simpl. reflexivity.
Qed.

Lemma in_keys_upto j h k : In (j, h) (keys_upto k) <-> (j < k)%nat.
Proof.
  unfold keys_upto. rewrite in_flat_map. split.
  - intros (x & Hx & Hin). apply in_seq in Hx.
    simpl in Hin. destruct Hin as [E|[E|[]]]; inversion E; subst; lia.
  - intros Hlt. exists j. split; [apply in_seq; lia|].
    destruct h; simpl; auto.
Qed.

Lemma keys_upto_fresh (items : list (nat * hand_label * hand_label)) k j h :
  map fst items = keys_upto k -> (k <= j)%nat -> dict_get (j, h) items = None.
Proof.
  intros Hkeys Hle. apply dict_get_None_keys. rewrite Hkeys, in_keys_upto. lia.
Qed.

Lemma keys_upto_present (items : list (nat * hand_label * hand_label)) k j h :
  map fst items = keys_upto k -> (j < k)%nat -> is_Some (dict_get (j, h) items).
Proof.
  intros Hkeys Hlt.
  destruct (dict_get (j, h) items) eqn:E; [eauto|].
  apply dict_get_None_keys in E. rewrite Hkeys, in_keys_upto in E. lia.
Qed.

(** ** The DP table: walking back and assembling the output *)

Lemma labelled_perm_prefix notes (fha : gmap nat hand_label) k :
  (k <= length notes)%nat ->
  (forall i, (i < k)%nat -> is_Some (fha !! i)) ->
  Permutation (flat_map (label_pick Left notes fha) (seq 0 k)
               ++ flat_map (label_pick Right notes fha) (seq 0 k))
              (take k notes).
Proof.
  induction k as [|k IH]; intros Hk Hall; [reflexivity|].
  destruct (lookup_lt_is_Some_2 notes k) as [x Hx]; [lia|].
  destruct (Hall k) as [h Hh]; [lia|].
  rewrite seq_S, !flat_map_app, (take_S_r _ _ _ Hx). simpl.
  unfold label_pick at 2 4. rewrite Hx, Hh. rewrite <- IH by (auto; lia).
  destruct h; simpl; rewrite !app_nil_r.
  - rewrite <- !app_assoc. apply Permutation_app_head. apply Permutation_app_comm.
  - now rewrite app_assoc.
Qed.

Lemma notes_labelled_perm notes (fha : gmap nat hand_label) :
  (forall i, (i < length notes)%nat -> is_Some (fha !! i)) ->
  Permutation (notes_labelled Left notes fha ++ notes_labelled Right notes fha) notes.
Proof.
  intros Hall. unfold notes_labelled.
  rewrite (labelled_perm_prefix notes fha (length notes)) by (auto; lia).
  now rewrite firstn_all.
Qed.

(** ** Partitions *)


Lemma greedy_partition midi_data max_fingers allowed_spread :
  let out := assign_notes_to_hands midi_data max_fingers allowed_spread in
  Permutation (fst out ++ snd out) (extract_notes midi_data).
Proof.
  unfold assign_notes_to_hands, greedy_run. simpl.
  rewrite greedy_fold_perm. simpl. apply sort_notes_perm.
Qed.

Lemma length_pos_of_ne {A} (l : list A) : l <> [] -> (0 < length l)%nat.
Proof. destruct l; [congruence|simpl; lia]. Qed.

(** ** Claims about the empty input *)

(** C9. Empty input.  When the file holds no note, the greedy engine
    returns two empty lists, and so does the DP engine, which returns before
    creating [dp] and [hand_assignment]: no table is built. *)
Theorem C9_empty_input :
  forall (midi_data : PrettyMIDI.PrettyMIDI) (max_fingers allowed_spread : Z),
    extract_notes midi_data = [] ->
    assign_notes_to_hands midi_data max_fingers allowed_spread = ([], [])
    /\ dynamic_programming_assign_hands midi_data max_fingers allowed_spread = Some ([], [])
    /\ dp_engine (sort_notes (extract_notes midi_data)) max_fingers allowed_spread
       = Some {| tables := None; returned := ([], []) |}.
Proof.
  intros midi_data max_fingers allowed_spread H.
  unfold assign_notes_to_hands, dynamic_programming_assign_hands.
  rewrite H. repeat split.
Qed.

Lemma C9_empty_input_witness :
  extract_notes {| PrettyMIDI.instruments := [ {| PrettyMIDI.notes := [] |} ] |} = []
  /\ (assign_notes_to_hands {| PrettyMIDI.instruments := [ {| PrettyMIDI.notes := [] |} ] |} 5 8
      = ([], [])
      /\ dynamic_programming_assign_hands
           {| PrettyMIDI.instruments := [ {| PrettyMIDI.notes := [] |} ] |} 5 8
         = Some ([], [])
      /\ dp_engine (sort_notes (extract_notes
                      {| PrettyMIDI.instruments := [ {| PrettyMIDI.notes := [] |} ] |})) 5 8
         = Some {| tables := None; returned := ([], []) |}).
Proof.
  split; [reflexivity|].
  apply (C9_empty_input {| PrettyMIDI.instruments := [ {| PrettyMIDI.notes := [] |} ] |} 5 8).
  reflexivity.
Defined.

(** ** Register pressure in the greedy pass *)

Lemma pitch_classes_size_le (l : list Z) : (size (pitch_classes l) <= length l)%nat.
Proof.
  unfold pitch_classes. rewrite <- (length_map (fun p => p mod 12) l).
  induction (map (fun p => p mod 12) l) as [|x xs IH].
  - now rewrite list_to_set_nil, size_empty.
  - rewrite list_to_set_cons, size_union_alt, size_singleton. simpl.
    pose proof (subseteq_size (list_to_set xs ∖ {[x]} : gset Z) (list_to_set xs)) as Hle.
    assert (Hsub : (list_to_set xs ∖ {[x]} : gset Z) ⊆ list_to_set xs).
    { intros y Hy. apply elem_of_difference in Hy. tauto. }
    specialize (Hle Hsub). lia.
Qed.

Lemma fold_min_bounds lo hi (l : list Z) : forall x,
  lo <= x <= hi -> Forall (fun p => lo <= p <= hi) l -> lo <= fold_left Z.min l x <= hi.
Proof.
  induction l as [|y l IH]; intros x Hx Hl; simpl; [exact Hx|].
  inversion Hl; subst. apply IH; [lia|assumption].
Qed.

Lemma fold_max_bounds lo hi (l : list Z) : forall x,
  lo <= x <= hi -> Forall (fun p => lo <= p <= hi) l -> lo <= fold_left Z.max l x <= hi.
Proof.
  induction l as [|y l IH]; intros x Hx Hl; simpl; [exact Hx|].
  inversion Hl; subst. apply IH; [lia|assumption].
Qed.

Lemma py_min_bounds lo hi l d :
  lo <= d <= hi -> Forall (fun p => lo <= p <= hi) l -> lo <= py_min l d <= hi.
Proof.
  intros Hd Hl. destruct l as [|x l]; simpl; [exact Hd|].
  inversion Hl; subst. now apply fold_min_bounds.
Qed.

Lemma py_max_bounds lo hi l d :
  lo <= d <= hi -> Forall (fun p => lo <= p <= hi) l -> lo <= py_max l d <= hi.
Proof.
  intros Hd Hl. destruct l as [|x l]; simpl; [exact Hd|].
  inversion Hl; subst. now apply fold_max_bounds.
Qed.

Lemma prune_length active start : (length (prune active start) <= length active)%nat.
Proof. unfold prune. apply List.filter_length_le. Qed.

Lemma prune_Forall (P : note -> Prop) active start :
  Forall P active -> Forall P (prune active start).
Proof.
  unfold prune. rewrite !List.Forall_forall. intros H x Hx.
  apply List.filter_In in Hx. apply H, Hx.
Qed.

Lemma span_cost_zero new_span allowed_spread :
  new_span <= allowed_spread -> Z.max 0 (new_span - allowed_spread) ^ 2 = 0.
Proof. intros H. rewrite Z.max_l by lia. reflexivity. Qed.



(** ** The notes still sounding *)


(** ** The cost formula *)

Lemma fold_left_min_right (xs : list Z) : forall acc p,
  Z.min (fold_left Z.min xs acc) p = Z.min acc (fold_right Z.min p xs).
Proof.
  induction xs as [|y xs IH]; intros acc p; simpl; [reflexivity|].
  rewrite IH. now rewrite Z.min_assoc.
Qed.

Lemma fold_left_max_right (xs : list Z) : forall acc p,
  Z.max (fold_left Z.max xs acc) p = Z.max acc (fold_right Z.max p xs).
Proof.
  induction xs as [|y xs IH]; intros acc p; simpl; [reflexivity|].
  rewrite IH. now rewrite Z.max_assoc.
Qed.

Lemma new_span_spec (current_pitches : list Z) (pitch : Z) :
  (if nonempty current_pitches then Z.max (py_max current_pitches pitch) pitch else pitch)
  - (if nonempty current_pitches then Z.min (py_min current_pitches pitch) pitch else pitch)
  = match current_pitches with
    | [] => 0
    | _ => fold_right Z.max pitch current_pitches - fold_right Z.min pitch current_pitches
    end.
Proof.
  destruct current_pitches as [|x xs]; simpl; [lia|].
  now rewrite fold_left_min_right, fold_left_max_right.
Qed.

Lemma pitch_classes_mod (l : list Z) (y : Z) : y ∈ pitch_classes l -> y mod 12 = y.
Proof.
  unfold pitch_classes. rewrite elem_of_list_to_set, list_elem_of_In, in_map_iff.
  intros (q & <- & _). apply Z.mod_mod. lia.
Qed.

Lemma pitch_classes_twice (l : list Z) (x : Z) :
  bool_decide (x ∈ (set_map (fun p => p mod 12) (pitch_classes l) : gset Z))
  = bool_decide (x ∈ pitch_classes l).
Proof.
  apply bool_decide_ext. rewrite elem_of_map. split.
  - intros (y & -> & Hy). now rewrite (pitch_classes_mod l y Hy).
  - intros Hx. exists x. split; [|exact Hx]. symmetry. now apply (pitch_classes_mod l).
Qed.

(** [calculate_cost] is the formula of the specification over the pitches
    of the notes it collected for the hand. *)
Lemma calculate_cost_spec n hand items previous_notes max_fingers allowed_spread :
  calculate_cost n hand items previous_notes max_fingers allowed_spread
  = spec_cost hand (map n0 (assigned_hand_notes (n1 n) hand items previous_notes))
              (n0 n) max_fingers allowed_spread.
Proof.
  destruct n as [[[pitch start] e] velocity]. unfold calculate_cost, spec_cost. simpl n1. simpl n0.
  set (cp := map n0 _).
  cbv zeta. simpl min_pitch. simpl max_pitch. simpl fingers_used.
  rewrite new_span_spec, pitch_classes_twice. reflexivity.
Qed.

(** In the greedy pass the right hand's cost is the formula over the right
    hand's own active notes. *)
Lemma greedy_cost_right_spec st n max_fingers allowed_spread :
  let v := greedy_costs st n max_fingers allowed_spread in
  cost_right v = spec_cost Right (map n0 (pruned_right v)) (n0 n) max_fingers allowed_spread.
Proof.
  destruct n as [[[pitch start] e] velocity]. unfold greedy_costs, spec_cost. simpl.
  unfold greedy_cost. simpl min_pitch. simpl max_pitch. simpl fingers_used.
  rewrite new_span_spec. reflexivity.
Qed.

(** What the greedy pass keeps as active: the notes with [n[3] > start]. *)
Lemma prune_In active start x :
  In x (prune active start) <-> In x active /\ (start < inject_Z (n3 x))%Q.
Proof.
  unfold prune. rewrite List.filter_In.
  destruct (Qlt_le_dec start (inject_Z (n3 x))) as [H|H]; split; intros [H1 H2]; split; auto.
  - discriminate.
  - exfalso. lra.
Qed.

(** ** Where the greedy pass departs from the specification *)

(** C1. The active set of the greedy pass.  The DP cost function keeps the
    notes whose end ([n[2]]) is after the onset ([history_at_evaluation]),
    but the greedy pass filters on [n[3]], the velocity ([prune_In]).  On [stale_note_demo] the middle C has
    ended (offset 0.5) when the second note starts (onset 1), yet it is kept
    as active in the right hand because its velocity 100 exceeds 1, and the
    second note, pitch 80, is sent to the left hand.  On [silent_note_demo]
    the first note is still sounding (offset 10) when the second starts, yet
    it is dropped because its velocity is 0. *)
Theorem C1_greedy_active_set_reads_velocity :
  let a : note := (60, 0%Q, 0.5%Q, 100) in
  let b : note := (80, 1%Q, 1.5%Q, 100) in
  let c : note := (64, 0%Q, 10%Q, 0) in
  let d : note := (66, 1%Q, 2%Q, 100) in
  (sort_notes (extract_notes stale_note_demo) = [a; b]
   /\ right_hand (greedy_run 5 8 [a]) = [a]
   /\ sounding (n1 b) (right_hand (greedy_run 5 8 [a])) = []
   /\ pruned_right (greedy_costs (greedy_run 5 8 [a]) b 5 8) = [a]
   /\ assign_notes_to_hands stale_note_demo 5 8 = ([b], [a]))
  /\ (sort_notes (extract_notes silent_note_demo) = [c; d]
      /\ right_hand (greedy_run 5 8 [c]) = [c]
      /\ sounding (n1 d) (right_hand (greedy_run 5 8 [c])) = [c]
      /\ pruned_right (greedy_costs (greedy_run 5 8 [c]) d 5 8) = []).
Proof. vm_compute. repeat split. Qed.

(** C2. The cost of the greedy pass.  [calculate_cost] is the formula of
    the specification ([calculate_cost_spec]) and so is the greedy cost of
    the right hand ([greedy_cost_right_spec]); the greedy cost of the left
    hand reads [current_pitches], which holds the right hand's pitches.  On
    [overlap_demo], when the second note is priced the left hand has no
    active note and the right hand has one: the formula gives the left hand
    0.8 (register only), the code computes 1.0 (density 0.2 for the right
    hand's note). *)
Theorem C2_greedy_left_cost_reads_right_hand :
  let a : note := (64, 0%Q, 2%Q, 100) in
  let b : note := (66, 1%Q, 3%Q, 100) in
  let v := greedy_costs (greedy_run 5 8 [a]) b 5 8 in
  sort_notes (extract_notes overlap_demo) = [a; b]
  /\ pruned_left v = []
  /\ pruned_right v = [a]
  /\ (cost_left v == 1.0)%Q
  /\ (spec_cost Left (map n0 (pruned_left v)) (n0 b) 5 8 == 0.8)%Q
  /\ (cost_right v == spec_cost Right (map n0 (pruned_right v)) (n0 b) 5 8)%Q.
Proof. vm_compute. repeat split. Qed.

(** ** Where the DP engine departs from the specification *)

(** C6. DP cost against greedy cost.  On [two_note_demo] the greedy pass
    puts the high note in the right hand and the low note in the left one;
    the costs it computed for its choices add up to 0.2, and its labelling
    costs 0 under [calculate_cost].  The DP engine counts the first note as
    active in both hands when it prices the second one, and the minimal
    cost it reports is 256.2. *)
Theorem C6_dp_cost_exceeds_greedy_cost :
  let notes := sort_notes (extract_notes two_note_demo) in
  exists (st : dp_state) (reported : Q),
    dp_fill notes 5 8 = Some st
    /\ final_cost st (length notes) = Finite reported
    /\ row_get (default default_row (dp st !! (Z.of_nat (length notes) - 1)))
               (fst (pick_final_hand st (length notes)))
       = Finite reported
    /\ (reported == 256.2)%Q
    /\ assign_notes_to_hands two_note_demo 5 8
       = ([(40, 1%Q, 3%Q, 100)], [(64, 0%Q, 2%Q, 100)])
    /\ greedy_labels 5 8 notes = [Right; Left]
    /\ (greedy_total_cost 5 8 notes == 0.2)%Q
    /\ (labelling_cost notes (greedy_labels 5 8 notes) 5 8 == 0)%Q
    /\ (greedy_total_cost 5 8 notes < reported)%Q
    /\ (labelling_cost notes (greedy_labels 5 8 notes) 5 8 < reported)%Q.
Proof.
  cbv zeta. eexists. eexists.
  split; [vm_compute; reflexivity|].
  split; [vm_compute; reflexivity|].
  split; [vm_compute; reflexivity|].
  vm_compute. repeat split.
Qed.

(** ** Sublists *)


(** ** Spread enforcement *)

(** With C4 (60) and C5 (72) active in a hand, a new note at pitch 61 spans
    12 semitones with them: under the default spread of 8 the span term is
    [(12 - 8)^2 = 16], and [calculate_cost] returns 16 plus the register
    term and the density [0.2 * 2]. *)
Theorem spread_enforcement_example :
  let previous_notes : list note := [(60, 0%Q, 5%Q, 100); (72, 0%Q, 5%Q, 100)] in
  let assignments := [(0%nat, Right, Left); (1%nat, Right, Left)] in
  let n : note := (61, 1%Q, 2%Q, 100) in
  map n0 (assigned_hand_notes (n1 n) Right assignments previous_notes) = [60; 72]
  /\ (calculate_cost n Right assignments previous_notes 5%Z 8%Z == 16 + 0.4)%Q
  /\ (spec_cost Right [60; 72]%Z 61%Z 5%Z 8%Z == 16 + 0.4)%Q
  /\ (spec_cost Left [60; 72]%Z 61%Z 5%Z 8%Z == 16 + 0.8 + 0.4)%Q.
Proof. vm_compute. repeat split. Qed.

(** ** The sort of the preprocessing step *)

Lemma key_lt_spec x y :
  key_lt x y = true <-> (n1 x < n1 y)%Q \/ ((n1 x == n1 y)%Q /\ n0 x < n0 y).
Proof.
  unfold key_lt. destruct (Qcompare_spec (n1 x) (n1 y)) as [E|L|G].
  - rewrite Z.ltb_lt. split; [intros H; right; split; assumption|].
    intros [H|[_ H]]; [exfalso; lra|exact H].
  - split; [intros _; left; exact L|reflexivity].
  - split; [discriminate|]. intros [H|[H _]]; exfalso; lra.
Qed.

Lemma key_le_spec x y :
  key_le x y <-> (n1 x < n1 y)%Q \/ ((n1 x == n1 y)%Q /\ n0 x <= n0 y).
Proof.
  unfold key_le. rewrite <- Bool.not_true_iff_false, key_lt_spec.
  destruct (Qcompare_spec (n1 x) (n1 y)) as [E|L|G].
  - split.
    + intros H. right. split; [exact E|].
      destruct (Z_le_gt_dec (n0 x) (n0 y)) as [Hle|Hgt]; [exact Hle|].
      exfalso. apply H. right. split; [symmetry; exact E|lia].
    + intros [H|[_ H]]; [exfalso; lra|]. intros [H'|[_ H']]; [lra|lia].
  - split; [intros _; left; exact L|]. intros _ [H|[H _]]; lra.
  - split.
    + intros H. exfalso. apply H. left. exact G.
    + intros [H|[H _]]; exfalso; lra.
Qed.

Lemma key_le_trans x y z : key_le x y -> key_le y z -> key_le x z.
Proof.
  rewrite !key_le_spec. intros [H1|[E1 H1]] [H2|[E2 H2]].
  - left. lra.
  - left. lra.
  - left. lra.
  - right. split; [lra|lia].
Qed.

Lemma key_lt_le x y : key_lt x y = true -> key_le x y.
Proof.
  rewrite key_lt_spec, key_le_spec. intros [H|[E H]]; [left; exact H|right; split; [exact E|lia]].
Qed.

Lemma insert_note_sorted x l :
  StronglySorted key_le l -> StronglySorted key_le (insert_note x l).
Proof.
  induction 1 as [|y l Hs IH Hall]; simpl.
  - constructor; constructor.
  - destruct (key_lt y x) eqn:E.
    + constructor; [exact IH|].
      rewrite List.Forall_forall in Hall |- *. intros z Hz.
      apply (Permutation_in _ (insert_note_perm x l)) in Hz.
      destruct Hz as [<-|Hz]; [now apply key_lt_le|now apply Hall].
    + constructor; [now constructor|].
      constructor; [exact E|].
      rewrite List.Forall_forall in Hall |- *. intros z Hz.
      apply (key_le_trans x y z); [exact E|now apply Hall].
Qed.

Lemma same_key_not_lt k x y : same_key k x = true -> same_key k y = true -> key_lt y x = false.
Proof.
  unfold same_key. rewrite !andb_true_iff, !Qeq_bool_iff, !Z.eqb_eq.
  intros [E1 P1] [E2 P2]. apply Bool.not_true_iff_false. rewrite key_lt_spec.
  intros [H|[_ H]]; [lra|lia].
Qed.

Lemma insert_note_stable k x l :
  List.filter (same_key k) (insert_note x l) = List.filter (same_key k) (x :: l).
Proof.
  induction l as [|y l IH]; [reflexivity|].
  simpl insert_note. destruct (key_lt y x) eqn:E; [|reflexivity].
  simpl in *. rewrite IH.
  destruct (same_key k y) eqn:Ky, (same_key k x) eqn:Kx; try reflexivity.
  rewrite (same_key_not_lt k x y Kx Ky) in E. discriminate.
Qed.

(** The list both engines work on is the stable sort of the extracted
    notes by [(start, pitch)]: a rearrangement of them, ascending in the
    key, in which notes of equal key keep their input order. *)
Theorem sort_notes_is_stable_sort :
  forall l : list note,
    Permutation (sort_notes l) l
    /\ StronglySorted key_le (sort_notes l)
    /\ (forall k, List.filter (same_key k) (sort_notes l) = List.filter (same_key k) l).
Proof.
  intros l. split; [apply sort_notes_perm|]. split.
  - induction l as [|x l IH]; simpl; [constructor|now apply insert_note_sorted].
  - intros k. induction l as [|x l IH]; [reflexivity|].
    simpl sort_notes. rewrite insert_note_stable. simpl. now rewrite IH.
Qed.

(** * Further properties of the engines *)

(** ** Bounds on the cost *)

Lemma fold_right_max_ge (p : Z) (l : list Z) (x : Z) :
  In x (p :: l) -> x <= fold_right Z.max p l.
Proof.
  induction l as [|y l IH]; simpl.
  - intros [<-|[]]. lia.
  - intros [<-|[<-|H]]; [|lia|].
    + specialize (IH (or_introl eq_refl)). lia.
    + specialize (IH (or_intror H)). lia.
Qed.

Lemma fold_right_min_le (p : Z) (l : list Z) (x : Z) :
  In x (p :: l) -> fold_right Z.min p l <= x.
Proof.
  induction l as [|y l IH]; simpl.
  - intros [<-|[]]. lia.
  - intros [<-|[<-|H]]; [|lia|].
    + specialize (IH (or_introl eq_refl)). lia.
    + specialize (IH (or_intror H)). lia.
Qed.

Lemma inject_Z_le (a b : Z) : a <= b -> (inject_Z a <= inject_Z b)%Q.
Proof. intros H. now rewrite <- Zle_Qle. Qed.

Lemma finger_cost_nonneg (b : bool) : (0 <= (if b then 2.0 else 0))%Q.
Proof. destruct b; lra. Qed.

(** The four terms of a cost, with the finger condition and the register
    and density terms abstracted. *)
Lemma cost_terms_antitone (s k mf mf' sp sp' : Z) (m : bool) (r d : Q) :
  mf <= mf' -> sp <= sp' ->
  (inject_Z (Z.max 0 (s - sp') ^ 2) + (if (mf' <=? k) && m then 2.0 else 0) + r + d
   <= inject_Z (Z.max 0 (s - sp) ^ 2) + (if (mf <=? k) && m then 2.0 else 0) + r + d)%Q.
Proof.
  intros Hmf Hsp.
  assert (Hs : (inject_Z (Z.max 0 (s - sp') ^ 2) <= inject_Z (Z.max 0 (s - sp) ^ 2))%Q).
  { apply inject_Z_le. apply Z.pow_le_mono_l. lia. }
  assert (Hf : ((if (mf' <=? k) && m then 2.0 else 0)
                <= (if (mf <=? k) && m then 2.0 else 0))%Q).
  { destruct (Z.leb_spec mf' k), (Z.leb_spec mf k), m; simpl; try lra; lia. }
  lra.
Qed.


(** Spread enforcement.  Whenever two pitches among the hand's active
    notes and the new note lie further apart than [allowed_spread], giving
    the note to that hand costs at least the square of the excess. *)
Theorem calculate_cost_spread_bound :
  forall (n : note) (hand : hand_label) (items : list (nat * hand_label * hand_label))
         (previous_notes : list note) (max_fingers allowed_spread a b : Z),
    let pitches :=
      n0 n :: map n0 (assigned_hand_notes (n1 n) hand items previous_notes) in
    In a pitches -> In b pitches ->
    allowed_spread < a - b ->
    (inject_Z ((a - b - allowed_spread) ^ 2)
     <= calculate_cost n hand items previous_notes max_fingers allowed_spread)%Q.
Proof.
  intros n hand items previous_notes max_fingers allowed_spread a b pitches Ha Hb Hgap.
  rewrite calculate_cost_spec. unfold spec_cost.
  set (ap := map n0 _) in *.
  assert (Hspan : a - b <= match ap with
                           | [] => 0
                           | _ :: _ => fold_right Z.max (n0 n) ap - fold_right Z.min (n0 n) ap
                           end).
  { destruct ap as [|y ap'] eqn:E.
    - destruct Ha as [<-|[]], Hb as [<-|[]]. lia.
    - pose proof (fold_right_max_ge (n0 n) (y :: ap') a Ha).
      pose proof (fold_right_min_le (n0 n) (y :: ap') b Hb). lia. }
  match goal with
  | |- (_ <= inject_Z (Z.max 0 ?x ^ 2) + (if ?c then _ else _) + ?r + ?d)%Q =>
      assert (Hs : (inject_Z ((a - b - allowed_spread) ^ 2) <= inject_Z (Z.max 0 x ^ 2))%Q)
        by (apply inject_Z_le, Z.pow_le_mono_l; lia);
      pose proof (finger_cost_nonneg c) as Hf;
      assert (Hr : (0 <= r)%Q);
      [|assert (Hd : (0 <= d)%Q) by apply density_cost_nonneg]
  end.
  { destruct hand; [destruct (60 <=? n0 n)|destruct (n0 n <? 60)]; lra. }
  lra.
Qed.

Lemma calculate_cost_spread_bound_witness :
  let n : note := (61, 1%Q, 2%Q, 100) in
  let previous_notes : list note := [(60, 0%Q, 5%Q, 100); (72, 0%Q, 5%Q, 100)] in
  let items := [(0%nat, Right, Left); (1%nat, Right, Left)] in
  In 72 (n0 n :: map n0 (assigned_hand_notes (n1 n) Right items previous_notes))
  /\ In 60 (n0 n :: map n0 (assigned_hand_notes (n1 n) Right items previous_notes))
  /\ 8 < 72 - 60
  /\ (inject_Z ((72 - 60 - 8) ^ 2) <= calculate_cost n Right items previous_notes 5 8)%Q.
Proof.
  cbv zeta.
  assert (Ha : In 72 (n0 (61, 1%Q, 2%Q, 100)
                      :: map n0 (assigned_hand_notes (n1 (61, 1%Q, 2%Q, 100)) Right
                                   [(0%nat, Right, Left); (1%nat, Right, Left)]
                                   [(60, 0%Q, 5%Q, 100); (72, 0%Q, 5%Q, 100)])))
    by (vm_compute; auto).
  assert (Hb : In 60 (n0 (61, 1%Q, 2%Q, 100)
                      :: map n0 (assigned_hand_notes (n1 (61, 1%Q, 2%Q, 100)) Right
                                   [(0%nat, Right, Left); (1%nat, Right, Left)]
                                   [(60, 0%Q, 5%Q, 100); (72, 0%Q, 5%Q, 100)])))
    by (vm_compute; auto).
  assert (Hg : 8 < 72 - 60) by lia.
  split; [exact Ha|]. split; [exact Hb|]. split; [exact Hg|].
  exact (calculate_cost_spread_bound (61, 1%Q, 2%Q, 100) Right
           [(0%nat, Right, Left); (1%nat, Right, Left)]
           [(60, 0%Q, 5%Q, 100); (72, 0%Q, 5%Q, 100)] 5 8 72 60 Ha Hb Hg).
Defined.

(** Loosening the configuration never raises a cost: with a larger
    [max_fingers] and a larger [allowed_spread] the cost of the same
    assignment is at most what it was. *)
Theorem calculate_cost_antitone :
  forall (n : note) (hand : hand_label) (items : list (nat * hand_label * hand_label))
         (previous_notes : list note) (max_fingers max_fingers' allowed_spread allowed_spread' : Z),
    max_fingers <= max_fingers' ->
    allowed_spread <= allowed_spread' ->
    (calculate_cost n hand items previous_notes max_fingers' allowed_spread'
     <= calculate_cost n hand items previous_notes max_fingers allowed_spread)%Q.
Proof.
  intros n hand items previous_notes mf mf' sp sp' Hmf Hsp.
  rewrite !calculate_cost_spec. unfold spec_cost.
  apply cost_terms_antitone; assumption.
Qed.

Lemma calculate_cost_antitone_witness :
  let n : note := (61, 1%Q, 2%Q, 100) in
  let previous_notes : list note := [(60, 0%Q, 5%Q, 100); (72, 0%Q, 5%Q, 100)] in
  let items := [(0%nat, Right, Left); (1%nat, Right, Left)] in
  5 <= 6 /\ 8 <= 12
  /\ (calculate_cost n Right items previous_notes 6 12
      <= calculate_cost n Right items previous_notes 5 8)%Q.
Proof.
  cbv zeta.
  assert (H1 : 5 <= 6) by lia. assert (H2 : 8 <= 12) by lia.
  split; [exact H1|]. split; [exact H2|].
  exact (calculate_cost_antitone (61, 1%Q, 2%Q, 100) Right
           [(0%nat, Right, Left); (1%nat, Right, Left)]
           [(60, 0%Q, 5%Q, 100); (72, 0%Q, 5%Q, 100)] 5 6 8 12 H1 H2).
Defined.

(** ** The greedy pass: isolated notes, active lists, end times *)

(** A note that finds no active note in the right hand, and fewer active
    notes in the left hand than [max_fingers], is placed by its register
    alone: left below middle C, right from middle C up.  This is the case
    of the first note of every input. *)
Theorem greedy_isolated_note_by_register :
  forall (max_fingers allowed_spread : Z) (st : greedy_state)
         (pitch : Z) (start e : Q) (velocity : Z),
    0 < max_fingers -> 0 <= allowed_spread ->
    prune (active_right st) start = [] ->
    len (prune (active_left st) start) < max_fingers ->
    greedy_decide st (pitch, start, e, velocity) max_fingers allowed_spread
    = if pitch <? 60 then Left else Right.
Proof.
  intros mf sp st pitch start e velocity Hmf Hsp Hright Hleft.
  unfold greedy_decide, greedy_costs. cbv zeta. rewrite Hright.
  set (al := prune (active_left st) start) in *.
  simpl map. unfold cost_left, cost_right, greedy_cost.
  assert (E1 : (mf <=? fingers_used (make_state (map n0 al) pitch)) = false).
  { apply Z.leb_gt. simpl.
    pose proof (pitch_classes_size_le (map n0 al)) as Hsz.
    rewrite length_map in Hsz. unfold len in Hleft. lia. }
  assert (E2 : (mf <=? fingers_used (make_state [] pitch)) = false).
  { assert (F0 : fingers_used (make_state [] pitch) = 0) by reflexivity.
    rewrite F0. apply Z.leb_gt. lia. }
  rewrite E1, E2. simpl andb. cbv iota. simpl nonempty. cbv iota.
  rewrite !(span_cost_zero (pitch - pitch) sp) by lia.
  change (inject_Z 0) with 0%Q. change (inject_Z (len (@nil Z))) with 0%Q.
  unfold register_cost, greedy_choice.
  destruct (Z.ltb_spec pitch 60) as [Hlow|Hhigh].
  - destruct (Z.leb_spec 60 pitch); [lia|].
    destruct (Qlt_le_dec _ _) as [H1|H1]; [reflexivity|exfalso; lra].
  - destruct (Z.leb_spec 60 pitch); [|lia].
    destruct (Qlt_le_dec _ _) as [H1|H1]; [exfalso; lra|].
    destruct (Qlt_le_dec _ _) as [H2|H2]; [reflexivity|exfalso; lra].
Qed.

Lemma greedy_isolated_note_by_register_witness :
  0 < 5 /\ 0 <= 8
  /\ prune (active_right greedy_init) 0%Q = []
  /\ len (prune (active_left greedy_init) 0%Q) < 5
  /\ greedy_decide greedy_init (48, 0%Q, 1%Q, 90) 5 8 = (if 48 <? 60 then Left else Right).
Proof.
  assert (H1 : 0 < 5) by lia. assert (H2 : 0 <= 8) by lia.
  assert (H3 : prune (active_right greedy_init) 0%Q = []) by reflexivity.
  assert (H4 : len (prune (active_left greedy_init) 0%Q) < 5) by (vm_compute; reflexivity).
  split; [exact H1|]. split; [exact H2|]. split; [exact H3|]. split; [exact H4|].
  exact (greedy_isolated_note_by_register 5 8 greedy_init 48 0%Q 1%Q 90 H1 H2 H3 H4).
Defined.



(** *** End times are never read *)

Lemma without_end_fields (x y : note) :
  without_end x = without_end y <-> n0 x = n0 y /\ n1 x = n1 y /\ n3 x = n3 y.
Proof.
  unfold without_end. split.
  - intros H. injection H as -> -> ->. auto.
  - intros (-> & -> & ->). reflexivity.
Qed.

Lemma map_without_end_cons_inv (l' : list note) x (l : list note) :
  map without_end (x :: l) = map without_end l' ->
  exists x' t', l' = x' :: t' /\ without_end x = without_end x'
                /\ map without_end l = map without_end t'.
Proof.
  destruct l' as [|x' t']; simpl; [discriminate|].
  intros H. injection H as H1 H2 H3 H4. exists x', t'.
  split; [reflexivity|]. split; [|exact H4].
  apply without_end_fields. auto.
Qed.

Lemma insert_note_without_end x x' : forall l l',
  without_end x = without_end x' ->
  map without_end l = map without_end l' ->
  map without_end (insert_note x l) = map without_end (insert_note x' l').
Proof.
  intros l. induction l as [|y l IH]; intros l' Hx Hl.
  - destruct l'; [|discriminate]. simpl. now rewrite Hx.
  - destruct (map_without_end_cons_inv l' y l Hl) as (y' & t' & -> & Hy & Ht).
    simpl.
    assert (Hk : key_lt y x = key_lt y' x').
    { apply without_end_fields in Hx, Hy. destruct Hx as (A & B & _), Hy as (C & D & _).
      unfold key_lt. now rewrite A, B, C, D. }
    rewrite <- Hk. destruct (key_lt y x); simpl.
    + rewrite Hy. f_equal. now apply IH.
    + rewrite Hx, Hy, Ht. reflexivity.
Qed.

Lemma sort_notes_without_end : forall l l',
  map without_end l = map without_end l' ->
  map without_end (sort_notes l) = map without_end (sort_notes l').
Proof.
  intros l. induction l as [|x l IH]; intros l' H.
  - destruct l'; [reflexivity|discriminate].
  - destruct (map_without_end_cons_inv l' x l H) as (x' & t' & -> & Hx & Ht).
    simpl. apply insert_note_without_end; [exact Hx|now apply IH].
Qed.

Lemma prune_without_end start : forall a a',
  map without_end a = map without_end a' ->
  map without_end (prune a start) = map without_end (prune a' start).
Proof.
  intros a. induction a as [|x a IH]; intros a' H.
  - destruct a'; [reflexivity|discriminate].
  - destruct (map_without_end_cons_inv a' x a H) as (x' & t' & -> & Hx & Ht).
    unfold prune in *. simpl.
    assert (E : n3 x = n3 x') by (apply without_end_fields in Hx; tauto).
    rewrite E. destruct (Qlt_le_dec start (inject_Z (n3 x'))); simpl.
    + rewrite Hx. f_equal. now apply IH.
    + now apply IH.
Qed.

Lemma pitches_without_end (a a' : list note) :
  map without_end a = map without_end a' -> map n0 a = map n0 a'.
Proof.
  intros H.
  assert (E : forall l : list note, map n0 l = map (fun t => fst (fst t)) (map without_end l)).
  { intros l. rewrite map_map. reflexivity. }
  now rewrite !E, H.
Qed.

Lemma greedy_step_without_end max_fingers allowed_spread st st' n n' :
  same_but_ends st st' -> without_end n = without_end n' ->
  same_but_ends (greedy_step max_fingers allowed_spread st n)
                (greedy_step max_fingers allowed_spread st' n').
Proof.
  intros (HL & HR & Hal & Har) Hn.
  destruct n as [[[pitch start] e] velocity], n' as [[[pitch' start'] e'] velocity'].
  pose proof Hn as Hn'. unfold without_end in Hn'. simpl in Hn'.
  injection Hn' as -> -> ->.
  pose proof (prune_without_end start' _ _ Hal) as Pl.
  pose proof (prune_without_end start' _ _ Har) as Pr.
  assert (Hdec : greedy_decide st (pitch', start', e, velocity') max_fingers allowed_spread
                 = greedy_decide st' (pitch', start', e', velocity') max_fingers allowed_spread).
  { unfold greedy_decide, greedy_costs. cbv zeta. simpl cost_left. simpl cost_right.
    rewrite (pitches_without_end _ _ Pl), (pitches_without_end _ _ Pr).
    rewrite <- (length_map without_end (left_hand st)), <- (length_map without_end (right_hand st)),
      HL, HR, !length_map. reflexivity. }
  unfold greedy_step. rewrite Hdec.
  destruct (greedy_decide st' (pitch', start', e', velocity') max_fingers allowed_spread);
    unfold same_but_ends; simpl; rewrite ?map_app, ?HL, ?HR, ?Pl, ?Pr; simpl; rewrite ?Hn; auto.
Qed.

Lemma greedy_fold_without_end max_fingers allowed_spread : forall notes notes' st st',
  same_but_ends st st' ->
  map without_end notes = map without_end notes' ->
  same_but_ends (fold_left (greedy_step max_fingers allowed_spread) notes st)
                (fold_left (greedy_step max_fingers allowed_spread) notes' st').
Proof.
  intros notes. induction notes as [|n notes IH]; intros notes' st st' Hst H.
  - destruct notes'; [exact Hst|discriminate].
  - destruct (map_without_end_cons_inv notes' n notes H) as (n' & t' & -> & Hn & Ht).
    simpl. apply IH; [now apply greedy_step_without_end|exact Ht].
Qed.

(** The greedy engine never reads an end time: two files whose notes agree
    in pitch, start and velocity, note for note, are split in the same way,
    whatever their end times. *)
Theorem greedy_ignores_end_times :
  forall (midi_data midi_data' : PrettyMIDI.PrettyMIDI) (max_fingers allowed_spread : Z),
    map without_end (extract_notes midi_data) = map without_end (extract_notes midi_data') ->
    map without_end (fst (assign_notes_to_hands midi_data max_fingers allowed_spread))
    = map without_end (fst (assign_notes_to_hands midi_data' max_fingers allowed_spread))
    /\ map without_end (snd (assign_notes_to_hands midi_data max_fingers allowed_spread))
       = map without_end (snd (assign_notes_to_hands midi_data' max_fingers allowed_spread)).
Proof.
  intros midi_data midi_data' max_fingers allowed_spread H.
  unfold assign_notes_to_hands, greedy_run. simpl.
  destruct (greedy_fold_without_end max_fingers allowed_spread
              (sort_notes (extract_notes midi_data)) (sort_notes (extract_notes midi_data'))
              greedy_init greedy_init) as (HL & HR & _).
  - repeat split.
  - now apply sort_notes_without_end.
  - split; assumption.
Qed.

Lemma greedy_ignores_end_times_witness :
  map without_end (extract_notes (one_track [mk_note 60 0 0.5 100; mk_note 80 1 1.5 100]))
  = map without_end (extract_notes (one_track [mk_note 60 0 9 100; mk_note 80 1 1.25 100]))
  /\ (map without_end
        (fst (assign_notes_to_hands
                (one_track [mk_note 60 0 0.5 100; mk_note 80 1 1.5 100]) 5 8))
      = map without_end
          (fst (assign_notes_to_hands
                  (one_track [mk_note 60 0 9 100; mk_note 80 1 1.25 100]) 5 8))
      /\ map without_end
           (snd (assign_notes_to_hands
                   (one_track [mk_note 60 0 0.5 100; mk_note 80 1 1.5 100]) 5 8))
         = map without_end
             (snd (assign_notes_to_hands
                     (one_track [mk_note 60 0 9 100; mk_note 80 1 1.25 100]) 5 8))).
Proof.
  assert (H : map without_end
                (extract_notes (one_track [mk_note 60 0 0.5 100; mk_note 80 1 1.5 100]))
              = map without_end
                  (extract_notes (one_track [mk_note 60 0 9 100; mk_note 80 1 1.25 100])))
    by reflexivity.
  split; [exact H|].
  exact (greedy_ignores_end_times _ _ 5 8 H).
Defined.

(** ** Sorting again *)

Lemma insert_note_head x l : Forall (key_le x) l -> insert_note x l = x :: l.
Proof.
  destruct l as [|y l]; [reflexivity|].
  intros H. inversion H as [|? ? Hy _]; subst. simpl.
  unfold key_le in Hy. now rewrite Hy.
Qed.

Lemma sort_notes_fixes_sorted l : StronglySorted key_le l -> sort_notes l = l.
Proof.
  induction 1 as [|x l Hs IH Hall]; [reflexivity|].
  simpl. rewrite IH. now apply insert_note_head.
Qed.

Lemma sort_notes_sorted l : StronglySorted key_le (sort_notes l).
Proof.
  induction l as [|x l IH]; simpl; [constructor|now apply insert_note_sorted].
Qed.

(** Sorting leaves a list that is already in key order as it is, so the
    preprocessing step applied twice is the preprocessing step. *)
Theorem sort_notes_idempotent :
  forall l : list note,
    sort_notes (sort_notes l) = sort_notes l
    /\ (StronglySorted key_le l -> sort_notes l = l).
Proof.
  intros l. split; [|apply sort_notes_fixes_sorted].
  apply sort_notes_fixes_sorted, sort_notes_sorted.
Qed.

(** ** The written tracks *)

Lemma note_tuple_to_note (t : note) : note_tuple (to_note t) = t.
Proof. destruct t as [[[pitch start] e] velocity]. reflexivity. Qed.

Lemma extract_split_tracks left_name right_name (hands : list note * list note) :
  extract_notes (as_midi_data (split_tracks left_name right_name hands))
  = fst hands ++ snd hands.
Proof.
  destruct hands as [l r]. unfold extract_notes, as_midi_data, split_tracks. simpl.
  rewrite !map_map, app_nil_r.
  rewrite !(map_ext _ (fun t => t) note_tuple_to_note), !map_id. reflexivity.
Qed.

(** The file the script writes for the greedy split has two tracks, both
    with program 0, the left hand first; read back the way the engines read
    a file, the first track holds exactly the left-hand tuples and the
    second the right-hand ones, and together they are the notes of the
    input, each once and unchanged. *)
Theorem split_midi_round_trip :
  forall midi_data : PrettyMIDI.PrettyMIDI,
    let hands := assign_notes_to_hands midi_data 5 8 in
    map Output.name (split_midi midi_data) = ["Left Hand"; "Right Hand"]
    /\ map Output.program (split_midi midi_data) = [0; 0]
    /\ map (fun t => map note_tuple (PrettyMIDI.notes (Output.instrument t)))
           (split_midi midi_data)
       = [fst hands; snd hands]
    /\ extract_notes (as_midi_data (split_midi midi_data)) = fst hands ++ snd hands
    /\ Permutation (extract_notes (as_midi_data (split_midi midi_data)))
                   (extract_notes midi_data).
Proof.
  intros midi_data hands. unfold split_midi. fold hands.
  split; [destruct hands; reflexivity|].
  split; [destruct hands; reflexivity|].
  split.
  { destruct hands as [l r]. simpl. rewrite !map_map.
    rewrite !(map_ext _ (fun t => t) note_tuple_to_note), !map_id. reflexivity. }
  rewrite extract_split_tracks. split; [reflexivity|].
  apply greedy_partition.
Qed.

(** * The engines in binary64 arithmetic: properties *)

Module Binary64Facts.
Import Binary64 Binary64Spec.

Lemma iter_pos_nat {A} (f : A -> A) p : forall x, SpecFloat.iter_pos f p x = Nat.iter (Pos.to_nat p) f x.
Proof.
  induction p as [p IH|p IH|]; intros x; simpl SpecFloat.iter_pos.
  - rewrite !IH, Pos2Nat.inj_xI, <- Nat.iter_add, Nat.iter_succ_r.
    f_equal. lia.
  - rewrite !IH, Pos2Nat.inj_xO, <- Nat.iter_add. f_equal. lia.
  - reflexivity.
Qed.

(** One step of the right shift, on a mantissa that is not negative. *)
Lemma shr_1_spec m r s :
  0 <= m -> shr_1 (Build_shr_record m r s) = Build_shr_record (m / 2) (Z.odd m) (r || s).
Proof.
  intros Hm. destruct m as [|p|p]; [reflexivity| |lia].
  destruct p as [p|p|]; unfold shr_1.
  - assert (E : Z.pos p~1 / 2 = Z.pos p)
      by (rewrite (Pos2Z.inj_xI p); symmetry; apply Z.div_unique with 1; lia).
    rewrite E. reflexivity.
  - assert (E : Z.pos p~0 / 2 = Z.pos p)
      by (rewrite (Pos2Z.inj_xO p); symmetry; apply Z.div_unique with 0; lia).
    rewrite E. reflexivity.
  - reflexivity.
Qed.

Lemma shr_iter_spec M k :
  0 <= M ->
  let mrs := Nat.iter k shr_1 (Build_shr_record M false false) in
  shr_m mrs = M / 2 ^ Z.of_nat k
  /\ (M mod 2 ^ Z.of_nat k = 0 -> shr_r mrs = false /\ shr_s mrs = false).
Proof.
  intros HM. induction k as [|k IH]; cbn zeta.
  - simpl. rewrite Z.div_1_r. auto.
  - cbn zeta in IH. destruct IH as [Hm Hex].
    rewrite Nat.iter_succ.
    destruct (Nat.iter k shr_1 _) as [m r s] eqn:E. cbn [shr_m shr_r shr_s] in *.
    assert (Hk : 0 < 2 ^ Z.of_nat k) by (apply Z.pow_pos_nonneg; lia).
    assert (Hm0 : 0 <= m) by (subst m; apply Z.div_pos; lia).
    rewrite shr_1_spec by exact Hm0. cbn [shr_m shr_r shr_s].
    rewrite Nat2Z.inj_succ, Z.pow_succ_r by lia.
    split.
    + subst m. rewrite Z.div_div by lia. f_equal. lia.
    + intros H0.
      assert (Hdiv : M mod 2 ^ Z.of_nat k = 0 /\ Z.odd m = false).
      { assert (E2 : M = 2 * 2 ^ Z.of_nat k * (M / (2 * 2 ^ Z.of_nat k))).
        { pose proof (Z.div_mod M (2 * 2 ^ Z.of_nat k) ltac:(lia)). lia. }
        set (q := M / (2 * 2 ^ Z.of_nat k)) in *.
        assert (E3 : M = 2 ^ Z.of_nat k * (2 * q)) by lia.
        split.
        - rewrite E3, Z.mul_comm. apply Z.mod_mul. lia.
        - subst m. rewrite E3, Z.mul_comm, Z.div_mul by lia.
          rewrite Z.odd_mul, Z.odd_2. reflexivity. }
      destruct Hdiv as [H1 H2]. destruct (Hex H1) as [-> ->]. rewrite H2. auto.
Qed.

Lemma digits2_bounds p :
  2 ^ (Z.pos (digits2_pos p) - 1) <= Z.pos p < 2 ^ Z.pos (digits2_pos p).
Proof.
  induction p as [p IH|p IH|]; cbn [digits2_pos].
  - rewrite Pos2Z.inj_succ, (Pos2Z.inj_xI p).
    replace (Z.succ (Z.pos (digits2_pos p)) - 1) with (Z.succ (Z.pos (digits2_pos p) - 1)) by lia.
    rewrite !Z.pow_succ_r by lia. lia.
  - rewrite Pos2Z.inj_succ, (Pos2Z.inj_xO p).
    replace (Z.succ (Z.pos (digits2_pos p)) - 1) with (Z.succ (Z.pos (digits2_pos p) - 1)) by lia.
    rewrite !Z.pow_succ_r by lia. lia.
  - simpl. lia.
Qed.

(** A mantissa below [2 ^ k] has at most [k] digits. *)
Lemma digits2_le p k : Z.pos p < 2 ^ k -> Z.pos (digits2_pos p) <= k.
Proof.
  intros H. destruct (digits2_bounds p) as [Hlo _].
  destruct (Z.le_gt_cases (Z.pos (digits2_pos p)) k) as [|Hgt]; [assumption|exfalso].
  assert (0 <= k).
  { destruct (Z.le_gt_cases 0 k); [assumption|]. rewrite Z.pow_neg_r in H; lia. }
  assert (2 ^ k <= 2 ^ (Z.pos (digits2_pos p) - 1)) by (apply Z.pow_le_mono_r; lia).
  lia.
Qed.

Lemma fexp_eq x : fexp prec emax x = Z.max (x - 53) (-1074).
Proof. reflexivity. Qed.

Lemma shr_nonpos mrs e n : n <= 0 -> shr mrs e n = (mrs, e).
Proof. destruct n; [reflexivity|lia|reflexivity]. Qed.

Lemma round_nearest_even_bounds mrs :
  let m := round_nearest_even (shr_m mrs) (loc_of_shr_record mrs) in
  shr_m mrs <= m <= shr_m mrs + 1
  /\ (shr_r mrs = false /\ shr_s mrs = false -> m = shr_m mrs).
Proof.
  destruct mrs as [m [|] [|]]; cbn; try destruct (Z.even m); split; try lia; intros []; congruence.
Qed.

Lemma round_aux_spec s M E :
  let e' := fexp prec emax (Z.pos (digits2_pos M) + E) in
  E <= e' ->
  exists m_r,
    Z.pos M / 2 ^ (e' - E) <= m_r <= Z.pos M / 2 ^ (e' - E) + 1
    /\ (Z.pos M mod 2 ^ (e' - E) = 0 -> m_r = Z.pos M / 2 ^ (e' - E))
    /\ (-1074 < e' -> 2 ^ 52 <= m_r)
    /\ binary_round_aux prec emax s (Z.pos M) E loc_Exact = pack s m_r e'.
Proof.
  intros e' Hn.
  destruct (digits2_bounds M) as [Hlo Hhi].
  set (d := Z.pos (digits2_pos M)) in *.
  assert (He' : e' = Z.max (d + E - 53) (-1074)) by (subst e'; apply fexp_eq).
  assert (Hsmall : Z.pos M < 2 ^ (53 + (e' - E))).
  { eapply Z.lt_le_trans; [exact Hhi|]. apply Z.pow_le_mono_r; lia. }
  unfold binary_round_aux, shr_fexp. cbn [Zdigits2]. fold d. fold e'.
  cbn [shr_record_of_loc].
  destruct (e' - E) as [|p|p] eqn:En; [| |lia].
  - (* no shift *)
    cbn [shr]. cbn [shr_m loc_of_shr_record round_nearest_even Zdigits2].
    fold d. fold e'. rewrite En. cbn [shr shr_m].
    assert (EE : e' = E) by lia.
    exists (Z.pos M). rewrite Z.div_1_r. split; [lia|]. split; [reflexivity|].
    split.
    { intros Hnorm. assert (Ed : d = 53) by lia. rewrite Ed in Hlo. exact Hlo. }
    unfold pack. rewrite Z.add_0_r in Hsmall.
    destruct (Z.ltb_spec (Z.pos M) (2 ^ 53)); [|lia].
    cbn [fin]. now rewrite EE.
  - (* a shift by [p] bits *)
    cbn [shr]. rewrite iter_pos_nat.
    pose proof (shr_iter_spec (Z.pos M) (Pos.to_nat p) ltac:(lia)) as Hs. cbn zeta in Hs.
    rewrite positive_nat_Z in Hs.
    set (mrs := Nat.iter (Pos.to_nat p) shr_1 _) in *.
    destruct Hs as [Hm Hex].
    pose proof (round_nearest_even_bounds mrs) as Hr. cbn zeta in Hr.
    set (m_r := round_nearest_even (shr_m mrs) (loc_of_shr_record mrs)) in *.
    destruct Hr as [Hb Hexact].
    replace (E + Z.pos p) with e' by lia.
    assert (Hpow : 0 < 2 ^ Z.pos p) by (apply Z.pow_pos_nonneg; lia).
    assert (Hm' : 0 <= shr_m mrs < 2 ^ 53).
    { rewrite Hm. split; [apply Z.div_pos; lia|].
      apply Z.div_lt_upper_bound; [lia|].
      rewrite Z.pow_add_r in Hsmall by lia. lia. }
    exists m_r. rewrite <- Hm. split; [exact Hb|]. split; [intros H0; apply Hexact, Hex, H0|].
    assert (Hemin : -1074 <= e') by lia.
    split.
    { intros Hnorm. assert (Ed : d - 1 = 52 + Z.pos p) by lia.
      rewrite Ed, Z.pow_add_r in Hlo by lia.
      assert (2 ^ 52 <= shr_m mrs); [|lia].
      rewrite Hm. apply Z.div_le_lower_bound; lia. }
    unfold pack. destruct (Z.ltb_spec m_r (2 ^ 53)) as [Hlt|Hge].
    + destruct m_r as [|q|q] eqn:Eq; [| |lia].
      * cbn [Zdigits2]. rewrite shr_nonpos by (rewrite fexp_eq; lia). reflexivity.
      * cbn [Zdigits2]. pose proof (digits2_le q 53 Hlt).
        rewrite shr_nonpos by (rewrite fexp_eq; lia). reflexivity.
    + assert (Em : m_r = 2 ^ 53) by lia. rewrite Em.
      change (Zdigits2 (2 ^ 53)) with 54.
      replace (fexp prec emax (54 + e') - e') with 1 by (rewrite fexp_eq; lia).
      reflexivity.
Qed.

Lemma pos_iter_xO m s : Z.pos (Pos.iter xO m s) = Z.pos m * 2 ^ Z.pos s.
Proof.
  induction s as [|s IH] using Pos.peano_ind.
  - simpl. lia.
  - rewrite Pos.iter_succ, Pos2Z.inj_succ, Z.pow_succ_r by lia.
    rewrite (Pos2Z.inj_xO (Pos.iter xO m s)), IH. lia.
Qed.

Lemma digits2_iter_xO m s :
  Z.pos (digits2_pos (Pos.iter xO m s)) = Z.pos (digits2_pos m) + Z.pos s.
Proof.
  induction s as [|s IH] using Pos.peano_ind.
  - simpl. lia.
  - rewrite Pos.iter_succ. cbn [digits2_pos]. rewrite !Pos2Z.inj_succ, IH. lia.
Qed.

(** [binary_round] first brings the mantissa to the exponent of its
    format, without changing the value, and then rounds. *)
Lemma binary_round_unfold s M E :
  exists M' E',
    E' <= E
    /\ Z.pos M' = Z.pos M * 2 ^ (E - E')
    /\ Z.pos (digits2_pos M') + E' = Z.pos (digits2_pos M) + E
    /\ E' <= fexp prec emax (Z.pos (digits2_pos M') + E')
    /\ binary_round prec emax s M E = binary_round_aux prec emax s (Z.pos M') E' loc_Exact.
Proof.
  unfold binary_round, shl_align.
  set (e0 := fexp prec emax (Z.pos (digits2_pos M) + E)).
  destruct (e0 - E) as [|p|p] eqn:En.
  - exists M, E. rewrite Z.sub_diag. fold e0. repeat split; lia.
  - exists M, E. rewrite Z.sub_diag. fold e0. repeat split; lia.
  - exists (Pos.iter xO M p), e0.
    assert (Ep : E - e0 = Z.pos p) by lia.
    rewrite digits2_iter_xO, pos_iter_xO, Ep.
    replace (Z.pos (digits2_pos M) + Z.pos p + e0) with (Z.pos (digits2_pos M) + E) by lia.
    fold e0. repeat split; lia.
Qed.

Lemma bounded_by_mono x N N' : N <= N' -> bounded_by x N -> bounded_by x N'.
Proof.
  intros HN. destruct x as [| | |[|] m e]; cbn; try tauto.
  intros [He Hm]. split; [exact He|].
  assert (0 < 2 ^ (- e)) by (apply Z.pow_pos_nonneg; lia). nia.
Qed.

Lemma bounded_by_finite x N : bounded_by x N -> num_ltb (Float x) (Float inf) = true.
Proof. destruct x as [| | |[|] m e]; cbn; try tauto; reflexivity. Qed.

Lemma pack_bounded m e N :
  0 <= m -> e <= 0 -> N < 2 ^ 53 -> m <= N * 2 ^ (- e) -> bounded_by (pack false m e) N.
Proof.
  intros Hm He HN Hle. unfold pack.
  destruct (Z.ltb_spec m (2 ^ 53)) as [Hlt|Hge].
  - destruct m as [|p|p]; cbn [fin]; [exact I| |lia].
    destruct (Z.leb_spec e (emax - prec)) as [_|Hbig]; [|unfold emax, prec in Hbig; lia].
    split; assumption.
  - change (2 ^ 52) with (Z.pos 4503599627370496). cbn [fin].
    assert (Hpos : 0 < 2 ^ (- e)) by (apply Z.pow_pos_nonneg; lia).
    assert (He1 : e < 0).
    { destruct (Z.eq_dec e 0) as [->|]; [|lia]. simpl in Hle. lia. }
    destruct (Z.leb_spec (e + 1) (emax - prec)) as [_|Hbig]; [|unfold emax, prec in Hbig; lia].
    split; [lia|].
    replace (- e) with (Z.succ (- (e + 1))) in Hle by lia.
    rewrite Z.pow_succ_r in Hle by lia.
    change (Z.pos 4503599627370496) with (2 ^ 52). lia.
Qed.

Lemma round_aux_bounded M E N :
  E <= 0 -> E <= fexp prec emax (Z.pos (digits2_pos M) + E) ->
  N < 2 ^ 53 -> Z.pos M <= N * 2 ^ (- E) ->
  bounded_by (binary_round_aux prec emax false (Z.pos M) E loc_Exact) N.
Proof.
  intros HE Hpre HN Hle.
  destruct (round_aux_spec false M E Hpre) as (m_r & Hb & Hex & _ & ->).
  destruct (digits2_bounds M) as [Hlo Hhi].
  set (d := Z.pos (digits2_pos M)) in *.
  set (e' := fexp prec emax (d + E)) in *.
  assert (He' : e' = Z.max (d + E - 53) (-1074)) by (subst e'; apply fexp_eq).
  assert (HposE : 0 < 2 ^ (- E)) by (apply Z.pow_pos_nonneg; lia).
  assert (HN0 : 0 < N) by nia.
  assert (Hd : d + E <= 53).
  { assert (H1 : 2 ^ (d - 1) < 2 ^ (53 - E)).
    { eapply Z.le_lt_trans; [exact Hlo|]. eapply Z.le_lt_trans; [exact Hle|].
      replace (53 - E) with (53 + - E) by lia. rewrite Z.pow_add_r by lia. nia. }
    apply Z.pow_lt_mono_r_iff in H1; lia. }
  assert (He0 : e' <= 0) by lia.
  set (n := e' - E) in *.
  assert (Hn : 0 <= n) by lia.
  assert (Hpn : 0 < 2 ^ n) by (apply Z.pow_pos_nonneg; lia).
  assert (Hsplit : N * 2 ^ (- E) = N * 2 ^ (- e') * 2 ^ n).
  { replace (- E) with (- e' + n) by lia. rewrite Z.pow_add_r by lia. ring. }
  set (X := N * 2 ^ (- e')) in *.
  apply pack_bounded; try assumption.
  - pose proof (Z.div_pos (Z.pos M) (2 ^ n) ltac:(lia) Hpn). lia.
  - fold X. rewrite Hsplit in Hle.
    destruct (Z.eq_dec (Z.pos M mod 2 ^ n) 0) as [H0|Hne].
    + rewrite (Hex H0). apply Z.div_le_upper_bound; lia.
    + assert (Z.pos M / 2 ^ n < X); [|lia].
      apply Z.div_lt_upper_bound; [lia|].
      destruct (Z.eq_dec (Z.pos M) (2 ^ n * X)) as [Eq|]; [|lia].
      exfalso. apply Hne. rewrite Eq, Z.mul_comm. apply Z.mod_mul. lia.
Qed.

Lemma binary_round_bounded M E N :
  E <= 0 -> N < 2 ^ 53 -> Z.pos M <= N * 2 ^ (- E) ->
  bounded_by (binary_round prec emax false M E) N.
Proof.
  intros HE HN Hle.
  destruct (binary_round_unfold false M E) as (M' & E' & HE' & HM' & _ & Hpre & ->).
  apply round_aux_bounded; try assumption; [lia|].
  rewrite HM'.
  replace (- E') with (- E + (E - E')) by lia.
  rewrite Z.pow_add_r by lia.
  assert (0 < 2 ^ (E - E')) by (apply Z.pow_pos_nonneg; lia). nia.
Qed.

Lemma shl_align_fst m e ez :
  ez <= e -> Z.pos (fst (shl_align m e ez)) = Z.pos m * 2 ^ (e - ez).
Proof.
  intros H. unfold shl_align. destruct (ez - e) as [|p|p] eqn:E.
  - replace (e - ez) with 0 by lia. cbn. lia.
  - lia.
  - cbn [fst]. rewrite pos_iter_xO. f_equal. f_equal. lia.
Qed.

Lemma add_bounded x y a b :
  bounded_by x a -> bounded_by y b -> 0 <= a -> 0 <= b -> a + b < 2 ^ 53 ->
  bounded_by (add x y) (a + b).
Proof.
  intros Hx Hy Ha Hb Hab.
  destruct x as [sx| | |[|] mx ex]; cbn in Hx; try tauto;
    destruct y as [sy| | |[|] my ey]; cbn in Hy; try tauto.
  - destruct sx, sy; exact I.
  - apply (bounded_by_mono _ b); [lia|exact Hy].
  - apply (bounded_by_mono _ a); [lia|exact Hx].
  - destruct Hx as [Hex Hmx], Hy as [Hey Hmy].
    unfold add, SFadd. cbn [cond_Zopp].
    set (ez := Z.min ex ey).
    assert (Hx' := shl_align_fst mx ex ez ltac:(lia)).
    assert (Hy' := shl_align_fst my ey ez ltac:(lia)).
    set (mx' := fst (shl_align mx ex ez)) in *.
    set (my' := fst (shl_align my ey ez)) in *.
    change (Z.pos mx' + Z.pos my') with (Z.pos (mx' + my')).
    cbn [binary_normalize].
    apply binary_round_bounded; [lia|exact Hab|].
    rewrite Pos2Z.inj_add, Hx', Hy'.
    assert (Ex : a * 2 ^ (- ez) = a * 2 ^ (- ex) * 2 ^ (ex - ez)).
    { replace (- ez) with (- ex + (ex - ez)) by lia. rewrite Z.pow_add_r by lia. ring. }
    assert (Ey : b * 2 ^ (- ez) = b * 2 ^ (- ey) * 2 ^ (ey - ez)).
    { replace (- ez) with (- ey + (ey - ez)) by lia. rewrite Z.pow_add_r by lia. ring. }
    assert (0 < 2 ^ (ex - ez)) by (apply Z.pow_pos_nonneg; lia).
    assert (0 < 2 ^ (ey - ez)) by (apply Z.pow_pos_nonneg; lia).
    rewrite Z.mul_add_distr_r, Ex, Ey. nia.
Qed.

Lemma float_of_int_bounded z N :
  0 <= z <= N -> N < 2 ^ 53 ->
  exists f, float_of_int z = Ok f /\ bounded_by f N.
Proof.
  intros Hz HN. unfold float_of_int.
  destruct z as [|p|p]; [| |lia].
  - exists (S754_zero false). split; [reflexivity|exact I].
  - cbn [binary_normalize].
    pose proof (binary_round_bounded p 0 N ltac:(lia) HN ltac:(simpl; lia)) as Hb.
    destruct (binary_round prec emax false p 0) as [s| | |s m e] eqn:E;
      cbn in Hb; try tauto; eexists; (split; [reflexivity|]); cbn; exact Hb.
Qed.

(** Multiplying by a positive constant that is at most one, and has a
    full mantissa, does not lead above the bound. *)
Lemma mul_bounded mc ec y N :
  2 ^ 52 <= Z.pos mc <= 2 ^ (- ec) -> ec <= 0 -> N < 2 ^ 53 ->
  bounded_by y N -> bounded_by (mul (S754_finite false mc ec) y) N.
Proof.
  intros Hc Hec HN Hy.
  destruct y as [sy| | |[|] my ey]; cbn in Hy; try tauto; try exact I.
  destruct Hy as [Hey Hmy]. unfold mul, SFmul. cbn [xorb].
  assert (Hpos : 0 < 2 ^ (- ey)) by (apply Z.pow_pos_nonneg; lia).
  apply round_aux_bounded; [lia| |exact HN|].
  - destruct (digits2_bounds (mc * my)) as [_ Hhi].
    rewrite Pos2Z.inj_mul in Hhi.
    assert (H52 : 2 ^ 52 < 2 ^ Z.pos (digits2_pos (mc * my))) by nia.
    apply Z.pow_lt_mono_r_iff in H52; [|lia|lia].
    rewrite fexp_eq. lia.
  - rewrite Pos2Z.inj_mul.
    replace (- (ec + ey)) with (- ec + - ey) by lia. rewrite Z.pow_add_r by lia.
    nia.
Qed.

Lemma f2_0_bounded : bounded_by f2_0 2.
Proof. cbn. split; [lia|]. reflexivity. Qed.

Lemma f0_8_bounded : bounded_by f0_8 1.
Proof. cbn. split; [lia|]. vm_compute. discriminate. Qed.

Lemma num_bounded_by_mono x N N' : N <= N' -> num_bounded_by x N -> num_bounded_by x N'.
Proof. intros H. destruct x; cbn; [lia|apply bounded_by_mono, H]. Qed.

Lemma to_float_bounded x N :
  num_bounded_by x N -> N < 2 ^ 53 -> exists f, to_float x = Ok f /\ bounded_by f N.
Proof.
  destruct x as [z|f]; cbn [num_bounded_by to_float]; intros Hx HN.
  - now apply float_of_int_bounded.
  - eauto.
Qed.

Lemma num_add_bounded x y a b :
  num_bounded_by x a -> num_bounded_by y b -> 0 <= a -> 0 <= b -> a + b < 2 ^ 53 ->
  exists r, num_add x y = Ok r /\ num_bounded_by r (a + b)
            /\ (forall f, y = Float f -> exists g, r = Float g).
Proof.
  intros Hx Hy Ha Hb Hab.
  destruct (to_float_bounded x a Hx ltac:(lia)) as (fx & Efx & Bx).
  destruct (to_float_bounded y b Hy ltac:(lia)) as (fy & Efy & By).
  pose proof (add_bounded fx fy a b Bx By Ha Hb Hab) as Hsum.
  destruct x as [zx|gx], y as [zy|gy]; cbn [num_add];
    try (rewrite Efx, Efy; cbn; eexists; split; [reflexivity|]; split; [exact Hsum|eauto]).
  cbn in Hx, Hy. eexists. split; [reflexivity|]. split; [cbn; lia|]. intros f [=].
Qed.

(** ** The order of the floats *)

Definition lexlt (a b : Z * Z * Z) : Prop :=
  let '(a1, a2, a3) := a in
  let '(b1, b2, b3) := b in
  a1 < b1 \/ (a1 = b1 /\ (a2 < b2 \/ (a2 = b2 /\ a3 < b3))).

Lemma lex3_spec a b :
  match lex3 a b with
  | Lt => lexlt a b
  | Eq => a = b
  | Gt => lexlt b a
  end.
Proof.
  destruct a as [[a1 a2] a3], b as [[b1 b2] b3]. unfold lex3, lexlt.
  destruct (Z.compare_spec a1 b1); [|lia|lia].
  destruct (Z.compare_spec a2 b2); [|lia|lia].
  destruct (Z.compare_spec a3 b3); [congruence|lia|lia].
Qed.

Lemma lexlt_trans a b c : lexlt a b -> lexlt b c -> lexlt a c.
Proof.
  destruct a as [[a1 a2] a3], b as [[b1 b2] b3], c as [[c1 c2] c3]. unfold lexlt. lia.
Qed.

Lemma lexlt_irrefl a : ~ lexlt a a.
Proof. destruct a as [[a1 a2] a3]. unfold lexlt. lia. Qed.

Lemma SFcompare_key x y :
  nonneg x -> nonneg y -> SFcompare x y = Some (lex3 (fkey x) (fkey y)).
Proof.
  destruct x as [sx|sx| |sx mx ex], y as [sy|sy| |sy my ey]; cbn [nonneg]; try tauto;
    intros Hx Hy; subst; reflexivity.
Qed.

Lemma ltb_key x y : nonneg x -> nonneg y -> (SFltb x y = true <-> lexlt (fkey x) (fkey y)).
Proof.
  intros Hx Hy. unfold SFltb. rewrite (SFcompare_key x y Hx Hy).
  pose proof (lex3_spec (fkey x) (fkey y)) as H.
  destruct (lex3 (fkey x) (fkey y)); split; try discriminate; auto.
  - intros H'. rewrite H in H'. now apply lexlt_irrefl in H'.
  - intros H'. exfalso. eapply lexlt_irrefl, lexlt_trans; eassumption.
Qed.

Lemma leb_key x y :
  nonneg x -> nonneg y ->
  (SFleb x y = true <-> lexlt (fkey x) (fkey y) \/ fkey x = fkey y).
Proof.
  intros Hx Hy. unfold SFleb. rewrite (SFcompare_key x y Hx Hy).
  pose proof (lex3_spec (fkey x) (fkey y)) as H.
  destruct (lex3 (fkey x) (fkey y)); split; try discriminate; auto.
  intros [H'|H'].
  - exfalso. eapply lexlt_irrefl, lexlt_trans; eassumption.
  - rewrite H' in H. now apply lexlt_irrefl in H.
Qed.


(** The order facts the engines rely on. *)
Lemma ltb_leb_trans a x b :
  nonneg a -> nonneg x -> nonneg b ->
  SFltb a x = true -> SFleb x b = true -> SFltb a b = true.
Proof.
  intros Ha Hx Hb H1 H2.
  apply ltb_key in H1; try assumption. apply leb_key in H2; try assumption.
  apply ltb_key; try assumption.
  destruct H2 as [H2|H2]; [eapply lexlt_trans; eassumption|now rewrite <- H2].
Qed.

Lemma ltb_asym a b : nonneg a -> nonneg b -> SFltb a b = true -> SFltb b a = true -> False.
Proof.
  intros Ha Hb H1 H2.
  apply ltb_key in H1; try assumption. apply ltb_key in H2; try assumption.
  eapply lexlt_irrefl, lexlt_trans; eassumption.
Qed.





Lemma bounded_by_nonneg x N : bounded_by x N -> nonneg x.
Proof. destruct x as [| | |[|] m e]; cbn; tauto. Qed.

Lemma good_nonneg x : good x -> nonneg x.
Proof. destruct x; cbn; tauto. Qed.

(** ** The results of the operations are canonical *)

Lemma digits2_ge p k : 2 ^ k <= Z.pos p -> k < Z.pos (digits2_pos p).
Proof.
  intros H. destruct (digits2_bounds p) as [_ Hhi].
  destruct (Z.lt_ge_cases k (Z.pos (digits2_pos p))) as [|Hge]; [assumption|exfalso].
  assert (2 ^ Z.pos (digits2_pos p) <= 2 ^ k) by (apply Z.pow_le_mono_r; lia). lia.
Qed.

Lemma bounded_intro m e :
  Z.pos m < 2 ^ 53 -> -1074 <= e <= 971 -> (-1074 < e -> 2 ^ 52 <= Z.pos m) ->
  bounded prec emax m e = true.
Proof.
  intros Hm He Hnorm. unfold bounded, canonical_mantissa.
  apply andb_true_iff. split; [|apply Z.leb_le; unfold emax, prec; lia].
  apply Z.eqb_eq. rewrite fexp_eq.
  pose proof (digits2_le m 53 Hm).
  destruct (Z.eq_dec e (-1074)) as [->|Hne]; [lia|].
  pose proof (digits2_ge m 52 (Hnorm ltac:(lia))). lia.
Qed.

Lemma bounded_elim m e :
  bounded prec emax m e = true ->
  Z.pos m < 2 ^ 53 /\ -1074 <= e <= 971 /\ (-1074 < e -> 2 ^ 52 <= Z.pos m).
Proof.
  unfold bounded, canonical_mantissa. intros H. apply andb_true_iff in H.
  destruct H as [Hc He]. apply Z.eqb_eq in Hc. apply Z.leb_le in He.
  rewrite fexp_eq in Hc. unfold emax, prec in He.
  destruct (digits2_bounds m) as [Hlo Hhi].
  set (d := Z.pos (digits2_pos m)) in *.
  assert (Hd : d <= 53) by lia.
  split; [|split; [lia|]].
  - eapply Z.lt_le_trans; [exact Hhi|]. apply Z.pow_le_mono_r; lia.
  - intros Hn. assert (Ed : d = 53) by lia. rewrite Ed in Hlo. exact Hlo.
Qed.

Lemma pack_good m e :
  0 <= m -> -1074 <= e -> (-1074 < e -> 2 ^ 52 <= m) -> good (pack false m e).
Proof.
  intros Hm He Hnorm. unfold pack.
  destruct (Z.ltb_spec m (2 ^ 53)) as [Hlt|Hge].
  - destruct m as [|p|p]; cbn [fin]; [exact I| |lia].
    destruct (Z.leb_spec e (emax - prec)) as [Hle|_]; [|reflexivity].
    split; [reflexivity|]. unfold emax, prec in Hle. apply bounded_intro; [assumption|lia|assumption].
  - change (2 ^ 52) with (Z.pos 4503599627370496). cbn [fin].
    destruct (Z.leb_spec (e + 1) (emax - prec)) as [Hle|_]; [|reflexivity].
    split; [reflexivity|]. unfold emax, prec in Hle.
    apply bounded_intro; [reflexivity|lia|intros _; reflexivity].
Qed.

Lemma round_aux_good M E :
  E <= fexp prec emax (Z.pos (digits2_pos M) + E) ->
  good (binary_round_aux prec emax false (Z.pos M) E loc_Exact).
Proof.
  intros Hpre. destruct (round_aux_spec false M E Hpre) as (m_r & Hb & _ & Hnorm & ->).
  apply pack_good; [|rewrite fexp_eq; lia|exact Hnorm].
  assert (0 <= Z.pos M / 2 ^ (fexp prec emax (Z.pos (digits2_pos M) + E) - E)); [|lia].
  apply Z.div_pos; [lia|]. apply Z.pow_pos_nonneg; lia.
Qed.

Lemma binary_round_good M E : good (binary_round prec emax false M E).
Proof.
  destruct (binary_round_unfold false M E) as (M' & E' & _ & _ & _ & Hpre & ->).
  now apply round_aux_good.
Qed.

Lemma add_finite_good mx ex my ey :
  good (add (S754_finite false mx ex) (S754_finite false my ey)).
Proof.
  unfold add, SFadd. cbn [cond_Zopp].
  set (ez := Z.min ex ey).
  change (Z.pos (fst (shl_align mx ex ez)) + Z.pos (fst (shl_align my ey ez)))
    with (Z.pos (fst (shl_align mx ex ez) + fst (shl_align my ey ez))).
  cbn [binary_normalize]. apply binary_round_good.
Qed.

Lemma add_good x y : good x -> good y -> good (add x y).
Proof.
  intros Hx Hy.
  destruct x as [sx|sx| |sx mx ex]; cbn [good] in Hx; try tauto;
    destruct y as [sy|sy| |sy my ey]; cbn [good] in Hy; try tauto;
    repeat match goal with
           | H : _ /\ _ |- _ => destruct H
           | H : _ = false |- _ => subst
           end;
    first [ apply add_finite_good
          | exact I
          | reflexivity
          | split; [reflexivity|assumption]
          | destruct sx, sy; exact I ].
Qed.

Lemma float_of_int_good z f : 0 <= z -> float_of_int z = Ok f -> good f.
Proof.
  intros Hz. unfold float_of_int. destruct z as [|p|p]; [| |lia].
  - intros [= <-]. exact I.
  - cbn [binary_normalize]. pose proof (binary_round_good p 0) as Hg.
    destruct (binary_round prec emax false p 0); intros [= <-]; exact Hg.
Qed.

(** Products with a positive constant whose mantissa is full. *)
Lemma mul_good_l mc ec y :
  2 ^ 52 <= Z.pos mc -> good y -> good (mul (S754_finite false mc ec) y).
Proof.
  intros Hc Hy. destruct y as [sy|sy| |sy my ey]; cbn [good] in Hy; try tauto;
    try (subst sy; reflexivity).
  destruct Hy as [-> _]. unfold mul, SFmul. cbn [xorb]. apply round_aux_good.
    pose proof (digits2_ge (mc * my) 52) as Hd. rewrite Pos2Z.inj_mul in Hd.
    rewrite fexp_eq. specialize (Hd ltac:(nia)). lia.
Qed.

Lemma mul_good_r mc ec x :
  2 ^ 52 <= Z.pos mc -> good x -> good (mul x (S754_finite false mc ec)).
Proof.
  intros Hc Hx. destruct x as [sx|sx| |sx mx ex]; cbn [good] in Hx; try tauto;
    try (subst sx; reflexivity); try (destruct sx; exact I).
  destruct Hx as [-> _]. unfold mul, SFmul. cbn [xorb]. apply round_aux_good.
    pose proof (digits2_ge (mx * mc) 52) as Hd. rewrite Pos2Z.inj_mul in Hd.
    rewrite fexp_eq. specialize (Hd ltac:(nia)). lia.
Qed.

Lemma pack_nonneg m e : 0 <= m -> nonneg (pack false m e).
Proof.
  intros Hm. unfold pack. destruct (m <? 2 ^ 53).
  - destruct m as [|p|p]; cbn [fin]; [exact I| |lia].
    destruct (e <=? emax - prec); reflexivity.
  - change (2 ^ 52) with (Z.pos 4503599627370496). cbn [fin].
    destruct (e + 1 <=? emax - prec); reflexivity.
Qed.

Lemma finite_leb q e' m e :
  e' < e \/ (e' = e /\ Z.pos q <= Z.pos m) ->
  SFleb (S754_finite false q e') (S754_finite false m e) = true.
Proof.
  intros H. apply leb_key; [reflexivity|reflexivity|]. cbn [fkey]. unfold lexlt.
  destruct H as [H|[-> H]]; [left; lia|].
  destruct (Z.eq_dec (Z.pos q) (Z.pos m)) as [E|Hne]; [right; congruence|left; lia].
Qed.

Lemma pack_leb m_r e' m e :
  0 <= m_r -> e <= 971 -> e' <= e ->
  (m_r < 2 ^ 53 -> e' < e \/ (e' = e /\ m_r <= Z.pos m)) ->
  (2 ^ 53 <= m_r -> e' + 1 < e \/ (e' + 1 = e /\ 2 ^ 52 <= Z.pos m)) ->
  SFleb (pack false m_r e') (S754_finite false m e) = true.
Proof.
  intros Hm He Hle Hlow Hcarry. unfold pack.
  destruct (Z.ltb_spec m_r (2 ^ 53)) as [Hlt|Hge].
  - destruct m_r as [|q|q]; cbn [fin]; [reflexivity| |lia].
    destruct (Z.leb_spec e' (emax - prec)) as [_|Hbig]; [|unfold emax, prec in Hbig; lia].
    apply finite_leb. exact (Hlow Hlt).
  - change (2 ^ 52) with (Z.pos 4503599627370496). cbn [fin].
    assert (He1 : e' + 1 <= e) by (destruct (Hcarry Hge); lia).
    destruct (Z.leb_spec (e' + 1) (emax - prec)) as [_|Hbig]; [|unfold emax, prec in Hbig; lia].
    apply finite_leb. change (Z.pos 4503599627370496) with (2 ^ 52). exact (Hcarry Hge).
Qed.

(** Nine tenths of a cost is not more than the cost. *)
Lemma mul_0_9_le c : good c -> SFleb (mul c f0_9) c = true.
Proof.
  intros Hc. destruct c as [s|s| |s m e]; cbn [good] in Hc; try tauto;
    try (subst s; reflexivity); try (destruct s; reflexivity).
  { destruct Hc as [-> Hbd]. apply bounded_elim in Hbd. destruct Hbd as (Hm & He & Hnorm).
    unfold mul, f0_9, SFmul. cbn [xorb].
    set (m09 := 8106479329266893%positive).
    assert (H09 : 2 ^ 52 <= Z.pos m09 < 2 ^ 53) by (subst m09; split; [discriminate|reflexivity]).
    destruct (digits2_bounds m) as [Hlo Hhi].
    destruct (digits2_bounds (m * m09)) as [HMlo HMhi]. rewrite Pos2Z.inj_mul in HMlo, HMhi.
    pose proof (digits2_le m 53 Hm) as Hdm53.
    assert (Hdm1 : 1 <= Z.pos (digits2_pos m)) by lia.
    set (dm := Z.pos (digits2_pos m)) in *.
    assert (HdM : dm + 52 <= Z.pos (digits2_pos (m * m09)) <= dm + 53).
    { split.
      - assert (H1 : 2 ^ (dm + 51) < 2 ^ Z.pos (digits2_pos (m * m09))).
        { eapply Z.le_lt_trans; [|exact HMhi].
          replace (dm + 51) with (dm - 1 + 52) by lia. rewrite Z.pow_add_r by lia. nia. }
        apply Z.pow_lt_mono_r_iff in H1; lia.
      - assert (H1 : 2 ^ (Z.pos (digits2_pos (m * m09)) - 1) < 2 ^ (dm + 53)).
        { eapply Z.le_lt_trans; [exact HMlo|]. rewrite Z.pow_add_r by lia. nia. }
        apply Z.pow_lt_mono_r_iff in H1; lia. }
    assert (Hcan : -1074 < e -> 2 ^ 52 <= Z.pos m) by exact Hnorm.
    assert (Hpre : e + -53 <= fexp prec emax (Z.pos (digits2_pos (m * m09)) + (e + -53)))
      by (rewrite fexp_eq; lia).
    destruct (round_aux_spec false (m * m09) (e + -53) Hpre) as (m_r & Hb & _ & _ & ->).
    rewrite Pos2Z.inj_mul in Hb.
    set (e' := fexp prec emax (Z.pos (digits2_pos (m * m09)) + (e + -53))) in *.
    assert (He' : e' = Z.max (Z.pos (digits2_pos (m * m09)) + e - 106) (-1074))
      by (subst e'; rewrite fexp_eq; f_equal; lia).
    assert (Hdiv0 : 0 <= Z.pos m * Z.pos m09 / 2 ^ (e' - (e + -53))).
    { apply Z.div_pos; [lia|]. apply Z.pow_pos_nonneg; lia. }
    assert (Hsame : e' = e -> m_r <= Z.pos m).
    { intros Ee. rewrite Ee in Hb. replace (e - (e + -53)) with 53 in Hb by lia.
      assert (Z.pos m * Z.pos m09 / 2 ^ 53 < Z.pos m); [|lia].
      apply Z.div_lt_upper_bound; [lia|]. nia. }
    apply pack_leb; [lia|lia|lia| |].
    + intros _. destruct (Z.eq_dec e' e) as [Ee|Hne]; [right; auto|left; lia].
    + intros Hcarry.
      assert (Hlt : e' < e).
      { destruct (Z.eq_dec e' e) as [Ee|Hne]; [|lia]. specialize (Hsame Ee). lia. }
      destruct (Z.eq_dec (e' + 1) e) as [Ee|Hne]; [right|left; lia].
      split; [exact Ee|]. apply Hcan. lia. }
Qed.

Lemma hysteresis_exclusive a b :
  good a -> good b ->
  SFltb a (mul b f0_9) = true -> SFltb b (mul a f0_9) = true -> False.
Proof.
  intros Ha Hb H1 H2.
  assert (Hma : good (mul a f0_9)) by (apply mul_good_r; [discriminate|exact Ha]).
  assert (Hmb : good (mul b f0_9)) by (apply mul_good_r; [discriminate|exact Hb]).
  pose proof (good_nonneg _ Ha). pose proof (good_nonneg _ Hb).
  pose proof (good_nonneg _ Hma). pose proof (good_nonneg _ Hmb).
  apply (ltb_asym a b); try assumption.
  - apply (ltb_leb_trans a (mul b f0_9) b); try assumption. now apply mul_0_9_le.
  - apply (ltb_leb_trans b (mul a f0_9) a); try assumption. now apply mul_0_9_le.
Qed.

(** ** The cost terms stay in range *)

Lemma density_bounded k N :
  0 <= k <= N -> N < 2 ^ 53 ->
  exists d, num_mul (Float f0_2) (Int k) = Ok (Float d) /\ bounded_by d N.
Proof.
  intros Hk HN. cbn [num_mul to_float].
  destruct (float_of_int_bounded k N Hk HN) as (f & -> & Hf). cbn.
  eexists. split; [reflexivity|].
  apply mul_bounded; [vm_compute; split; discriminate|lia|exact HN|exact Hf].
Qed.

Lemma total_cost_bounded z (fing reg : bool) d k :
  0 <= z -> 0 <= k -> z + 3 + k < 2 ^ 53 -> bounded_by d k ->
  exists c,
    total_cost z (if fing then Float f2_0 else Int 0) (if reg then Float f0_8 else Int 0)
               (Float d) = Ok (Float c)
    /\ bounded_by c (z + 3 + k).
Proof.
  intros Hz Hk Hsum Hd. unfold total_cost.
  destruct (num_add_bounded (Int z) (if fing then Float f2_0 else Int 0) z 2)
    as (s1 & -> & B1 & _); [cbn; lia|destruct fing; [exact f2_0_bounded|cbn; lia]|lia..|].
  cbn [mbind result_bind].
  destruct (num_add_bounded s1 (if reg then Float f0_8 else Int 0) (z + 2) 1)
    as (s2 & -> & B2 & _); [exact B1|destruct reg; [exact f0_8_bounded|cbn; lia]|lia..|].
  cbn [mbind result_bind].
  destruct (num_add_bounded s2 (Float d) (z + 2 + 1) k)
    as (s3 & -> & B3 & Hfl); [exact B2|exact Hd|lia..|].
  destruct (Hfl d eq_refl) as [c ->]. exists c. split; [reflexivity|].
  cbn in B3. replace (z + 3 + k) with (z + 2 + 1 + k) by lia. exact B3.
Qed.

Lemma register_cost_cases hand pitch :
  exists reg : bool, register_cost hand pitch = if reg then Float f0_8 else Int 0.
Proof.
  destruct hand; cbn.
  - exists (60 <=? pitch). reflexivity.
  - exists (pitch <? 60). reflexivity.
Qed.

Lemma span_cost_range P new_min new_max allowed_spread :
  - P <= new_min <= P -> - P <= new_max <= P -> - P <= allowed_spread <= P ->
  0 <= Z.max 0 (new_max - new_min - allowed_spread) ^ 2 <= 9 * P ^ 2.
Proof.
  intros H1 H2 H3.
  set (x := Z.max 0 (new_max - new_min - allowed_spread)).
  assert (0 <= x <= 3 * P) by lia.
  rewrite !Z.pow_2_r. nia.
Qed.

Lemma assigned_hand_notes_In start hand items previous_notes x :
  In x (assigned_hand_notes start hand items previous_notes) -> In x previous_notes.
Proof.
  induction items as [|[[j h] p] items IH]; [simpl; tauto|cbn [assigned_hand_notes]].
  destruct (length previous_notes <=? j)%nat; [exact IH|].
  destruct (decide (h = hand)); [|exact IH].
  destruct (previous_notes !! j) as [y|] eqn:Ey; [|exact IH].
  destruct (Qlt_le_dec start (n2 y)); [|exact IH].
  intros [<-|H]; [|auto].
  apply list_elem_of_In. eapply list_elem_of_lookup_2, Ey.
Qed.

(** The cost of one note in one hand, when every pitch in sight and the
    allowed spread lie within [P] of zero: a float, at most
    [9 P^2 + 3 + K] when at most [K] notes are active. *)
Lemma cost_in_range P K hand (state_min state_max : Z) (current_pitches : list Z)
    (pitch allowed_spread : Z) (fing : bool) :
  - P <= pitch <= P -> - P <= state_min <= P -> - P <= state_max <= P ->
  - P <= allowed_spread <= P ->
  len current_pitches <= K -> 9 * P ^ 2 + 3 + K < 2 ^ 53 ->
  let new_min := if nonempty current_pitches then Z.min state_min pitch else pitch in
  let new_max := if nonempty current_pitches then Z.max state_max pitch else pitch in
  let new_span := new_max - new_min in
  let span_cost := Z.max 0 (new_span - allowed_spread) ^ 2 in
  exists c,
    (density_cost ← num_mul (Float f0_2) (Int (len current_pitches));
     total_cost span_cost (if fing then Float f2_0 else Int 0) (register_cost hand pitch)
                density_cost) = Ok (Float c)
    /\ bounded_by c (9 * P ^ 2 + 3 + K).
Proof.
  intros Hp Hmin Hmax Hsp HK Hbudget new_min new_max new_span span_cost.
  assert (Hlen : 0 <= len current_pitches) by (unfold len; lia).
  assert (Hspan : 0 <= span_cost <= 9 * P ^ 2).
  { subst span_cost new_span. apply span_cost_range; [| |exact Hsp].
    - subst new_min. destruct (nonempty current_pitches); lia.
    - subst new_max. destruct (nonempty current_pitches); lia. }
  destruct (density_bounded (len current_pitches) K) as (d & -> & Hd); [lia|lia|].
  cbn [mbind result_bind].
  destruct (register_cost_cases hand pitch) as [reg ->].
  destruct (total_cost_bounded span_cost fing reg d K) as (c & -> & Hc); [lia|lia|lia|exact Hd|].
  exists c. split; [reflexivity|]. eapply bounded_by_mono; [|exact Hc]. lia.
Qed.

(** ** The greedy pass *)

Lemma total_cost_is_float z fc rc d c :
  total_cost z fc rc (Float d) = Ok c -> exists x, c = Float x.
Proof.
  unfold total_cost.
  destruct (num_add (Int z) fc) as [s1|]; cbn [mbind result_bind]; [|discriminate].
  destruct (num_add s1 rc) as [s2|]; cbn [mbind result_bind]; [|discriminate].
  destruct s2 as [z2|f2]; cbn [num_add to_float mbind result_bind].
  - destruct (float_of_int z2); cbn; [|discriminate]. intros [= <-]. eauto.
  - intros [= <-]. eauto.
Qed.

Lemma density_is_float k d :
  num_mul (Float f0_2) (Int k) = Ok d -> exists x, d = Float x.
Proof.
  cbn [num_mul to_float mbind result_bind].
  destruct (float_of_int k); cbn; [|discriminate]. intros [= <-]. eauto.
Qed.

Lemma greedy_cost_is_float hand state current_pitches pitch max_fingers allowed_spread c :
  greedy_cost hand state current_pitches pitch max_fingers allowed_spread = Ok c ->
  exists x, c = Float x.
Proof.
  unfold greedy_cost.
  destruct (num_mul (Float f0_2) (Int (len current_pitches))) as [d|] eqn:Ed;
    cbn [mbind result_bind]; [|discriminate].
  destruct (density_is_float _ _ Ed) as [x ->]. apply total_cost_is_float.
Qed.

Lemma greedy_costs_are_floats st n max_fingers allowed_spread v :
  greedy_costs st n max_fingers allowed_spread = Ok v ->
  exists cl cr, cost_left v = Float cl /\ cost_right v = Float cr.
Proof.
  destruct n as [[[pitch start] e] velocity]. unfold greedy_costs.
  destruct (greedy_cost Left _ _ _ _ _) as [cl|] eqn:El; cbn [mbind result_bind]; [|discriminate].
  destruct (greedy_cost Right _ _ _ _ _) as [cr|] eqn:Er; cbn [mbind result_bind]; [|discriminate].
  intros [= <-]. cbn.
  destruct (greedy_cost_is_float _ _ _ _ _ _ _ El) as [x ->].
  destruct (greedy_cost_is_float _ _ _ _ _ _ _ Er) as [y ->]. eauto.
Qed.

(** The hysteresis rule on two floats. *)
Definition float_choice (cl cr : float) (n_left n_right : nat) : hand_label :=
  if SFltb cl (mul cr f0_9) then Left
  else if SFltb cr (mul cl f0_9) then Right
  else if (n_right <? n_left)%nat then Right
  else Left.

Lemma greedy_choice_floats cl cr n_left n_right :
  greedy_choice (Float cl) (Float cr) n_left n_right = Ok (float_choice cl cr n_left n_right).
Proof.
  unfold greedy_choice, float_choice, num_ltb.
  cbn [num_mul to_float mbind result_bind num_compare]. unfold SFltb.
  destruct (SFcompare cl (mul cr f0_9)) as [[| |]|]; try reflexivity;
    destruct (SFcompare cr (mul cl f0_9)) as [[| |]|]; try reflexivity;
    destruct (n_right <? n_left)%nat; reflexivity.
Qed.

Lemma greedy_step_success max_fingers allowed_spread st n v :
  greedy_costs st n max_fingers allowed_spread = Ok v ->
  exists cl cr,
    cost_left v = Float cl /\ cost_right v = Float cr
    /\ greedy_step max_fingers allowed_spread st n
       = Ok (greedy_place st v n
               (float_choice cl cr (length (left_hand st)) (length (right_hand st)))).
Proof.
  intros Hv. destruct (greedy_costs_are_floats _ _ _ _ _ Hv) as (cl & cr & El & Er).
  exists cl, cr. split; [exact El|]. split; [exact Er|].
  unfold greedy_step. rewrite Hv. cbn [mbind result_bind].
  rewrite El, Er, greedy_choice_floats. reflexivity.
Qed.

Lemma greedy_step_inv max_fingers allowed_spread st n st' :
  greedy_step max_fingers allowed_spread st n = Ok st' ->
  exists v h, greedy_costs st n max_fingers allowed_spread = Ok v
              /\ st' = greedy_place st v n h.
Proof.
  unfold greedy_step.
  destruct (greedy_costs st n max_fingers allowed_spread) as [v|]; cbn [mbind result_bind];
    [|discriminate].
  destruct (greedy_choice _ _ _ _) as [h|]; cbn [mbind result_bind]; [|discriminate].
  intros [= <-]. eauto.
Qed.

Lemma greedy_place_hands st v n h :
  (left_hand (greedy_place st v n h) = left_hand st ++ [n]
   /\ right_hand (greedy_place st v n h) = right_hand st /\ h = Left)
  \/ (left_hand (greedy_place st v n h) = left_hand st
      /\ right_hand (greedy_place st v n h) = right_hand st ++ [n] /\ h = Right).
Proof. destruct h; cbn; auto. Qed.

(** A run that has raised stays raised. *)
Lemma greedy_fold_raise max_fingers allowed_spread notes e :
  fold_left (fun acc n => st ← acc; greedy_step max_fingers allowed_spread st n)
            notes (Raise e) = Raise e.
Proof. induction notes as [|n notes IH]; [reflexivity|exact IH]. Qed.

(** What a run that returns has done to the two lists: each grew at its
    end, by a subsequence of the notes, and the two subsequences share the
    notes between them. *)
Lemma greedy_fold_returns max_fingers allowed_spread notes : forall st final,
  fold_left (fun acc n => st ← acc; greedy_step max_fingers allowed_spread st n)
            notes (Ok st) = Ok final ->
  exists l r,
    left_hand final = left_hand st ++ l /\ right_hand final = right_hand st ++ r
    /\ Permutation (l ++ r) notes /\ sublist l notes /\ sublist r notes.
Proof.
  induction notes as [|n notes IH]; intros st final; cbn [fold_left].
  - intros [= <-]. exists [], []. rewrite !app_nil_r. repeat split; constructor.
  - cbn [mbind result_bind].
    destruct (greedy_step max_fingers allowed_spread st n) as [st'|e] eqn:Es;
      [|rewrite greedy_fold_raise; discriminate].
    intros Hfold. destruct (IH _ _ Hfold) as (l & r & Hl & Hr & HP & Sl & Sr).
    destruct (greedy_step_inv _ _ _ _ _ Es) as (v & h & _ & ->).
    destruct (greedy_place_hands st v n h) as [(El & Er & _)|(El & Er & _)];
      rewrite El, Er in *.
    + exists (n :: l), r. rewrite <- app_assoc in Hl.
      split; [exact Hl|]. split; [exact Hr|].
      split; [simpl; now constructor|]. split; [now constructor|now constructor].
    + exists l, (n :: r). rewrite <- app_assoc in Hr.
      split; [exact Hl|]. split; [exact Hr|].
      split; [rewrite <- Permutation_middle; now constructor|].
      split; [now constructor|now constructor].
Qed.

Lemma greedy_returns_partition midi_data max_fingers allowed_spread out :
  assign_notes_to_hands midi_data max_fingers allowed_spread = Ok out ->
  Permutation (fst out ++ snd out) (extract_notes midi_data)
  /\ sublist (fst out) (sort_notes (extract_notes midi_data))
  /\ sublist (snd out) (sort_notes (extract_notes midi_data)).
Proof.
  unfold assign_notes_to_hands, greedy_run.
  destruct (fold_left _ _ _) as [final|] eqn:E; cbn [mbind result_bind]; [|discriminate].
  intros [= <-]. cbn [fst snd].
  destruct (greedy_fold_returns _ _ _ _ _ E) as (l & r & -> & -> & HP & Sl & Sr).
  cbn. split; [|split; assumption].
  rewrite HP. apply sort_notes_perm.
Qed.

Lemma greedy_cost_in_range P K hand pitches_state current_pitches pitch max_fingers allowed_spread :
  - P <= pitch <= P -> Forall (fun p => - P <= p <= P) pitches_state ->
  - P <= allowed_spread <= P ->
  len current_pitches <= K -> 9 * P ^ 2 + 3 + K < 2 ^ 53 ->
  exists c,
    greedy_cost hand (make_state pitches_state pitch) current_pitches pitch
                max_fingers allowed_spread = Ok (Float c)
    /\ bounded_by c (9 * P ^ 2 + 3 + K).
Proof.
  intros Hp Hst Hsp HK Hb. unfold greedy_cost.
  apply (cost_in_range P K hand); try assumption; cbn [make_state min_pitch max_pitch].
  - now apply py_min_bounds.
  - now apply py_max_bounds.
Qed.

Definition pitches_within (P : Z) (l : list note) : Prop :=
  Forall (fun n => - P <= n0 n <= P) l.

Lemma pitches_within_map P l : pitches_within P l -> Forall (fun p => - P <= p <= P) (map n0 l).
Proof. intros H. apply List.Forall_map. exact H. Qed.

Lemma greedy_step_in_range P K max_fingers allowed_spread st n :
  - P <= n0 n <= P -> - P <= allowed_spread <= P ->
  pitches_within P (active_left st) -> pitches_within P (active_right st) ->
  len (active_right st) <= K -> 9 * P ^ 2 + 3 + K < 2 ^ 53 ->
  exists st',
    greedy_step max_fingers allowed_spread st n = Ok st'
    /\ pitches_within P (active_left st') /\ pitches_within P (active_right st')
    /\ len (active_right st') <= len (active_right st) + 1.
Proof.
  intros Hn Hsp Hal Har HK Hb.
  destruct n as [[[pitch start] e] velocity]. cbn [n0] in Hn.
  set (n := (pitch, start, e, velocity)).
  set (al := prune (active_left st) start).
  set (ar := prune (active_right st) start).
  assert (Hal' : pitches_within P al) by (apply prune_Forall, Hal).
  assert (Har' : pitches_within P ar) by (apply prune_Forall, Har).
  assert (Hlen : len (map n0 ar) <= K).
  { unfold len in *. rewrite length_map. pose proof (prune_length (active_right st) start).
    fold ar in H. lia. }
  destruct (greedy_cost_in_range P K Left (map n0 al) (map n0 ar) pitch max_fingers
              allowed_spread Hn (pitches_within_map _ _ Hal') Hsp Hlen Hb) as (cl & Ecl & _).
  destruct (greedy_cost_in_range P K Right (map n0 ar) (map n0 ar) pitch max_fingers
              allowed_spread Hn (pitches_within_map _ _ Har') Hsp Hlen Hb) as (cr & Ecr & _).
  assert (Hv : greedy_costs st n max_fingers allowed_spread
               = Ok {| pruned_left := al; pruned_right := ar;
                       cost_left := Float cl; cost_right := Float cr |}).
  { unfold greedy_costs, n. fold al ar. rewrite Ecl. cbn [mbind result_bind].
    rewrite Ecr. reflexivity. }
  destruct (greedy_step_success _ _ _ _ _ Hv) as (cl' & cr' & _ & _ & ->).
  eexists. split; [reflexivity|].
  assert (Hn' : pitches_within P [n]) by (constructor; [exact Hn|constructor]).
  assert (Hpr : len ar <= len (active_right st)).
  { unfold len. pose proof (prune_length (active_right st) start). fold ar in H. lia. }
  destruct (float_choice _ _ _ _); cbn [greedy_place active_left active_right pruned_left pruned_right].
  - split; [apply Forall_app; split; assumption|]. split; [exact Har'|lia].
  - split; [exact Hal'|]. split; [apply Forall_app; split; assumption|].
    unfold len in *. rewrite length_app. simpl. lia.
Qed.

Lemma greedy_fold_in_range P K max_fingers allowed_spread notes : forall st,
  pitches_within P notes -> - P <= allowed_spread <= P ->
  pitches_within P (active_left st) -> pitches_within P (active_right st) ->
  len (active_right st) + len notes <= K -> 9 * P ^ 2 + 3 + K < 2 ^ 53 ->
  exists final,
    fold_left (fun acc n => st ← acc; greedy_step max_fingers allowed_spread st n)
              notes (Ok st) = Ok final.
Proof.
  induction notes as [|n notes IH]; intros st Hnotes Hsp Hal Har HK Hb; cbn [fold_left].
  - eauto.
  - inversion Hnotes as [|? ? Hn Hrest]; subst.
    assert (Hlen : len (n :: notes) = len notes + 1) by (unfold len; simpl; lia).
    assert (0 <= len notes) by (unfold len; lia).
    destruct (greedy_step_in_range P K max_fingers allowed_spread st n Hn Hsp Hal Har)
      as (st' & Es & Hal' & Har' & Hgrow); [lia|exact Hb|].
    cbn [mbind result_bind]. rewrite Es.
    apply IH; try assumption. lia.
Qed.

Lemma in_range_sorted P notes allowed_spread :
  in_range P notes allowed_spread -> in_range P (sort_notes notes) allowed_spread.
Proof.
  intros (Hp & Hsp & Hb). unfold in_range, len in *. rewrite sort_notes_length.
  split; [|split; assumption].
  rewrite List.Forall_forall in *. intros x Hx. apply Hp.
  eapply Permutation_in; [apply sort_notes_perm|exact Hx].
Qed.

Lemma in_range_budget P notes allowed_spread :
  in_range P notes allowed_spread -> notes <> [] ->
  9 * P ^ 2 + 3 + len notes < 2 ^ 53.
Proof.
  intros (_ & _ & Hb) Hne.
  assert (1 <= len notes) by (unfold len; destruct notes; [congruence|simpl; lia]).
  assert (0 <= 9 * P ^ 2) by (rewrite Z.pow_2_r; nia).
  nia.
Qed.

Lemma greedy_returns_in_range P midi_data max_fingers allowed_spread :
  in_range P (extract_notes midi_data) allowed_spread ->
  exists out, assign_notes_to_hands midi_data max_fingers allowed_spread = Ok out.
Proof.
  intros Hr. apply in_range_sorted in Hr.
  unfold assign_notes_to_hands, greedy_run.
  set (notes := sort_notes (extract_notes midi_data)) in *.
  destruct (decide (notes = [])) as [->|Hne]; [cbn; eauto|].
  pose proof (in_range_budget _ _ _ Hr Hne) as Hb. destruct Hr as (Hp & Hsp & _).
  destruct (greedy_fold_in_range P (len notes) max_fingers allowed_spread notes greedy_init)
    as (final & ->); try assumption; try (now constructor).
  - unfold len. cbn [greedy_init active_right length]. lia.
  - cbn. eauto.
Qed.

(** ** The costs are good floats *)

Lemma to_float_good n f : num_good n -> to_float n = Ok f -> good f.
Proof.
  destruct n as [z|g]; cbn [to_float num_good]; intros Hn; [now apply float_of_int_good|].
  now intros [= <-].
Qed.

Lemma add_floats_good x y r :
  num_good x -> num_good y ->
  (a ← to_float x; b ← to_float y; Ok (Float (add a b))) = Ok r -> num_good r.
Proof.
  intros Hx Hy.
  destruct (to_float x) as [fa|] eqn:Ea; cbn [mbind result_bind]; [|discriminate].
  destruct (to_float y) as [fb|] eqn:Eb; cbn [mbind result_bind]; [|discriminate].
  intros [= <-]. cbn [num_good].
  apply add_good; [exact (to_float_good _ _ Hx Ea)|exact (to_float_good _ _ Hy Eb)].
Qed.

Lemma num_add_good x y r :
  num_good x -> num_good y -> num_add x y = Ok r -> num_good r.
Proof.
  intros Hx Hy.
  destruct x as [zx|gx], y as [zy|gy]; cbn [num_add];
    try (now apply add_floats_good).
  intros [= <-]. cbn in *. lia.
Qed.

Lemma f2_0_good : good f2_0.
Proof. split; reflexivity. Qed.

Lemma f0_8_good : good f0_8.
Proof. split; reflexivity. Qed.

Lemma register_cost_good hand pitch : num_good (register_cost hand pitch).
Proof.
  destruct (register_cost_cases hand pitch) as [[|] ->]; [exact f0_8_good|cbn; lia].
Qed.

Lemma density_good k d :
  0 <= k -> num_mul (Float f0_2) (Int k) = Ok d -> exists x, d = Float x /\ good x.
Proof.
  intros Hk. cbn [num_mul to_float mbind result_bind].
  destruct (float_of_int k) as [f|] eqn:E; cbn [mbind result_bind]; [|discriminate].
  intros [= <-]. eexists. split; [reflexivity|].
  apply mul_good_l; [discriminate|]. eapply float_of_int_good; eassumption.
Qed.

Lemma total_cost_good z fc rc d c :
  0 <= z -> num_good fc -> num_good rc -> good d ->
  total_cost z fc rc (Float d) = Ok c -> exists x, c = Float x /\ good x.
Proof.
  intros Hz Hfc Hrc Hd. unfold total_cost.
  destruct (num_add (Int z) fc) as [s1|] eqn:E1; cbn [mbind result_bind]; [|discriminate].
  destruct (num_add s1 rc) as [s2|] eqn:E2; cbn [mbind result_bind]; [|discriminate].
  intros E3.
  pose proof (num_add_good _ _ _ (Hz : num_good (Int z)) Hfc E1) as G1.
  pose proof (num_add_good _ _ _ G1 Hrc E2) as G2.
  pose proof (num_add_good _ _ _ G2 (Hd : num_good (Float d)) E3) as G3.
  destruct (total_cost_is_float z fc rc d c) as [x ->].
  { unfold total_cost. rewrite E1. cbn [mbind result_bind]. rewrite E2. exact E3. }
  eauto.
Qed.

Lemma greedy_cost_good hand state current_pitches pitch max_fingers allowed_spread c :
  greedy_cost hand state current_pitches pitch max_fingers allowed_spread = Ok c ->
  exists x, c = Float x /\ good x.
Proof.
  unfold greedy_cost.
  destruct (num_mul (Float f0_2) (Int (len current_pitches))) as [d|] eqn:Ed;
    cbn [mbind result_bind]; [|discriminate].
  assert (Hk : 0 <= len current_pitches) by (unfold len; lia).
  destruct (density_good _ _ Hk Ed) as (x & -> & Hx).
  apply total_cost_good; try assumption.
  - apply Z.pow_nonneg. lia.
  - destruct (_ && _); [exact f2_0_good|cbn; lia].
  - apply register_cost_good.
Qed.

Lemma greedy_costs_good st n max_fingers allowed_spread v :
  greedy_costs st n max_fingers allowed_spread = Ok v ->
  exists cl cr, cost_left v = Float cl /\ cost_right v = Float cr /\ good cl /\ good cr.
Proof.
  destruct n as [[[pitch start] e] velocity]. unfold greedy_costs.
  destruct (greedy_cost Left _ _ _ _ _) as [cl|] eqn:El; cbn [mbind result_bind]; [|discriminate].
  destruct (greedy_cost Right _ _ _ _ _) as [cr|] eqn:Er; cbn [mbind result_bind]; [|discriminate].
  intros [= <-]. cbn [cost_left cost_right].
  destruct (greedy_cost_good _ _ _ _ _ _ _ El) as (x & -> & Hx).
  destruct (greedy_cost_good _ _ _ _ _ _ _ Er) as (y & -> & Hy). eauto 6.
Qed.

(** ** The DP table: one note *)

Lemma relax_closed i hand c st prev_hand prev_row t :
  dp st !! (Z.of_nat i - 1) = Some prev_row ->
  num_add (row_get prev_row prev_hand) c = Ok t ->
  let r := default default_row (dp st !! Z.of_nat i) in
  relax i hand c st prev_hand
  = if num_ltb t (row_get r hand) then
      Ok {| dp := <[Z.of_nat i := row_set r hand t]> (dp st);
            hand_assignment := dict_set (i, hand) prev_hand (hand_assignment st) |}
    else
      Ok {| dp := <[Z.of_nat i := r]> (dp st); hand_assignment := hand_assignment st |}.
Proof.
  intros Hprev Ht r. unfold relax, defaultdict_get. rewrite Hprev, Ht.
  cbn [mbind result_bind]. subst r.
  destruct (dp st !! Z.of_nat i) as [r0|] eqn:Ei; unfold default; cbn [from_option id].
  - destruct (num_ltb t (row_get r0 hand)); [reflexivity|].
    now rewrite insert_id.
  - destruct (num_ltb t (row_get default_row hand)); [|reflexivity].
    now rewrite insert_insert_eq.
Qed.

Lemma dp_hand_step_closed notes max_fingers allowed_spread i cur st hand a b r c tl tr :
  dp st !! (Z.of_nat i - 1) = Some {| left_cost := a; right_cost := b |} ->
  r = default default_row (dp st !! Z.of_nat i) ->
  row_get r hand = Float inf ->
  dict_get (i, hand) (hand_assignment st) = None ->
  calculate_cost cur hand (hand_assignment st) (firstn i notes) max_fingers allowed_spread
  = Ok c ->
  num_add a c = Ok tl -> num_add b c = Ok tr ->
  num_ltb tl (Float inf) = true ->
  dp_hand_step notes max_fingers allowed_spread i cur st hand
  = Ok {| dp := <[Z.of_nat i := row_set r hand (pick_total tl tr (chosen_prev tl tr))]> (dp st);
          hand_assignment := hand_assignment st ++ [(i, hand, chosen_prev tl tr)] |}.
Proof.
  intros Hprev -> Hinf Hfresh Hc Htl Htr Hfin.
  assert (Hne : Z.of_nat i - 1 ≠ Z.of_nat i) by lia.
  assert (Hg : forall r0 v, row_get (row_set r0 hand v) hand = v)
    by (intros; destruct hand; reflexivity).
  assert (Hss : forall r0 v w, row_set (row_set r0 hand v) hand w = row_set r0 hand w)
    by (intros; destruct hand; reflexivity).
  unfold dp_hand_step. rewrite Hc. cbn [mbind result_bind].
  rewrite (relax_closed i hand c st Left _ tl Hprev Htl). cbn zeta.
  rewrite Hinf, Hfin. cbn [mbind result_bind].
  set (r := default default_row (dp st !! Z.of_nat i)) in *.
  set (st1 := {| dp := _; hand_assignment := _ |}).
  assert (Hprev1 : dp st1 !! (Z.of_nat i - 1) = Some {| left_cost := a; right_cost := b |}).
  { subst st1. cbn [dp]. now rewrite lookup_insert_ne by lia. }
  rewrite (relax_closed i hand c st1 Right _ tr Hprev1 Htr). cbn zeta.
  subst st1. cbn [dp hand_assignment]. rewrite lookup_insert_eq.
  unfold default at 1 2. cbn [from_option id].
  rewrite Hg, (dict_set_fresh _ _ _ Hfresh).
  unfold chosen_prev. destruct (num_ltb tr tl); cbn [pick_total].
  - rewrite insert_insert_eq, Hss, (dict_set_last _ _ _ _ Hfresh). reflexivity.
  - rewrite insert_insert_eq. reflexivity.
Qed.

Lemma calculate_cost_same_active n hand items items' previous_notes max_fingers allowed_spread :
  assigned_hand_notes (n1 n) hand items previous_notes
  = assigned_hand_notes (n1 n) hand items' previous_notes ->
  calculate_cost n hand items previous_notes max_fingers allowed_spread
  = calculate_cost n hand items' previous_notes max_fingers allowed_spread.
Proof.
  intros H. destruct n as [[[pitch start] e] velocity]. unfold calculate_cost.
  cbn [n1] in H. now rewrite H.
Qed.

Lemma calculate_cost_app_skip n hand d e previous_notes max_fingers allowed_spread :
  Forall (fun item => (length previous_notes <= fst (fst item))%nat) e ->
  calculate_cost n hand (d ++ e) previous_notes max_fingers allowed_spread
  = calculate_cost n hand d previous_notes max_fingers allowed_spread.
Proof.
  intros He. apply calculate_cost_same_active.
  rewrite assigned_hand_notes_app, (assigned_hand_notes_skip _ _ _ _ He). apply app_nil_r.
Qed.

Lemma dp_note_step_closed notes max_fingers allowed_spread i cur st a b
    cl cr tll trl tlr trr :
  notes !! i = Some cur ->
  dp st !! (Z.of_nat i - 1) = Some {| left_cost := a; right_cost := b |} ->
  dp st !! Z.of_nat i = None ->
  map fst (hand_assignment st) = keys_upto i ->
  calculate_cost cur Left (hand_assignment st) (take i notes) max_fingers allowed_spread
  = Ok cl ->
  calculate_cost cur Right (hand_assignment st) (take i notes) max_fingers allowed_spread
  = Ok cr ->
  num_add a cl = Ok tll -> num_add b cl = Ok trl ->
  num_add a cr = Ok tlr -> num_add b cr = Ok trr ->
  num_ltb tll (Float inf) = true -> num_ltb tlr (Float inf) = true ->
  dp_note_step notes max_fingers allowed_spread (Ok st) i
  = Ok {| dp := <[Z.of_nat i :=
                    {| left_cost := pick_total tll trl (chosen_prev tll trl);
                       right_cost := pick_total tlr trr (chosen_prev tlr trr) |}]> (dp st);
          hand_assignment := hand_assignment st ++ [(i, Left, chosen_prev tll trl);
                                                    (i, Right, chosen_prev tlr trr)] |}.
Proof.
  intros Hcur Hprev Hnone Hkeys Hcl Hcr Htll Htrl Htlr Htrr Hfl Hfr.
  assert (Hlen : length (take i notes) = i).
  { apply lookup_lt_Some in Hcur. rewrite length_take. lia. }
  unfold dp_note_step. cbn [mbind result_bind]. rewrite Hcur. cbn [from_option mbind result_bind].
  rewrite (dp_hand_step_closed notes max_fingers allowed_spread i cur st Left a b default_row
             cl tll trl Hprev); cycle 1.
  { now rewrite Hnone. }
  { reflexivity. }
  { apply (keys_upto_fresh _ i); [exact Hkeys|lia]. }
  { exact Hcl. }
  { exact Htll. }
  { exact Htrl. }
  { exact Hfl. }
  cbn [mbind result_bind].
  set (st1 := {| dp := _; hand_assignment := _ |}).
  rewrite (dp_hand_step_closed notes max_fingers allowed_spread i cur st1 Right a b
             (row_set default_row Left (pick_total tll trl (chosen_prev tll trl)))
             cr tlr trr); cycle 1.
  { subst st1. cbn [dp]. rewrite lookup_insert_ne by lia. exact Hprev. }
  { subst st1. cbn [dp]. now rewrite lookup_insert_eq. }
  { reflexivity. }
  { subst st1. cbn [hand_assignment]. rewrite dict_get_app.
    rewrite (keys_upto_fresh _ i i Right Hkeys) by lia. cbn [dict_get].
    destruct (decide ((i, Left) = (i, Right))); [discriminate|reflexivity]. }
  { subst st1. cbn [hand_assignment]. rewrite calculate_cost_app_skip; [exact Hcr|].
    constructor; [cbn; lia|constructor]. }
  { exact Htlr. }
  { exact Htrr. }
  { exact Hfr. }
  subst st1. cbn [dp hand_assignment].
  rewrite insert_insert_eq, <- app_assoc. reflexivity.
Qed.

Lemma calculate_cost_in_range P K n hand items previous_notes max_fingers allowed_spread :
  - P <= n0 n <= P -> pitches_within P previous_notes -> - P <= allowed_spread <= P ->
  len (assigned_hand_notes (n1 n) hand items previous_notes) <= K ->
  9 * P ^ 2 + 3 + K < 2 ^ 53 ->
  exists c,
    calculate_cost n hand items previous_notes max_fingers allowed_spread = Ok (Float c)
    /\ bounded_by c (9 * P ^ 2 + 3 + K).
Proof.
  intros Hn Hprev Hsp HK Hb. destruct n as [[[pitch start] e] velocity].
  cbn [n0 n1] in Hn, HK. unfold calculate_cost.
  set (active := assigned_hand_notes start hand items previous_notes) in *.
  assert (Hact : Forall (fun p => - P <= p <= P) (map n0 active)).
  { apply pitches_within_map. unfold pitches_within in *. rewrite List.Forall_forall in *.
    intros x Hx. apply Hprev. eapply assigned_hand_notes_In, Hx. }
  apply (cost_in_range P K hand); try assumption; cbn [make_state min_pitch max_pitch].
  - now apply py_min_bounds.
  - now apply py_max_bounds.
  - unfold len in *. now rewrite length_map.
Qed.

(** ** The DP table: the forward loop *)

Lemma dp_invariant_init notes max_fingers allowed_spread C :
  dp_invariant notes max_fingers allowed_spread C 0 dp_init.
Proof.
  split; cbn [dp_init dp hand_assignment].
  - apply lookup_insert_eq.
  - intros j _. rewrite lookup_insert_ne by lia. apply lookup_empty.
  - reflexivity.
  - intros i Hi. lia.
  - intros r Hr h. change (Z.of_nat 0 - 1) with (-1) in Hr.
    rewrite lookup_insert_eq in Hr. injection Hr as <-. destruct h; cbn; lia.
Qed.

Lemma dp_prev_row notes max_fingers allowed_spread C k st :
  dp_invariant notes max_fingers allowed_spread C k st ->
  exists a b, dp st !! (Z.of_nat k - 1) = Some {| left_cost := a; right_cost := b |}
              /\ num_bounded_by a (Z.of_nat k * C) /\ num_bounded_by b (Z.of_nat k * C).
Proof.
  intros Inv.
  assert (Hrow : exists r, dp st !! (Z.of_nat k - 1) = Some r).
  { destruct k as [|k].
    - exists zero_row. exact (inv_base _ _ _ _ _ _ Inv).
    - destruct (inv_entries _ _ _ _ _ _ Inv k) as (cur & a & b & r & _ & _ & Hr & _); [lia|].
      exists r. replace (Z.of_nat (S k) - 1) with (Z.of_nat k) by lia. exact Hr. }
  destruct Hrow as [[a b] Hr]. exists a, b. split; [exact Hr|].
  split; [exact (inv_bound _ _ _ _ _ _ Inv _ Hr Left)|exact (inv_bound _ _ _ _ _ _ Inv _ Hr Right)].
Qed.

Lemma sounding_length start l : (length (sounding start l) <= length l)%nat.
Proof. unfold sounding. apply List.filter_length_le. Qed.

Lemma pick_total_bounded tl tr p N :
  num_bounded_by tl N -> num_bounded_by tr N -> num_bounded_by (pick_total tl tr p) N.
Proof. destruct p; auto. Qed.

Section ForwardLoop.
Variables (P : Z) (notes : list note) (max_fingers allowed_spread : Z).
Hypothesis range : in_range P notes allowed_spread.

Let C := 9 * P ^ 2 + 3 + len notes.

(** What the loop computes at index [k]: the two costs and the four
    candidate totals, all of them floats in range. *)
Lemma dp_step_data k st :
  (k < length notes)%nat ->
  dp_invariant notes max_fingers allowed_spread C k st ->
  exists cur a b cl cr tll trl tlr trr,
    notes !! k = Some cur
    /\ dp st !! (Z.of_nat k - 1) = Some {| left_cost := a; right_cost := b |}
    /\ calculate_cost cur Left (hand_assignment st) (take k notes)
                      max_fingers allowed_spread = Ok (Float cl)
    /\ calculate_cost cur Right (hand_assignment st) (take k notes)
                      max_fingers allowed_spread = Ok (Float cr)
    /\ num_add a (Float cl) = Ok (Float tll) /\ num_add b (Float cl) = Ok (Float trl)
    /\ num_add a (Float cr) = Ok (Float tlr) /\ num_add b (Float cr) = Ok (Float trr)
    /\ bounded_by tll (Z.of_nat (S k) * C) /\ bounded_by trl (Z.of_nat (S k) * C)
    /\ bounded_by tlr (Z.of_nat (S k) * C) /\ bounded_by trr (Z.of_nat (S k) * C).
Proof.
  intros Hk Inv.
  destruct range as (Hp & Hsp & Hbudget).
  assert (Hne : notes <> []) by (destruct notes; [simpl in Hk; lia|congruence]).
  pose proof (in_range_budget _ _ _ range Hne) as HC. fold C in HC.
  assert (HC0 : 0 <= C).
  { subst C. assert (0 <= 9 * P ^ 2) by (rewrite Z.pow_2_r; nia). unfold len. lia. }
  assert (Hk1 : Z.of_nat k * C + C < 2 ^ 53).
  { fold C in Hbudget. unfold len in Hbudget. nia. }
  destruct (lookup_lt_is_Some_2 notes k Hk) as [cur Hcur].
  destruct (dp_prev_row _ _ _ _ _ _ Inv) as (a & b & Hprev & Ba & Bb).
  pose proof (inv_keys _ _ _ _ _ _ Inv) as Hkeys.
  assert (Hlen : length (take k notes) = k) by (rewrite length_take; lia).
  assert (Hcurp : - P <= n0 cur <= P).
  { unfold pitches_within in Hp. rewrite List.Forall_forall in Hp. apply Hp.
    apply list_elem_of_In. eapply list_elem_of_lookup_2, Hcur. }
  assert (Hprevp : pitches_within P (take k notes)).
  { unfold pitches_within. rewrite List.Forall_forall in *. intros x Hx. apply Hp.
    rewrite <- (take_drop k notes). apply in_or_app. now left. }
  assert (Hcost : forall hand, exists c,
            calculate_cost cur hand (hand_assignment st) (take k notes)
                           max_fingers allowed_spread = Ok (Float c)
            /\ bounded_by c C).
  { intros hand. apply (calculate_cost_in_range P (len notes)); try assumption.
    rewrite (assigned_hand_notes_all _ _ _ _ k) by (try exact Hkeys; lia).
    unfold len. pose proof (sounding_length (n1 cur) (take k notes)). lia. }
  destruct (Hcost Left) as (cl & Ecl & Bcl). destruct (Hcost Right) as (cr & Ecr & Bcr).
  assert (Hsum : forall x c, num_bounded_by x (Z.of_nat k * C) -> bounded_by c C ->
            exists t, num_add x (Float c) = Ok (Float t)
                      /\ bounded_by t (Z.of_nat (S k) * C)).
  { intros x c Bx Bc.
    destruct (num_add_bounded x (Float c) (Z.of_nat k * C) C Bx Bc) as (r & -> & Br & Hfl);
      [nia|lia|lia|].
    destruct (Hfl c eq_refl) as [t ->]. exists t. split; [reflexivity|].
    cbn in Br. replace (Z.of_nat (S k) * C) with (Z.of_nat k * C + C) by lia. exact Br. }
  destruct (Hsum a cl Ba Bcl) as (tll & Etll & Btll).
  destruct (Hsum b cl Bb Bcl) as (trl & Etrl & Btrl).
  destruct (Hsum a cr Ba Bcr) as (tlr & Etlr & Btlr).
  destruct (Hsum b cr Bb Bcr) as (trr & Etrr & Btrr).
  exists cur, a, b, cl, cr, tll, trl, tlr, trr. repeat (split; [assumption|]). assumption.
Qed.


Lemma dp_invariant_step k st :
  (k < length notes)%nat ->
  dp_invariant notes max_fingers allowed_spread C k st ->
  exists st', dp_note_step notes max_fingers allowed_spread (Ok st) k = Ok st'
              /\ dp_invariant notes max_fingers allowed_spread C (S k) st'.
Proof.
  intros Hk Inv.
  destruct (dp_step_data k st Hk Inv)
    as (cur & a & b & cl & cr & tll & trl & tlr & trr & Hcur & Hprev & Ecl & Ecr
        & Etll & Etrl & Etlr & Etrr & Btll & Btrl & Btlr & Btrr).
  pose proof (inv_keys _ _ _ _ _ _ Inv) as Hkeys.
  pose proof (inv_later _ _ _ _ _ _ Inv k (Nat.le_refl k)) as Hnone.
  eexists. split.
  { apply (dp_note_step_closed _ _ _ _ _ _ a b _ _ _ _ _ _ Hcur Hprev Hnone Hkeys
             Ecl Ecr Etll Etrl Etlr Etrr);
      eapply bounded_by_finite; eassumption. }
  set (pl := chosen_prev (Float tll) (Float trl)).
  set (pr := chosen_prev (Float tlr) (Float trr)).
  set (new := [(k, Left, pl); (k, Right, pr)]).
  assert (Hskip : forall i, (i <= k)%nat ->
            Forall (fun item => (length (take i notes) <= fst (fst item))%nat) new).
  { intros i Hi. rewrite length_take. subst new. repeat constructor; cbn; lia. }
  split; cbn [dp hand_assignment].
  - rewrite lookup_insert_ne by lia. exact (inv_base _ _ _ _ _ _ Inv).
  - intros j Hj. rewrite lookup_insert_ne by lia. apply (inv_later _ _ _ _ _ _ Inv). lia.
  - rewrite map_app, Hkeys, keys_upto_S. reflexivity.
  - intros i Hi. unfold dp_entry_ok. cbn [dp hand_assignment].
    destruct (decide (i = k)) as [->|Hnek].
    + exists cur, a, b. eexists.
      split; [exact Hcur|].
      split; [rewrite lookup_insert_ne by lia; exact Hprev|].
      split; [apply lookup_insert_eq|].
      intros hand. fold new.
      rewrite (calculate_cost_app_skip _ _ _ _ _ _ _ (Hskip k (Nat.le_refl k))).
      destruct hand.
      * exists (Float cl), (Float tll), (Float trl).
        do 3 (split; [assumption|]).
        split; [exists tll, trl; split; [reflexivity|]; split; [reflexivity|];
                split; eapply bounded_by_nonneg; eassumption|].
        split; [|reflexivity].
        rewrite dict_get_app, (keys_upto_fresh _ k k Left Hkeys) by lia.
        subst new. cbn [dict_get].
        destruct (decide ((k, Left) = (k, Left))); [reflexivity|congruence].
      * exists (Float cr), (Float tlr), (Float trr).
        do 3 (split; [assumption|]).
        split; [exists tlr, trr; split; [reflexivity|]; split; [reflexivity|];
                split; eapply bounded_by_nonneg; eassumption|].
        split; [|reflexivity].
        rewrite dict_get_app, (keys_upto_fresh _ k k Right Hkeys) by lia.
        subst new. cbn [dict_get].
        destruct (decide ((k, Left) = (k, Right))); [discriminate|].
        destruct (decide ((k, Right) = (k, Right))); [reflexivity|congruence].
    + destruct (inv_entries _ _ _ _ _ _ Inv i) as (cur' & a' & b' & r & H1 & H2 & H3 & H4); [lia|].
      exists cur', a', b', r.
      split; [exact H1|].
      split; [rewrite lookup_insert_ne by lia; exact H2|].
      split; [rewrite lookup_insert_ne by lia; exact H3|].
      intros hand. fold new.
      rewrite (calculate_cost_app_skip _ _ _ _ _ _ _ (Hskip i ltac:(lia))).
      destruct (H4 hand) as (c & tl & tr & Hc & Htl & Htr & Hf & Hg & Hrow).
      exists c, tl, tr. do 4 (split; [assumption|]). split; [|exact Hrow].
      rewrite dict_get_app, Hg. reflexivity.
  - intros r Hr h. replace (Z.of_nat (S k) - 1) with (Z.of_nat k) in Hr by lia.
    rewrite lookup_insert_eq in Hr. injection Hr as <-.
    destruct h; cbn [row_get left_cost right_cost]; apply pick_total_bounded; assumption.
Qed.

Lemma dp_fill_prefix k :
  (k <= length notes)%nat ->
  exists st, fold_left (dp_note_step notes max_fingers allowed_spread) (seq 0 k) (Ok dp_init)
             = Ok st
             /\ dp_invariant notes max_fingers allowed_spread C k st.
Proof.
  induction k as [|k IH]; intros Hk.
  - exists dp_init. split; [reflexivity|apply dp_invariant_init].
  - destruct IH as (st & Hfold & Inv); [lia|].
    destruct (dp_invariant_step _ _ Hk Inv) as (st' & Hstep & Inv').
    exists st'. split; [|exact Inv'].
    rewrite seq_S, fold_left_app, Hfold. exact Hstep.
Qed.

Lemma dp_fill_total :
  exists st, dp_fill notes max_fingers allowed_spread = Ok st
             /\ dp_invariant notes max_fingers allowed_spread C (length notes) st.
Proof. apply dp_fill_prefix. lia. Qed.

End ForwardLoop.

(** ** The DP table: walking back and assembling the output *)

Lemma backtrack_fold (ha : list (nat * hand_label * hand_label)) m : forall h fha0,
  (forall i h', (i < m)%nat -> is_Some (dict_get (S i, h') ha)) ->
  exists h' fha,
    fold_left (backtrack_step ha) (rev (seq 0 m)) (Ok (h, fha0)) = Ok (h', fha)
    /\ (forall j, (m <= j)%nat -> fha !! j = fha0 !! j)
    /\ (forall i, (i < m)%nat ->
          exists hn, (if decide (S i = m) then hn = h else fha !! S i = Some hn)
                     /\ fha !! i = dict_get (S i, hn) ha).
Proof.
  induction m as [|m IH]; intros h fha0 Hkeys.
  - exists h, fha0. cbn. split; [reflexivity|]. split; [reflexivity|]. intros i Hi. lia.
  - rewrite seq_S, rev_app_distr. cbn [rev app fold_left Nat.add].
    destruct (Hkeys m h (Nat.lt_succ_diag_r m)) as [h1 Hh1].
    cbn [backtrack_step mbind result_bind]. rewrite Hh1. cbn [from_option mbind result_bind].
    destruct (IH h1 (<[m := h1]> fha0)) as (h' & fha & Hfold & Hsame & Hchain).
    { intros i h2 Hi. apply Hkeys. lia. }
    exists h', fha. split; [exact Hfold|]. split.
    + intros j Hj. rewrite Hsame by lia. apply lookup_insert_ne. lia.
    + intros i Hi. destruct (decide (i = m)) as [->|Hne].
      * exists h. split; [destruct (decide (S m = S m)); [reflexivity|congruence]|].
        rewrite Hsame, lookup_insert_eq by lia. now rewrite Hh1.
      * destruct (Hchain i) as (hn & Hnext & Hi'); [lia|].
        exists hn. split; [|exact Hi'].
        destruct (decide (S i = S m)); [lia|].
        destruct (decide (S i = m)) as [E|_]; [|exact Hnext].
        subst hn. rewrite Hsame, E, lookup_insert_eq by lia. reflexivity.
Qed.

Lemma backtrack_total notes max_fingers allowed_spread C st :
  (0 < length notes)%nat ->
  dp_invariant notes max_fingers allowed_spread C (length notes) st ->
  exists fha,
    backtrack st (length notes) = Ok fha
    /\ fha !! (length notes - 1)%nat = Some (pick_final_hand st (length notes))
    /\ (forall i, (S i < length notes)%nat ->
          exists hn, fha !! S i = Some hn
                     /\ fha !! i = dict_get (S i, hn) (hand_assignment st))
    /\ (forall i, (i < length notes)%nat -> is_Some (fha !! i)).
Proof.
  intros Hpos Inv. set (n := length notes) in *.
  pose proof (inv_keys _ _ _ _ _ _ Inv) as Hkeys.
  set (final := pick_final_hand st n).
  destruct (backtrack_fold (hand_assignment st) (n - 1) final (<[(n - 1)%nat := final]> ∅))
    as (h' & fha & Hfold & Hsame & Hchain).
  { intros i h Hi. apply (keys_upto_present _ n); [exact Hkeys|lia]. }
  assert (Hlast : fha !! (n - 1)%nat = Some final).
  { rewrite Hsame by lia. apply lookup_insert_eq. }
  assert (Hwalk : forall i, (S i < n)%nat ->
            exists hn, fha !! S i = Some hn
                       /\ fha !! i = dict_get (S i, hn) (hand_assignment st)).
  { intros i Hi. destruct (Hchain i) as (hn & Hnext & Hi'); [lia|].
    exists hn. split; [|exact Hi'].
    destruct (decide (S i = (n - 1)%nat)) as [E|_]; [|exact Hnext].
    subst hn. now rewrite E. }
  exists fha. split; [|split; [exact Hlast|split; [exact Hwalk|]]].
  - unfold backtrack. fold final. rewrite Hfold. reflexivity.
  - intros i Hi. destruct (decide (i = (n - 1)%nat)) as [->|Hne]; [rewrite Hlast; eauto|].
    destruct (Hwalk i) as (hn & _ & ->); [lia|].
    apply (keys_upto_present _ n); [exact Hkeys|lia].
Qed.

Lemma collect_step_raise notes (fha : gmap nat hand_label) e i :
  collect_step notes fha (Raise e) i = Raise e.
Proof. reflexivity. Qed.

(** The loop of lines 158-163 returns exactly when every index has a
    label, and then it returns the notes of each label in index order. *)
Lemma collect_prefix notes (fha : gmap nat hand_label) k out :
  (k <= length notes)%nat ->
  fold_left (collect_step notes fha) (seq 0 k) (Ok ([], [])) = Ok out
  <-> (forall i, (i < k)%nat -> is_Some (fha !! i))
      /\ out = (flat_map (label_pick Left notes fha) (seq 0 k),
                flat_map (label_pick Right notes fha) (seq 0 k)).
Proof.
  revert out. induction k as [|k IH]; intros out Hk.
  - cbn. split; [intros [= <-]; split; [intros i Hi; lia|reflexivity]|intros [_ ->]; reflexivity].
  - rewrite seq_S, fold_left_app, !flat_map_app. cbn [fold_left Nat.add flat_map].
    rewrite !app_nil_r.
    destruct (lookup_lt_is_Some_2 notes k) as [x Hx]; [lia|].
    destruct (fold_left (collect_step notes fha) (seq 0 k) (Ok ([], []))) as [[l r]|e] eqn:E.
    + destruct (proj1 (IH (l, r) ltac:(lia)) eq_refl) as [Hall Eq].
      injection Eq as -> ->.
      assert (Hpick : forall hand, label_pick hand notes fha k
                = match fha !! k with
                  | Some h => if decide (h = hand) then [x] else []
                  | None => []
                  end) by (intros; unfold label_pick; now rewrite Hx).
      rewrite !Hpick.
      unfold collect_step at 1. cbn [mbind result_bind]. rewrite Hx. cbn [from_option mbind result_bind].
      destruct (fha !! k) as [h|] eqn:Eh; cbn [from_option mbind result_bind].
      * split.
        -- intros [= <-]. split.
           ++ intros i Hi. destruct (decide (i = k)) as [->|]; [rewrite Eh; eauto|apply Hall; lia].
           ++ destruct h; cbn; now rewrite ?app_nil_r.
        -- intros [_ ->]. destruct h; cbn; now rewrite ?app_nil_r.
      * split; [discriminate|]. intros [Hall' _].
        destruct (Hall' k ltac:(lia)) as [h Hh]. congruence.
    + rewrite collect_step_raise. split; [discriminate|]. intros [Hall' _].
      pose proof (proj2 (IH _ ltac:(lia))
                    (conj (fun i (Hi : (i < k)%nat) => Hall' i ltac:(lia)) eq_refl)) as Hbad.
      discriminate Hbad.
Qed.

Lemma labelled_sublist_prefix hand notes (fha : gmap nat hand_label) k :
  (k <= length notes)%nat ->
  sublist (flat_map (label_pick hand notes fha) (seq 0 k)) (take k notes).
Proof.
  induction k as [|k IH]; intros Hk; [constructor|].
  destruct (lookup_lt_is_Some_2 notes k) as [x Hx]; [lia|].
  rewrite seq_S, flat_map_app, (take_S_r _ _ _ Hx). cbn [flat_map Nat.add].
  rewrite app_nil_r. apply sublist_app; [apply IH; lia|].
  unfold label_pick. rewrite Hx. destruct (fha !! k) as [h|]; [|apply sublist_nil_l].
  destruct (decide (h = hand)); [reflexivity|apply sublist_nil_l].
Qed.

Lemma notes_labelled_sublist hand notes (fha : gmap nat hand_label) :
  sublist (notes_labelled hand notes fha) notes.
Proof.
  unfold notes_labelled.
  pose proof (labelled_sublist_prefix hand notes fha (length notes) (Nat.le_refl _)) as H.
  now rewrite firstn_all in H.
Qed.

(** What the DP engine has returned, when it returns. *)
Lemma dp_engine_returns notes max_fingers allowed_spread o :
  dp_engine notes max_fingers allowed_spread = Ok o ->
  Permutation (fst (returned o) ++ snd (returned o)) notes
  /\ sublist (fst (returned o)) notes /\ sublist (snd (returned o)) notes.
Proof.
  unfold dp_engine. destruct (Nat.eqb_spec (length notes) 0) as [E|_].
  - intros [= <-]. cbn. apply nil_length_inv in E. subst notes.
    repeat split; constructor.
  - destruct (dp_fill notes max_fingers allowed_spread) as [st|]; cbn [mbind result_bind];
      [|discriminate].
    destruct (backtrack st (length notes)) as [fha|]; cbn [mbind result_bind]; [|discriminate].
    destruct (collect notes fha) as [out|] eqn:Ec; cbn [mbind result_bind]; [|discriminate].
    intros [= <-]. cbn [returned].
    apply (collect_prefix notes fha (length notes) out (Nat.le_refl _)) in Ec.
    destruct Ec as [Hall ->]. cbn [fst snd].
    split; [exact (notes_labelled_perm notes fha Hall)|].
    split; apply notes_labelled_sublist.
Qed.

Lemma dp_returns_partition midi_data max_fingers allowed_spread out :
  dynamic_programming_assign_hands midi_data max_fingers allowed_spread = Ok out ->
  Permutation (fst out ++ snd out) (extract_notes midi_data)
  /\ sublist (fst out) (sort_notes (extract_notes midi_data))
  /\ sublist (snd out) (sort_notes (extract_notes midi_data)).
Proof.
  unfold dynamic_programming_assign_hands.
  destruct (dp_engine _ _ _) as [o|] eqn:E; cbn [fmap result_fmap]; [|discriminate].
  intros [= <-]. destruct (dp_engine_returns _ _ _ _ E) as (HP & Sl & Sr).
  split; [|split; assumption]. rewrite HP. apply sort_notes_perm.
Qed.

(** The engine on a non-empty sequence in range: it returns, and what it
    returns is read off the tables. *)
Lemma dp_engine_in_range P notes max_fingers allowed_spread :
  in_range P notes allowed_spread -> (0 < length notes)%nat ->
  exists st fha,
    dp_fill notes max_fingers allowed_spread = Ok st
    /\ dp_invariant notes max_fingers allowed_spread (9 * P ^ 2 + 3 + len notes)
                    (length notes) st
    /\ backtrack st (length notes) = Ok fha
    /\ fha !! (length notes - 1)%nat = Some (pick_final_hand st (length notes))
    /\ (forall i, (S i < length notes)%nat ->
          exists hn, fha !! S i = Some hn
                     /\ fha !! i = dict_get (S i, hn) (hand_assignment st))
    /\ (forall i, (i < length notes)%nat -> is_Some (fha !! i))
    /\ dp_engine notes max_fingers allowed_spread
       = Ok {| tables := Some st;
               returned := (notes_labelled Left notes fha,
                            notes_labelled Right notes fha) |}.
Proof.
  intros Hr Hpos.
  destruct (dp_fill_total P notes max_fingers allowed_spread Hr) as (st & Hfill & Inv).
  destruct (backtrack_total _ _ _ _ _ Hpos Inv) as (fha & Hback & Hlast & Hwalk & Hall).
  exists st, fha. repeat (split; [assumption|]).
  unfold dp_engine.
  destruct (Nat.eqb_spec (length notes) 0) as [E|_]; [lia|].
  rewrite Hfill. cbn [mbind result_bind]. rewrite Hback. cbn [mbind result_bind].
  unfold collect.
  rewrite (proj2 (collect_prefix notes fha (length notes) _ (Nat.le_refl _))
             (conj Hall eq_refl)).
  reflexivity.
Qed.

Lemma dp_returns_in_range P midi_data max_fingers allowed_spread :
  in_range P (extract_notes midi_data) allowed_spread ->
  exists out, dynamic_programming_assign_hands midi_data max_fingers allowed_spread = Ok out.
Proof.
  intros Hr. apply in_range_sorted in Hr. unfold dynamic_programming_assign_hands.
  set (notes := sort_notes (extract_notes midi_data)) in *.
  destruct (decide (notes = [])) as [->|Hne]; [cbn; eauto|].
  destruct (dp_engine_in_range P notes max_fingers allowed_spread Hr (length_pos_of_ne _ Hne))
    as (st & fha & _ & _ & _ & _ & _ & _ & ->).
  cbn. eauto.
Qed.

(** ** The history [calculate_cost] reads *)






(** * The claims, in binary64 arithmetic *)

(** C3. The greedy decision rule.  Whenever the two costs of a note are
    computed, they are floats [cl] and [cr], and the note goes to the left
    hand when [cl < cr * 0.9], to the right hand when [cr < cl * 0.9] (the
    two tests never hold together), and otherwise to the hand holding fewer
    notes so far, the left one when the counts are equal.  The note is
    appended to that hand's list at once, and in every continuation of the
    run both lists only grow at the end. *)
Theorem C3_greedy_decision_rule :
  forall (max_fingers allowed_spread : Z) (st : greedy_state) (n : note) (v : greedy_view),
    greedy_costs st n max_fingers allowed_spread = Ok v ->
    decision_rule_at max_fingers allowed_spread st n v.
Proof.
  intros max_fingers allowed_spread st n v Hv.
  destruct (greedy_costs_good _ _ _ _ _ Hv) as (cl & cr & El & Er & Gl & Gr).
  destruct (greedy_step_success _ _ _ _ _ Hv) as (cl' & cr' & El' & Er' & Hstep).
  assert (cl' = cl) by congruence. assert (cr' = cr) by congruence. subst cl' cr'.
  exists cl, cr. eexists. split; [exact El|]. split; [exact Er|]. split; [exact Hstep|].
  cbv zeta.
  set (h := float_choice cl cr (length (left_hand st)) (length (right_hand st))).
  assert (HL : h = Left ->
               left_hand (greedy_place st v n h) = left_hand st ++ [n]
               /\ right_hand (greedy_place st v n h) = right_hand st)
    by (intros ->; split; reflexivity).
  assert (HR : h = Right ->
               left_hand (greedy_place st v n h) = left_hand st
               /\ right_hand (greedy_place st v n h) = right_hand st ++ [n])
    by (intros ->; split; reflexivity).
  split; [|split; [|split]].
  - intros H. apply HL. subst h. unfold float_choice. now rewrite H.
  - intros H. apply HR. subst h. unfold float_choice.
    destruct (SFltb cl (mul cr f0_9)) eqn:E; [|now rewrite H].
    exfalso. exact (hysteresis_exclusive cl cr Gl Gr E H).
  - intros N1 N2.
    assert (E1 : SFltb cl (mul cr f0_9) = false) by (destruct (SFltb cl _); congruence).
    assert (E2 : SFltb cr (mul cl f0_9) = false) by (destruct (SFltb cr _); congruence).
    assert (Eh : h = if (length (right_hand st) <? length (left_hand st))%nat
                     then Right else Left).
    { subst h. unfold float_choice. now rewrite E1, E2. }
    destruct (Nat.ltb_spec (length (right_hand st)) (length (left_hand st))) as [Hlt|Hge].
    + split; [intros; lia|]. split; [intros _; now apply HR|intros; lia].
    + split; [intros _; now apply HL|]. split; [intros; lia|intros _; now apply HL].
  - intros later final Hfold.
    destruct (greedy_fold_returns _ _ _ _ _ Hfold) as (l & r & Hl & Hr & _).
    eauto.
Qed.

Lemma C3_greedy_decision_rule_witness :
  exists v,
    greedy_costs {| left_hand := []; right_hand := [(64, 0%Q, 2%Q, 100)];
                    active_left := []; active_right := [(64, 0%Q, 2%Q, 100)] |}
                 (66, 1%Q, 3%Q, 100) 5 8 = Ok v
    /\ decision_rule_at 5 8
         {| left_hand := []; right_hand := [(64, 0%Q, 2%Q, 100)];
            active_left := []; active_right := [(64, 0%Q, 2%Q, 100)] |}
         (66, 1%Q, 3%Q, 100) v.
Proof.
  eexists. split; [vm_compute; reflexivity|].
  apply (C3_greedy_decision_rule 5 8
           {| left_hand := []; right_hand := [(64, 0%Q, 2%Q, 100)];
              active_left := []; active_right := [(64, 0%Q, 2%Q, 100)] |}
           (66, 1%Q, 3%Q, 100)).
  vm_compute. reflexivity.
Defined.











(** C8, as the claim states it, fails: nothing is rejected.  On
    [malformed_demo], whose only note ends before it starts and has pitch 200, both engines return, with the
    note in the right-hand stream. *)
Lemma C8_malformed_note_is_assigned :
  malformed (200, 1%Q, 0%Q, 64)
  /\ extract_notes malformed_demo = [(200, 1%Q, 0%Q, 64)]
  /\ assign_notes_to_hands malformed_demo 5 8 = Ok ([], [(200, 1%Q, 0%Q, 64)])
  /\ dynamic_programming_assign_hands malformed_demo 5 8
     = Ok ([], [(200, 1%Q, 0%Q, 64)]).
Proof.
  split; [right; right; simpl; lia|].
  repeat split; vm_compute; reflexivity.
Qed.

(** C8, amended.  Neither engine validates its input.  For every input in
    range that contains a malformed note (offset <= onset, or pitch outside
    0-127), no validation failure is reported: the greedy engine and the DP
    engine both run to completion and return an assignment in which the
    malformed note appears, unchanged, in one of the two output streams. *)
Theorem C8_no_validation_at_ingestion :
  forall (midi_data : PrettyMIDI.PrettyMIDI) (max_fingers allowed_spread P : Z) (x : note),
    In x (extract_notes midi_data) ->
    malformed x ->
    in_range P (extract_notes midi_data) allowed_spread ->
    exists out out',
      assign_notes_to_hands midi_data max_fingers allowed_spread = Ok out
      /\ (In x (fst out) \/ In x (snd out))
      /\ dynamic_programming_assign_hands midi_data max_fingers allowed_spread = Ok out'
      /\ (In x (fst out') \/ In x (snd out')).
Proof.
  intros midi_data max_fingers allowed_spread P x Hx _ Hr.
  destruct (greedy_returns_in_range P midi_data max_fingers allowed_spread Hr) as [out H1].
  destruct (dp_returns_in_range P midi_data max_fingers allowed_spread Hr) as [out' H2].
  exists out, out'. split; [exact H1|]. split.
  { destruct (greedy_returns_partition _ _ _ _ H1) as (Hp & _).
    apply in_app_or, (Permutation_in _ (Permutation_sym Hp)), Hx. }
  split; [exact H2|].
  destruct (dp_returns_partition _ _ _ _ H2) as (Hp & _).
  apply in_app_or, (Permutation_in _ (Permutation_sym Hp)), Hx.
Qed.

Lemma in_range_malformed_demo : in_range 200 (extract_notes malformed_demo) 8.
Proof.
  split; [repeat constructor; cbn; lia|]. split; [lia|]. vm_compute. reflexivity.
Qed.

Lemma C8_no_validation_at_ingestion_witness :
  In (200, 1%Q, 0%Q, 64) (extract_notes malformed_demo)
  /\ malformed (200, 1%Q, 0%Q, 64)
  /\ in_range 200 (extract_notes malformed_demo) 8
  /\ exists out out',
       assign_notes_to_hands malformed_demo 5 8 = Ok out
       /\ (In (200, 1%Q, 0%Q, 64) (fst out) \/ In (200, 1%Q, 0%Q, 64) (snd out))
       /\ dynamic_programming_assign_hands malformed_demo 5 8 = Ok out'
       /\ (In (200, 1%Q, 0%Q, 64) (fst out') \/ In (200, 1%Q, 0%Q, 64) (snd out')).
Proof.
  assert (Hin : In (200, 1%Q, 0%Q, 64) (extract_notes malformed_demo))
    by (left; reflexivity).
  assert (Hm : malformed (200, 1%Q, 0%Q, 64)) by (right; right; simpl; lia).
  split; [exact Hin|]. split; [exact Hm|]. split; [exact in_range_malformed_demo|].
  exact (C8_no_validation_at_ingestion malformed_demo 5 8 200 _ Hin Hm in_range_malformed_demo).
Defined.

(** ** Further properties of the engines *)

(** X2. Ordering preservation within a hand: whenever an engine returns,
    each returned stream is a subsequence of the notes sorted by (onset,
    pitch), so the notes of one hand keep their processing order; and both
    engines return on every input in range. *)
Theorem order_within_a_hand :
  forall (midi_data : PrettyMIDI.PrettyMIDI) (max_fingers allowed_spread : Z),
    let sorted := sort_notes (extract_notes midi_data) in
    (forall out, assign_notes_to_hands midi_data max_fingers allowed_spread = Ok out ->
                 sublist (fst out) sorted /\ sublist (snd out) sorted)
    /\ (forall out, dynamic_programming_assign_hands midi_data max_fingers allowed_spread
                    = Ok out ->
                    sublist (fst out) sorted /\ sublist (snd out) sorted)
    /\ (forall P, in_range P (extract_notes midi_data) allowed_spread ->
          exists out out',
            assign_notes_to_hands midi_data max_fingers allowed_spread = Ok out
            /\ dynamic_programming_assign_hands midi_data max_fingers allowed_spread
               = Ok out').
Proof.
  intros midi_data max_fingers allowed_spread sorted. split; [|split].
  - intros out H. exact (proj2 (greedy_returns_partition _ _ _ _ H)).
  - intros out H. exact (proj2 (dp_returns_partition _ _ _ _ H)).
  - intros P Hr.
    destruct (greedy_returns_in_range P midi_data max_fingers allowed_spread Hr) as [out H1].
    destruct (dp_returns_in_range P midi_data max_fingers allowed_spread Hr) as [out' H2].
    eauto.
Qed.

End Binary64Facts.

(** * [melody.py] *)

Module MelodyFacts.
Import Melody.

Section Grouping.
Variable midi_of_hz : Q -> Z.

(** ** The grouping loop returns, and where its notes come from *)

Lemma from_voiced_frame_mono done fr n :
  from_voiced_frame midi_of_hz done n -> from_voiced_frame midi_of_hz (done ++ [fr]) n.
Proof.
  intros (t & f & Hin & Hs & Hp). exists t, f. split; [|auto].
  apply in_or_app. now left.
Qed.

Lemma provenance_step st done fr :
  provenance midi_of_hz st done -> provenance midi_of_hz (frame_step midi_of_hz st fr) (done ++ [fr]).
Proof.
  intros (Hcount & Hnotes & Hcur).
  assert (Hmono : Forall (from_voiced_frame midi_of_hz (done ++ [fr])) (notes st)).
  { eapply List.Forall_impl; [|exact Hnotes]. intros n. apply from_voiced_frame_mono. }
  destruct fr as [[time pitch] voiced].
  unfold provenance. rewrite List.filter_app, length_app.
  assert (Hf : length (List.filter (fun frame : Q * Q * bool => snd frame)
                         [(time, pitch, voiced)])
               = if voiced then 1%nat else 0%nat) by (destruct voiced; reflexivity).
  rewrite Hf. clear Hf.
  unfold frame_step. destruct voiced.
  - destruct (current st) as [[cn cs]|] eqn:Ecur.
    + destruct (Qlt_le_dec 1.0 (Qabs (pitch - cn))); cbn [notes current].
      * rewrite length_app. cbn [length]. split; [lia|]. split.
        -- apply Forall_app. split; [exact Hmono|]. constructor; [|constructor].
           exists cs, cn. split; [|auto]. apply in_or_app. left. now apply Hcur.
        -- intros cn' cs' E. injection E as <- <-. apply in_or_app. right. now left.
      * rewrite Ecur. split; [lia|]. split; [exact Hmono|].
        intros cn' cs' E. apply in_or_app. left. now apply Hcur.
    + cbn [notes current]. split; [lia|]. split; [exact Hmono|].
      intros cn' cs' E. injection E as <- <-. apply in_or_app. right. now left.
  - destruct (current st) as [[cn cs]|] eqn:Ecur; cbn [notes current].
    + rewrite length_app. cbn [length]. split; [lia|]. split; [|discriminate].
      apply Forall_app. split; [exact Hmono|]. constructor; [|constructor].
      exists cs, cn. split; [|auto]. apply in_or_app. left. now apply Hcur.
    + rewrite Ecur. split; [lia|]. split; [exact Hmono|]. discriminate.
Qed.

Lemma provenance_fold frames : forall st done,
  provenance midi_of_hz st done ->
  provenance midi_of_hz (fold_left (frame_step midi_of_hz) frames st) (done ++ frames).
Proof.
  induction frames as [|fr frames IH]; intros st done H; simpl.
  - now rewrite app_nil_r.
  - replace (done ++ fr :: frames) with ((done ++ [fr]) ++ frames)
      by (rewrite <- app_assoc; reflexivity).
    apply IH. now apply provenance_step.
Qed.

Lemma zip3_time_in times : forall f0 voiced_flag t f v,
  In (t, f, v) (zip3 times f0 voiced_flag) -> In t times.
Proof.
  induction times as [|t0 times IH]; intros f0 voiced_flag t f v; simpl; [tauto|].
  destruct f0 as [|p f0]; [simpl; tauto|].
  destruct voiced_flag as [|b voiced_flag]; [simpl; tauto|].
  intros [E|H]; [injection E as <- _ _; now left|right; eapply IH, H].
Qed.

Lemma last_of_nonempty {A} (l : list A) (x : A) : In x l -> is_Some (last l).
Proof.
  intros H. destruct (last l) eqn:E; [eauto|].
  apply last_None in E. subst l. destruct H.
Qed.

(** The grouping never fails on [times[-1]]; it returns at most one note
    per voiced frame (none when no frame is voiced); and every note it
    returns starts at the time of a voiced frame and carries the MIDI pitch
    of that frame's estimate. *)
Theorem extract_melody_returns :
  forall (times f0 : list Q) (voiced_flag : list bool),
    exists notes,
      extract_melody midi_of_hz times f0 voiced_flag = Some notes
      /\ (length notes <= length (voiced_frames times f0 voiced_flag))%nat
      /\ Forall (from_voiced_frame midi_of_hz (zip3 times f0 voiced_flag)) notes.
Proof.
  intros times f0 voiced_flag. unfold extract_melody, voiced_frames.
  set (frames := zip3 times f0 voiced_flag).
  assert (H0 : provenance midi_of_hz seg_init []).
  { split; [simpl; lia|]. split; [constructor|discriminate]. }
  pose proof (provenance_fold frames seg_init [] H0) as (Hcount & Hnotes & Hcur).
  simpl app in *.
  set (st := fold_left (frame_step midi_of_hz) frames seg_init) in *.
  destruct (current st) as [[cn cs]|] eqn:Ecur.
  - specialize (Hcur cn cs eq_refl).
    destruct (last_of_nonempty times cs (zip3_time_in _ _ _ _ _ _ Hcur)) as [e He].
    rewrite He. simpl. eexists. split; [reflexivity|]. split.
    + rewrite length_app. simpl. lia.
    + apply Forall_app. split; [exact Hnotes|]. constructor; [|constructor].
      exists cs, cn. auto.
  - eexists. split; [reflexivity|]. split; [lia|exact Hnotes].
Qed.

(** ** Notes in sequence *)

Lemma in_sequence_snoc l n :
  in_sequence l ->
  Forall (fun a => (m_end a <= m_start n)%Q) l ->
  (m_start n <= m_end n)%Q ->
  in_sequence (l ++ [n]).
Proof.
  intros [Hwf Hs] Hends Hn. split.
  - apply Forall_app. split; [exact Hwf|]. constructor; [exact Hn|constructor].
  - clear Hwf. induction Hs as [|a l Hs IH Ha]; simpl.
    + constructor; constructor.
    + inversion Hends as [|? ? Ha' Hends']; subst.
      constructor; [now apply IH|].
      apply Forall_app. split; [exact Ha|]. constructor; [exact Ha'|constructor].
Qed.

Lemma ends_weaken (l : list melody_note) (x y : Q) :
  (x <= y)%Q -> Forall (fun n => (m_end n <= x)%Q) l -> Forall (fun n => (m_end n <= y)%Q) l.
Proof.
  intros Hxy H. eapply List.Forall_impl; [|exact H]. cbv beta. intros n Hn. lra.
Qed.

Lemma timeline_step times st b t p v :
  timeline times st b -> (b <= t)%Q -> In t times ->
  timeline times (frame_step midi_of_hz st (t, p, v)) t.
Proof.
  intros (Hseq & Hends & Hcur) Hbt Ht. unfold timeline, frame_step.
  destruct v.
  - destruct (current st) as [[cn cs]|] eqn:Ecur.
    + destruct (Hcur cn cs eq_refl) as [Hcs Hin].
      destruct (Qlt_le_dec 1.0 (Qabs (p - cn))); cbn [notes current].
      * split; [|split].
        -- apply in_sequence_snoc; [exact Hseq|exact Hends|unfold m_start, m_end; cbn [fst snd]; lra].
        -- apply Forall_app. split.
           ++ apply (ends_weaken _ cs t); [lra|exact Hends].
           ++ constructor; [unfold m_start, m_end; cbn [fst snd]; lra|constructor].
        -- intros cn' cs' E. injection E as <- <-. split; [lra|exact Ht].
      * rewrite Ecur. split; [exact Hseq|]. split; [exact Hends|].
        intros cn' cs' E. injection E as <- <-. split; [lra|exact Hin].
    + cbn [notes current]. split; [exact Hseq|]. split.
      * apply (ends_weaken _ b t); [exact Hbt|exact Hends].
      * intros cn' cs' E. injection E as <- <-. split; [lra|exact Ht].
  - destruct (current st) as [[cn cs]|] eqn:Ecur; cbn [notes current].
    + destruct (Hcur cn cs eq_refl) as [Hcs Hin]. split; [|split; [|discriminate]].
      * apply in_sequence_snoc; [exact Hseq|exact Hends|unfold m_start, m_end; cbn [fst snd]; lra].
      * apply Forall_app. split.
        -- apply (ends_weaken _ cs t); [lra|exact Hends].
        -- constructor; [unfold m_start, m_end; cbn [fst snd]; lra|constructor].
    + rewrite Ecur. split; [exact Hseq|]. split; [|discriminate].
      apply (ends_weaken _ b t); [exact Hbt|exact Hends].
Qed.

Lemma timeline_fold times frames : forall st b,
  StronglySorted Qle (b :: map frame_time frames) ->
  Forall (fun fr => In (frame_time fr) times) frames ->
  timeline times st b ->
  exists b', timeline times (fold_left (frame_step midi_of_hz) frames st) b'.
Proof.
  induction frames as [|[[t p] v] frames IH]; intros st b Hs Hin H; simpl.
  - eauto.
  - inversion Hs as [|? ? Hs' Hb]; subst. simpl in Hb.
    inversion Hb as [|? ? Hbt _]; subst.
    inversion Hin as [|? ? Ht Hin']; subst. simpl in Ht.
    apply (IH _ t); [exact Hs'|exact Hin'|].
    now apply (timeline_step times st b).
Qed.

Lemma zip3_times_sorted times : forall f0 voiced_flag,
  StronglySorted Qle times ->
  StronglySorted Qle (map frame_time (zip3 times f0 voiced_flag)).
Proof.
  induction times as [|t times IH]; intros f0 voiced_flag Hs; simpl; [constructor|].
  destruct f0 as [|p f0]; [constructor|].
  destruct voiced_flag as [|v voiced_flag]; [constructor|].
  inversion Hs as [|? ? Hs' Ht]; subst. simpl.
  constructor; [now apply IH|].
  rewrite List.Forall_forall in Ht |- *. intros x Hx.
  apply in_map_iff in Hx. destruct Hx as ([[t' p'] v'] & <- & Hx).
  apply Ht. simpl. eapply zip3_time_in, Hx.
Qed.

Lemma sorted_last_max (times : list Q) (x e : Q) :
  StronglySorted Qle times -> In x times -> last times = Some e -> (x <= e)%Q.
Proof.
  induction 1 as [|t times Hs IH Ht]; intros Hx He; [destruct Hx|].
  destruct times as [|t' times'].
  - simpl in He. injection He as <-. destruct Hx as [<-|[]]. lra.
  - change (last (t :: t' :: times')) with (last (t' :: times')) in He.
    destruct Hx as [<-|Hx]; [|now apply IH].
    rewrite List.Forall_forall in Ht. apply Ht.
    apply list_elem_of_In. eapply last_Some_elem_of, He.
Qed.

(** When the frame times never decrease, the notes come out in sequence:
    no note ends before it starts, and every note ends no later than all
    the notes after it start, so the melody is monophonic and in time
    order. *)
Theorem extract_melody_in_sequence :
  forall (times f0 : list Q) (voiced_flag : list bool),
    StronglySorted Qle times ->
    exists notes,
      extract_melody midi_of_hz times f0 voiced_flag = Some notes
      /\ in_sequence notes.
Proof.
  intros times f0 voiced_flag Hs. unfold extract_melody.
  set (frames := zip3 times f0 voiced_flag).
  assert (Hin : Forall (fun fr => In (frame_time fr) times) frames).
  { apply List.Forall_forall. intros [[t p] v] Hfr. simpl. eapply zip3_time_in, Hfr. }
  assert (H : exists b, timeline times (fold_left (frame_step midi_of_hz) frames seg_init) b).
  { pose proof (zip3_times_sorted times f0 voiced_flag Hs) as Hfs. fold frames in Hfs.
    assert (H0 : forall b, timeline times seg_init b).
    { intros b. split; [split; constructor|]. split; [constructor|discriminate]. }
    destruct frames as [|fr frames'] eqn:E; [exists 0%Q; apply H0|].
    apply (timeline_fold times (fr :: frames') seg_init (frame_time fr)); [|exact Hin|apply H0].
    constructor; [exact Hfs|]. constructor.
    - apply Qle_refl.
    - simpl in Hfs. inversion Hfs; subst. assumption. }
  destruct H as (b & Hseq & Hends & Hcur).
  set (st := fold_left (frame_step midi_of_hz) frames seg_init) in *.
  destruct (current st) as [[cn cs]|] eqn:Ecur.
  - destruct (Hcur cn cs eq_refl) as [_ Hcs].
    destruct (last_of_nonempty times cs Hcs) as [e He]. rewrite He. simpl.
    eexists. split; [reflexivity|].
    apply in_sequence_snoc; [exact Hseq|exact Hends|].
    simpl. now apply (sorted_last_max times).
  - eexists. split; [reflexivity|exact Hseq].
Qed.

End Grouping.

Lemma extract_melody_in_sequence_witness :
  StronglySorted Qle [0; 0.1; 0.2; 0.3]%Q
  /\ exists notes,
       extract_melody (fun _ => 60) [0; 0.1; 0.2; 0.3]%Q [440; 440.5; 466; 0]%Q
                      [true; true; true; false]
       = Some notes
       /\ in_sequence notes.
Proof.
  assert (H : StronglySorted Qle [0; 0.1; 0.2; 0.3]%Q).
  { repeat constructor; unfold Qle; simpl; lia. }
  split; [exact H|].
  exact (extract_melody_in_sequence (fun _ => 60) [0; 0.1; 0.2; 0.3]%Q [440; 440.5; 466; 0]%Q
           [true; true; true; false] H).
Defined.

End MelodyFacts.

(** * [download.py] *)

Module DownloadFacts.
Import Download.

Example slugify_watch_url :
  slugify_url py_isspace (of_string "https://www.youtube.com/watch?v=dQw4w9WgXcQ&t=42s")
  = of_string "dQw4w9WgXcQ".
Proof. reflexivity. Qed.

Example slugify_short_url :
  slugify_url py_isspace (of_string "  https://youtu.be/a.b c  ") = of_string "a_b_c".
Proof. reflexivity. Qed.

Lemma allowed_underscore : allowed 95 = true.
Proof. reflexivity. Qed.

Lemma sanitize_allowed slug : Forall (fun c => allowed c = true) (sanitize slug).
Proof.
  unfold sanitize. apply List.Forall_forall. intros c Hc.
  apply in_map_iff in Hc. destruct Hc as (c0 & <- & _).
  destruct (allowed c0) eqn:E; [exact E|reflexivity].
Qed.

Lemma sanitize_id slug : Forall (fun c => allowed c = true) slug -> sanitize slug = slug.
Proof.
  induction 1 as [|c slug Hc _ IH]; [reflexivity|].
  unfold sanitize in *. simpl. now rewrite Hc, IH.
Qed.

Lemma allowed_not (c x : N) : allowed c = true -> allowed x = false -> c <> x.
Proof. intros Hc Hx ->. congruence. Qed.

(** The folder name holds only letters, digits, ['_'] and ['-']: in
    particular no ['/'], no backslash, no ['.'] and no ['=']. *)
Theorem slug_alphabet :
  forall (isspace : N -> bool) (url : list N),
    Forall (fun c => allowed c = true) (slugify_url isspace url)
    /\ ~ In 47%N (slugify_url isspace url)
    /\ ~ In 92%N (slugify_url isspace url)
    /\ ~ In 46%N (slugify_url isspace url).
Proof.
  intros isspace url.
  assert (H : Forall (fun c => allowed c = true) (slugify_url isspace url))
    by apply sanitize_allowed.
  split; [exact H|].
  rewrite List.Forall_forall in H.
  repeat split; intros Hin; apply H in Hin; discriminate.
Qed.

(** ** Applying [slugify_url] to a folder name *)

Lemma search_v_no_eq s : Forall (fun c => c <> 61%N) s -> search_v s = None.
Proof.
  induction 1 as [|c s Hc Hs IH]; [reflexivity|].
  simpl. destruct s as [|c' rest]; [reflexivity|].
  inversion Hs as [|? ? Hc' _]; subst.
  destruct (N.eqb_spec c' 61) as [E|_]; [contradiction|].
  rewrite andb_false_r. exact IH.
Qed.

Lemma split_no_sep sep s : Forall (fun c => c <> sep) s -> split sep s = [s].
Proof.
  induction 1 as [|c s Hc _ IH]; [reflexivity|].
  simpl. destruct (N.eqb_spec c sep) as [E|_]; [contradiction|]. now rewrite IH.
Qed.

Section SlugFacts.
Variable isspace : N -> bool.

Lemma lstrip_no_space s :
  match s with [] => True | c :: _ => isspace c = false end -> lstrip isspace s = s.
Proof. destruct s as [|c s]; [reflexivity|]. simpl. now intros ->. Qed.

Lemma strip_no_space s : Forall (fun c => isspace c = false) s -> strip isspace s = s.
Proof.
  intros H. unfold strip.
  rewrite (lstrip_no_space s) by (destruct H; auto).
  assert (Hr : Forall (fun c => isspace c = false) (rev s)).
  { apply List.Forall_forall. intros c Hc. apply in_rev in Hc.
    rewrite List.Forall_forall in H. now apply H. }
  rewrite (lstrip_no_space (rev s)) by (destruct Hr; auto).
  apply rev_involutive.
Qed.

(** A folder name is its own folder name: [slugify_url] applied to one of
    its results gives that result back (no allowed character is white
    space). *)
Theorem slugify_url_idempotent :
  forall url : list N,
    (forall c, allowed c = true -> isspace c = false) ->
    slugify_url isspace (slugify_url isspace url) = slugify_url isspace url.
Proof.
  intros url Hsp.
  pose proof (sanitize_allowed
                match search_v url with
                | Some group1 => group1
                | None => List.last (split 47 (strip isspace url)) []
                end) as H.
  fold (slugify_url isspace url) in H.
  set (out := slugify_url isspace url) in *.
  unfold slugify_url at 1.
  rewrite search_v_no_eq.
  - rewrite strip_no_space.
    + rewrite split_no_sep; [simpl; now apply sanitize_id|].
      eapply List.Forall_impl; [|exact H]. intros c Hc. now apply (allowed_not c 47).
    + eapply List.Forall_impl; [|exact H]. exact Hsp.
  - eapply List.Forall_impl; [|exact H]. intros c Hc. now apply (allowed_not c 61).
Qed.

(** ** The two shapes of URL *)

Lemma until_amp_id id post :
  Forall (fun c => c <> 38%N) id ->
  match post with [] => True | c :: _ => c = 38%N end ->
  until_amp (id ++ post) = id.
Proof.
  induction 1 as [|c id Hc _ IH]; intros Hpost; simpl.
  - destruct post as [|c post]; [reflexivity|]. subst c. reflexivity.
  - destruct (N.eqb_spec c 38) as [E|_]; [contradiction|]. now rewrite IH.
Qed.

Lemma search_v_skip pre s :
  has_v_eq pre = false ->
  match s with [] => True | c :: _ => c <> 61%N end ->
  search_v (pre ++ s) = search_v s.
Proof.
  induction pre as [|c pre IH]; intros Hpre Hs; [reflexivity|].
  cbn [app search_v].
  destruct pre as [|c' pre'].
  - cbn [app]. unfold match_v_here. destruct s as [|c0 s']; [reflexivity|].
    destruct (N.eqb_spec c0 61) as [E|_]; [contradiction|].
    rewrite andb_false_r. reflexivity.
  - change (has_v_eq (c :: c' :: pre'))
      with (((c =? 118)%N && (c' =? 61)%N) || has_v_eq (c' :: pre')) in Hpre.
    apply orb_false_iff in Hpre. destruct Hpre as [Hhere Hrest].
    unfold match_v_here. cbn [app]. rewrite Hhere.
    apply IH; assumption.
Qed.

(** A watch URL.  When ["v="] first occurs in front of a video id made of
    allowed characters, and the id is followed by ['&'] or ends the URL, the
    folder name is the video id. *)
Theorem slugify_watch_url_is_video_id :
  forall pre id post : list N,
    has_v_eq pre = false ->
    id <> [] ->
    Forall (fun c => allowed c = true) id ->
    match post with [] => True | c :: _ => c = 38%N end ->
    slugify_url isspace (pre ++ [118; 61]%N ++ id ++ post) = id.
Proof.
  intros pre id post Hpre Hid Hall Hpost. unfold slugify_url.
  rewrite search_v_skip; [|exact Hpre|simpl; discriminate].
  simpl app. simpl search_v. unfold match_v_here. simpl.
  rewrite until_amp_id; [|eapply List.Forall_impl; [|exact Hall];
                          intros c Hc; now apply (allowed_not c 38)|exact Hpost].
  destruct id as [|c id']; [contradiction|].
  now apply sanitize_id.
Qed.

Lemma lstrip_app_stop pre x t :
  isspace x = false -> lstrip isspace (pre ++ x :: t) = lstrip isspace pre ++ x :: t.
Proof.
  intros Hx. induction pre as [|c pre IH]; simpl; [now rewrite Hx|].
  destruct (isspace c); [exact IH|reflexivity].
Qed.

Lemma last_split_after_sep sep q id :
  Forall (fun c => c <> sep) id ->
  List.last (split sep (q ++ sep :: id)) [] = id.
Proof.
  intros Hid. induction q as [|c q IH]; simpl.
  - rewrite N.eqb_refl, (split_no_sep sep id Hid). reflexivity.
  - destruct (N.eqb_spec c sep) as [_|_].
    + destruct (split sep (q ++ sep :: id)) eqn:E; [|exact IH].
      destruct (q ++ sep :: id) as [|c0 s0] eqn:E'; [destruct q; discriminate|].
      simpl in E. destruct (c0 =? sep)%N; [discriminate|].
      destruct (split sep s0); discriminate.
    + destruct (split sep (q ++ sep :: id)) as [|piece pieces] eqn:E.
      * destruct (q ++ sep :: id) as [|c0 s0] eqn:E'; [destruct q; discriminate|].
        simpl in E. destruct (c0 =? sep)%N; [discriminate|].
        destruct (split sep s0); discriminate.
      * destruct pieces as [|piece' pieces'].
        -- exfalso. clear IH.
           assert (Hlen : (2 <= length (split sep (q ++ sep :: id)))%nat).
           { clear E. induction q as [|c1 q IHq]; simpl.
             - rewrite N.eqb_refl. simpl.
               destruct (split sep id) eqn:Es; [|simpl; lia].
               rewrite (split_no_sep sep id Hid) in Es. discriminate.
             - destruct (c1 =? sep)%N; [simpl; lia|].
               destruct (split sep (q ++ sep :: id)) as [|p1 ps]; simpl in *; lia. }
           rewrite E in Hlen. simpl in Hlen. lia.
        -- exact IH.
Qed.

(** A URL without a ["v="] match.  The folder name is what follows the
    last ['/'], when that is made of allowed characters; a URL that ends in
    ['/'] therefore gets the empty folder name. *)
Theorem slugify_url_last_segment :
  forall pre id : list N,
    search_v (pre ++ 47%N :: id) = None ->
    isspace 47%N = false ->
    (forall c, allowed c = true -> isspace c = false) ->
    Forall (fun c => allowed c = true) id ->
    slugify_url isspace (pre ++ 47%N :: id) = id.
Proof.
  intros pre id Hsearch Hslash Hsp Hall. unfold slugify_url. rewrite Hsearch.
  assert (Hstrip : strip isspace (pre ++ 47%N :: id) = lstrip isspace pre ++ 47%N :: id).
  { unfold strip. rewrite lstrip_app_stop by exact Hslash.
    rewrite rev_app_distr. simpl rev. rewrite <- !app_assoc. simpl app.
    rewrite (lstrip_no_space (rev id ++ 47%N :: rev (lstrip isspace pre))).
    - rewrite rev_app_distr. simpl rev. rewrite !rev_involutive, <- app_assoc. reflexivity.
    - destruct (rev id) as [|c r] eqn:E; simpl; [exact Hslash|].
      apply Hsp. rewrite List.Forall_forall in Hall. apply Hall.
      apply in_rev. rewrite E. now left. }
  rewrite Hstrip, last_split_after_sep.
  - now apply sanitize_id.
  - eapply List.Forall_impl; [|exact Hall]. intros c Hc. now apply (allowed_not c 47).
Qed.

End SlugFacts.

Lemma allowed_range c : allowed c = true -> (45 <= c <= 122)%N.
Proof.
  unfold allowed. rewrite !orb_true_iff, !andb_true_iff, !N.leb_le, !N.eqb_eq. lia.
Qed.

Lemma allowed_not_space c : allowed c = true -> py_isspace c = false.
Proof.
  intros H. apply allowed_range in H. unfold py_isspace.
  repeat (apply orb_false_intro);
    try (apply N.eqb_neq; lia);
    apply andb_false_iff; rewrite !N.leb_gt; lia.
Qed.

Lemma slugify_url_idempotent_witness :
  slugify_url py_isspace
    (slugify_url py_isspace (of_string " https://youtu.be/a.b c?x=1 "))
  = slugify_url py_isspace (of_string " https://youtu.be/a.b c?x=1 ").
Proof.
  apply (slugify_url_idempotent py_isspace). exact allowed_not_space.
Defined.

Lemma slugify_watch_url_is_video_id_witness :
  slugify_url py_isspace
    (of_string "https://www.youtube.com/watch?list=PL1&" ++ [118; 61]%N
       ++ of_string "dQw4w9WgXcQ" ++ of_string "&t=42s")
  = of_string "dQw4w9WgXcQ".
Proof.
  apply (slugify_watch_url_is_video_id py_isspace).
  - reflexivity.
  - discriminate.
  - repeat constructor.
  - reflexivity.
Defined.

Lemma slugify_url_last_segment_witness :
  slugify_url py_isspace (of_string "https://youtu.be" ++ 47%N :: of_string "dQw4w9WgXcQ")
  = of_string "dQw4w9WgXcQ"
  /\ slugify_url py_isspace (of_string "https://example.org/clips" ++ 47%N :: []) = [].
Proof.
  split.
  - apply (slugify_url_last_segment py_isspace).
    + reflexivity.
    + reflexivity.
    + exact allowed_not_space.
    + repeat constructor.
  - apply (slugify_url_last_segment py_isspace).
    + reflexivity.
    + reflexivity.
    + exact allowed_not_space.
    + constructor.
Defined.

End DownloadFacts.
